(** * tvws: the frame codec, the candle state machine and the orchestrators

    A shallow embedding of the protocol engine of the TradingView
    WebSocket client ([src/connection/protocol.ts],
    [src/connection/websocket.ts], [src/data/candles.ts],
    [src/data/stream.ts], [src/utils/validation.ts], [src/utils/errors.ts]
    and [src/index.ts], and the earlier single-file copy of the concurrent
    and streaming orchestrators) together with the properties its
    specification states about it. *)

From Stdlib Require Import ZArith QArith Qcanon String Ascii Decimal DecimalZ DecimalPos DecimalFacts.
From stdpp Require Import gmap strings list.

Close Scope Q_scope.

Local Open Scope string_scope.
Local Open Scope list_scope.

(** ** Host strings

    A JavaScript string is modelled by a [string] whose characters are the
    code units below 256: the texts on the wire, the names and the strings
    of the commands.  The strings [JSON.parse] returns are lists of 16-bit
    code units, since an escape of the text can name any of them. *)

Definition dquote : ascii := "034"%char.
Definition backslash : ascii := "\"%char.

Definition str1 (c : ascii) : string := String c EmptyString.

Fixpoint startsWith (s prefix : string) : bool :=
  match prefix, s with
  | EmptyString, _ => true
  | String p prefix', String c s' => if Ascii.eqb c p then startsWith s' prefix' else false
  | String _ _, EmptyString => false
  end.

(** [s.substring(0, n)] *)
Fixpoint substring0 (n : nat) (s : string) : string :=
  match n, s with
  | S n', String c s' => String c (substring0 n' s')
  | _, _ => EmptyString
  end.

Definition is_digit (c : ascii) : bool :=
  match c with
  | "0" | "1" | "2" | "3" | "4" | "5" | "6" | "7" | "8" | "9" => true
  | _ => false
  end%char.

(** ** JSON values, [JSON.stringify] and [JSON.parse]

    A JSON value is a tree over numbers and strings; an object is the list
    of its properties in enumeration order.  The tree comes with two kinds
    of leaves: those of the values the library serialises, and those of the
    values [JSON.parse] returns. *)

#[warnings="-register-all"]
Inductive json (num str : Type) : Type :=
  | JNull
  | JBool (b : bool)
  | JNum (n : num)
  | JStr (s : str)
  | JArr (items : list (json num str))
  | JObj (props : list (str * json num str)).
Arguments JNull {num str}.
Arguments JBool {num str} b.
Arguments JNum {num str} n.
Arguments JStr {num str} s.
Arguments JArr {num str} items.
Arguments JObj {num str} props.

(** What the code asks of a leaf: whether a number is other than 0 and
    NaN, whether a string is other than the empty one, and whether a key is
    the property the code names. *)
Class Leaves (num str : Type) : Type := {
  number_truthy : num -> bool;
  string_truthy : str -> bool;
  is_name : str -> string -> bool
}.

(** The values the library serialises: the numbers are integers (the
    commands of the core carry bar counts), the strings have code units
    below 256. *)
Definition value : Type := json Z string.

#[export] Instance value_leaves : Leaves Z string := {
  number_truthy n := negb (n =? 0)%Z;
  string_truthy s := negb (String.eqb s "");
  is_name k name := String.eqb k name
}.

(** The value [mantissa * 10 ^ exponent] of a number literal.
    [JSON.parse] returns the double nearest to it; the model keeps the value
    itself, an integer with the exponent 0 and any other value with a
    negative exponent and a mantissa that 10 does not divide.  Literals that
    are read as one double may so be kept apart, and the sign of a zero is
    not kept; the code reads no more of a number than whether it is zero. *)
Record decimal : Type := mkDecimal {
  mantissa : Z;
  exponent : Z
}.

Fixpoint strip_zeros (fuel : nat) (m e : Z) : decimal :=
  match fuel with
  | O => mkDecimal m e
  | S fuel' =>
      if (e <? 0)%Z && (m mod 10 =? 0)%Z then strip_zeros fuel' (m / 10) (e + 1)
      else mkDecimal m e
  end.

Definition decimal_of (m e : Z) : decimal :=
  if (m =? 0)%Z then mkDecimal 0 0
  else if (0 <=? e)%Z then mkDecimal (m * 10 ^ e) 0
  else strip_zeros (Z.to_nat (- e)) m e.

(** The double nearest to the value is not zero: the value is above
    [2 ^ -1075] in magnitude, half of the least positive double (which
    itself is rounded to zero, the tie going to the even mantissa). *)
Definition rounds_to_nonzero (d : decimal) : bool :=
  if (0 <=? exponent d)%Z then negb (mantissa d =? 0)%Z
  else (10 ^ (- exponent d) <? Z.abs (mantissa d) * 2 ^ 1075)%Z.

(** The code units of a string of the model. *)
Fixpoint units (s : string) : list N :=
  match s with
  | EmptyString => []
  | String c s' => N_of_ascii c :: units s'
  end.

(** The string of code units that are below 256. *)
Fixpoint text_of (u : list N) : string :=
  match u with
  | [] => EmptyString
  | n :: u' => String (ascii_of_N n) (text_of u')
  end.

Fixpoint spells (u : list N) (name : string) : bool :=
  match u, name with
  | [], EmptyString => true
  | n :: u', String c name' => (n =? N_of_ascii c)%N && spells u' name'
  | _, _ => false
  end.

(** The values [JSON.parse] returns: a number is the value of its literal,
    a string the list of its 16-bit code units. *)
Definition parsed : Type := json decimal (list N).

#[export] Instance parsed_leaves : Leaves decimal (list N) := {
  number_truthy := rounds_to_nonzero;
  string_truthy u := match u with [] => false | _ :: _ => true end;
  is_name := spells
}.

(** What [JSON.parse] returns for the text of a value. *)
Fixpoint of_value (v : value) : parsed :=
  match v with
  | JNull => JNull
  | JBool b => JBool b
  | JNum n => JNum (mkDecimal n 0)
  | JStr s => JStr (units s)
  | JArr items => JArr (map of_value items)
  | JObj props => JObj (map (fun kv => (units (fst kv), of_value (snd kv))) props)
  end.

(** Property read [o[k]]: [None] is [undefined].  When a text repeats a key
    the last occurrence wins, as in [JSON.parse]. *)
Fixpoint assoc_last {num str : Type} `{Leaves num str} (k : string)
    (props : list (str * json num str)) : option (json num str) :=
  match props with
  | [] => None
  | (k', v) :: rest =>
      match assoc_last k rest with
      | Some v' => Some v'
      | None => if is_name k' k then Some v else None
      end
  end.

Definition get_prop {num str : Type} `{Leaves num str} (v : json num str) (k : string)
  : option (json num str) :=
  match v with
  | JObj props => assoc_last k props
  | _ => None
  end.

(** JavaScript truthiness of a property read. *)
Definition truthy {num str : Type} `{Leaves num str} (o : option (json num str)) : bool :=
  match o with
  | None => false
  | Some JNull => false
  | Some (JBool b) => b
  | Some (JNum n) => number_truthy n
  | Some (JStr s) => string_truthy s
  | Some (JArr _) => true
  | Some (JObj _) => true
  end.



(** *** Printing *)

Fixpoint string_of_uint (d : uint) : string :=
  match d with
  | Nil => EmptyString
  | D0 d => String "0" (string_of_uint d)
  | D1 d => String "1" (string_of_uint d)
  | D2 d => String "2" (string_of_uint d)
  | D3 d => String "3" (string_of_uint d)
  | D4 d => String "4" (string_of_uint d)
  | D5 d => String "5" (string_of_uint d)
  | D6 d => String "6" (string_of_uint d)
  | D7 d => String "7" (string_of_uint d)
  | D8 d => String "8" (string_of_uint d)
  | D9 d => String "9" (string_of_uint d)
  end.

(** Decimal text of an integer, as [Number.prototype.toString] prints a
    safe integer. *)
Definition string_of_Z (n : Z) : string :=
  match Z.to_int n with
  | Pos d => string_of_uint d
  | Neg d => String "-" (string_of_uint d)
  end.

Definition string_of_nat (n : nat) : string := string_of_Z (Z.of_nat n).

Definition hex_char (k : N) : ascii :=
  match k with
  | 0 => "0" | 1 => "1" | 2 => "2" | 3 => "3" | 4 => "4" | 5 => "5" | 6 => "6"
  | 7 => "7" | 8 => "8" | 9 => "9" | 10 => "a" | 11 => "b" | 12 => "c"
  | 13 => "d" | 14 => "e" | _ => "f"
  end%N%char.

(** The escape [JSON.stringify] writes for one code unit. *)
Definition escape_char (c : ascii) : string :=
  let n := N_of_ascii c in
  if Ascii.eqb c dquote then String backslash (str1 dquote)
  else if Ascii.eqb c backslash then String backslash (str1 backslash)
  else if (n =? 8)%N then String backslash "b"
  else if (n =? 9)%N then String backslash "t"
  else if (n =? 10)%N then String backslash "n"
  else if (n =? 12)%N then String backslash "f"
  else if (n =? 13)%N then String backslash "r"
  else if (n <? 32)%N then
    String backslash
      (String "u" (String "0" (String "0"
         (String (hex_char (n / 16)) (str1 (hex_char (n mod 16)))))))
  else str1 c.

Fixpoint escape_chars (s : string) : string :=
  match s with
  | EmptyString => EmptyString
  | String c s' => escape_char c +:+ escape_chars s'
  end.

Definition quote (s : string) : string :=
  String dquote (escape_chars s +:+ str1 dquote).

(** The printed items separated by commas, then the closing bracket. *)
Fixpoint join_items (close : ascii) (items : list string) : string :=
  match items with
  | [] => str1 close
  | [x] => x +:+ str1 close
  | x :: rest => x +:+ String "," (join_items close rest)
  end.

Fixpoint stringify (v : value) : string :=
  match v with
  | JNull => "null"
  | JBool true => "true"
  | JBool false => "false"
  | JNum n => string_of_Z n
  | JStr s => quote s
  | JArr items => String "[" (join_items "]" (map stringify items))
  | JObj props =>
      String "{"
        (join_items "}"
           (map (fun kv => quote (fst kv) +:+ String ":" (stringify (snd kv))) props))
  end.

(** The fuel [parse_value] needs to read a value back. *)
Fixpoint size (v : value) : nat :=
  match v with
  | JArr items => S (foldr (fun x acc => S (size x + acc)) 0%nat items)
  | JObj props => S (foldr (fun kv acc => S (size (snd kv) + acc)) 0%nat props)
  | _ => 1
  end.

Definition JSON_stringify : value -> string := stringify.

(** *** Parsing *)

Definition is_ws (c : ascii) : bool :=
  match c with
  | " " | "009" | "010" | "013" => true
  | _ => false
  end%char.

Fixpoint skip_ws (s : string) : string :=
  match s with
  | String c s' => if is_ws c then skip_ws s' else s
  | EmptyString => s
  end.

Definition hex_val (c : ascii) : option N :=
  let n := N_of_ascii c in
  if ((48 <=? n) && (n <=? 57))%N then Some (n - 48)%N
  else if ((97 <=? n) && (n <=? 102))%N then Some (n - 87)%N
  else if ((65 <=? n) && (n <=? 70))%N then Some (n - 55)%N
  else None.

(** The code unit of [\uXXXX]; [None] when a digit is not hexadecimal. *)
Definition unicode_escape (a b c d : ascii) : option N :=
  match hex_val a, hex_val b, hex_val c, hex_val d with
  | Some w, Some x, Some y, Some z => Some (4096 * w + 256 * x + 16 * y + z)%N
  | _, _, _, _ => None
  end.

(** The code units of a string literal after its opening quote, up to and
    including the closing quote. *)
Fixpoint parse_chars (s : string) : option (list N * string) :=
  match s with
  | EmptyString => None
  | String c s' =>
      if Ascii.eqb c dquote then Some ([], s')
      else if Ascii.eqb c backslash then
        match s' with
        | String e s'' =>
            let continue (x : N) (r : string) :=
              match parse_chars r with
              | Some (t, rest) => Some (x :: t, rest)
              | None => None
              end in
            if Ascii.eqb e dquote then continue 34%N s''
            else if Ascii.eqb e backslash then continue 92%N s''
            else if Ascii.eqb e "/" then continue 47%N s''
            else if Ascii.eqb e "b" then continue 8%N s''
            else if Ascii.eqb e "t" then continue 9%N s''
            else if Ascii.eqb e "n" then continue 10%N s''
            else if Ascii.eqb e "f" then continue 12%N s''
            else if Ascii.eqb e "r" then continue 13%N s''
            else if Ascii.eqb e "u" then
              match s'' with
              | String h1 (String h2 (String h3 (String h4 r))) =>
                  match unicode_escape h1 h2 h3 h4 with
                  | Some x => continue x r
                  | None => None
                  end
              | _ => None
              end
            else None
        | EmptyString => None
        end
      else if (N_of_ascii c <? 32)%N then None
      else
        match parse_chars s' with
        | Some (t, rest) => Some (N_of_ascii c :: t, rest)
        | None => None
        end
  end.

Definition digit_of_char (c : ascii) : option (uint -> uint) :=
  match c with
  | "0" => Some D0 | "1" => Some D1 | "2" => Some D2 | "3" => Some D3
  | "4" => Some D4 | "5" => Some D5 | "6" => Some D6 | "7" => Some D7
  | "8" => Some D8 | "9" => Some D9
  | _ => None
  end%char.

(** The longest run of decimal digits at the head of [s]. *)
Fixpoint parse_digits (s : string) : uint * string :=
  match s with
  | String c s' =>
      match digit_of_char c with
      | Some D => let '(d, rest) := parse_digits s' in (D d, rest)
      | None => (Nil, s)
      end
  | EmptyString => (Nil, s)
  end.

(** A run of one digit at least, as a fraction and an exponent need. *)
Definition parse_digits1 (s : string) : option (uint * string) :=
  match parse_digits s with
  | (Nil, _) => None
  | (d, rest) => Some (d, rest)
  end.

(** The integer part of a number literal, after the optional sign: a
    single zero, or digits that do not start with a zero. *)
Definition parse_int_part (s : string) : option (uint * string) :=
  match s with
  | String "0" s' => Some (D0 Nil, s')
  | String c _ => if is_digit c then Some (parse_digits s) else None
  | EmptyString => None
  end.

(** The digits of the fraction, none when there is no fraction. *)
Definition parse_fraction (s : string) : option (uint * string) :=
  match s with
  | String "." s' => parse_digits1 s'
  | _ => Some (Nil, s)
  end.

Definition parse_exponent_digits (negative : bool) (s : string) : option (Z * string) :=
  match parse_digits1 s with
  | Some (d, rest) => Some (if negative then (- Z.of_uint d)%Z else Z.of_uint d, rest)
  | None => None
  end.

(** The exponent, 0 when there is none. *)
Definition parse_exponent (s : string) : option (Z * string) :=
  match s with
  | String c s' =>
      if Ascii.eqb c "e" || Ascii.eqb c "E" then
        match s' with
        | String "+" s'' => parse_exponent_digits false s''
        | String "-" s'' => parse_exponent_digits true s''
        | _ => parse_exponent_digits false s'
        end
      else Some (0%Z, s)
  | EmptyString => Some (0%Z, s)
  end.

(** A number literal with its sign [negative] read: integer part, fraction
    and exponent. *)
Definition parse_unsigned (negative : bool) (s : string) : option (parsed * string) :=
  match parse_int_part s with
  | Some (int, s1) =>
      match parse_fraction s1 with
      | Some (frac, s2) =>
          match parse_exponent s2 with
          | Some (exp, rest) =>
              let digits := Z.of_uint (Decimal.app int frac) in
              Some (JNum (decimal_of (if negative then (- digits)%Z else digits)
                                     (exp - Z.of_nat (nb_digits frac))),
                    rest)
          | None => None
          end
      | None => None
      end
  | None => None
  end.

Definition parse_number (s : string) : option (parsed * string) :=
  match s with
  | String "-" s' => parse_unsigned true s'
  | _ => parse_unsigned false s
  end.

Fixpoint parse_value (fuel : nat) (s : string) : option (parsed * string) :=
  match fuel with
  | O => None
  | S fuel' =>
      match skip_ws s with
      | String "n" (String "u" (String "l" (String "l" rest))) => Some (JNull, rest)
      | String "t" (String "r" (String "u" (String "e" rest))) => Some (JBool true, rest)
      | String "f" (String "a" (String "l" (String "s" (String "e" rest)))) =>
          Some (JBool false, rest)
      | String "[" rest =>
          match skip_ws rest with
          | String "]" rest' => Some (JArr [], rest')
          | _ =>
              match parse_elems fuel' rest with
              | Some (l, rest') => Some (JArr l, rest')
              | None => None
              end
          end
      | String "{" rest =>
          match skip_ws rest with
          | String "}" rest' => Some (JObj [], rest')
          | _ =>
              match parse_members fuel' rest with
              | Some (l, rest') => Some (JObj l, rest')
              | None => None
              end
          end
      | String c rest =>
          if Ascii.eqb c dquote then
            match parse_chars rest with
            | Some (t, rest') => Some (JStr t, rest')
            | None => None
            end
          else parse_number (String c rest)
      | EmptyString => None
      end
  end
with parse_elems (fuel : nat) (s : string) : option (list parsed * string) :=
  match fuel with
  | O => None
  | S fuel' =>
      match parse_value fuel' s with
      | Some (v, rest) =>
          match skip_ws rest with
          | String "," rest' =>
              match parse_elems fuel' rest' with
              | Some (l, rest'') => Some (v :: l, rest'')
              | None => None
              end
          | String "]" rest' => Some ([v], rest')
          | _ => None
          end
      | None => None
      end
  end
with parse_members (fuel : nat) (s : string) : option (list (list N * parsed) * string) :=
  match fuel with
  | O => None
  | S fuel' =>
      match skip_ws s with
      | String q rest =>
          if Ascii.eqb q dquote then
            match parse_chars rest with
            | Some (k, rest1) =>
                match skip_ws rest1 with
                | String ":" rest2 =>
                    match parse_value fuel' rest2 with
                    | Some (v, rest3) =>
                        match skip_ws rest3 with
                        | String "," rest4 =>
                            match parse_members fuel' rest4 with
                            | Some (l, rest5) => Some ((k, v) :: l, rest5)
                            | None => None
                            end
                        | String "}" rest4 => Some ([(k, v)], rest4)
                        | _ => None
                        end
                    | None => None
                    end
                | _ => None
                end
            | None => None
            end
          else None
      | EmptyString => None
      end
  end.

(** [JSON.parse]: [None] stands for the [SyntaxError] it throws.  The fuel
    is the length of the text, which bounds the depth of the values in it;
    no fuel reads a value this one does not read ([JSON_parse_fuel]). *)
Definition JSON_parse (s : string) : option parsed :=
  match parse_value (S (String.length s)) s with
  | Some (v, rest) =>
      match skip_ws rest with
      | EmptyString => Some v
      | _ => None
      end
  | None => None
  end.

(** *** Vocabulary of the round-trip proofs *)

(** The text that may follow a value inside a printed value: a comma, a
    closing bracket or the end. *)
Definition follows_value (rest : string) : bool :=
  match rest with
  | EmptyString => true
  | String c _ => Ascii.eqb c "," || Ascii.eqb c "]" || Ascii.eqb c "}"
  end.

(** A character a printed value starts with. *)
Definition is_value_head (c : ascii) : bool :=
  is_digit c || Ascii.eqb c "-" || Ascii.eqb c "n" || Ascii.eqb c "t" || Ascii.eqb c "f"
  || Ascii.eqb c dquote || Ascii.eqb c "[" || Ascii.eqb c "{".

Definition size_items (items : list value) : nat :=
  foldr (fun x acc => S (size x + acc)) 0%nat items.

Definition size_props (props : list (string * value)) : nat :=
  foldr (fun kv acc => S (size (snd kv) + acc)) 0%nat props.

(** The text of one property of an object. *)
Definition print_member (kv : string * value) : string :=
  quote (fst kv) +:+ String ":" (stringify (snd kv)).

(** What [JSON.parse] reads for a property. *)
Definition of_member (kv : string * value) : list N * parsed :=
  (units (fst kv), of_value (snd kv)).

(** [v] is read back from its text, whatever follows it inside a printed
    value, given fuel for its size. *)
Definition reads_back (v : value) : Prop :=
  forall fuel rest,
    (size v <= fuel)%nat -> follows_value rest = true ->
    parse_value fuel (stringify v +:+ rest) = Some (of_value v, rest).

(** A result of the parser is one it gives with any fuel from some bound
    on, and the bound is within the characters it has read. *)
Definition stable {A : Type} (parse : nat -> string -> option (A * string))
    (s : string) (x : A) (rest : string) : Prop :=
  exists bound,
    (bound + String.length rest <= String.length s)%nat /\
    forall fuel, (bound <= fuel)%nat -> parse fuel s = Some (x, rest).

(** ** Errors ([src/utils/errors.ts])

    What a [throw] carries: the class of the error object, its message, the
    [code] the [TradingViewError] constructor stores and the extra field of
    the subclass ([endpoint], [symbol], [field], ...). *)

Inductive ErrorClass : Type :=
  | Error_ (* the host's plain Error *)
  | SyntaxError
  | TypeError
  | ErrorEvent (* the DOM event a WebSocket hands to its error listeners *)
  | TradingViewError
  | ConnectionError
  | AuthenticationError
  | DataError
  | ValidationError
  | ProtocolError
  | TimeoutError.

Record JsError : Type := mkError {
  cls : ErrorClass;
  message : string;
  code : option string;
  tag : option string
}.

#[export] Instance ErrorClass_eq_dec : EqDecision ErrorClass.
Proof. solve_decision. Defined.

Definition new_Error (msg : string) : JsError := mkError Error_ msg None None.
Definition new_TypeError (msg : string) : JsError := mkError TypeError msg None None.
Definition new_SyntaxError (msg : string) : JsError := mkError SyntaxError msg None None.

Definition new_TradingViewError (msg : string) (code : option string) : JsError :=
  mkError TradingViewError msg code None.
Definition new_ConnectionError (msg : string) (endpoint : option string) : JsError :=
  mkError ConnectionError msg (Some "CONNECTION_ERROR") endpoint.
Definition new_DataError (msg : string) (symbol : option string) : JsError :=
  mkError DataError msg (Some "DATA_ERROR") symbol.
Definition new_ProtocolError (msg : string) : JsError :=
  mkError ProtocolError msg (Some "PROTOCOL_ERROR") None.

(** [e instanceof C] for a leaf class [C] of the taxonomy. *)
Definition instanceof (e : JsError) (c : ErrorClass) : bool :=
  bool_decide (cls e = c).

Module ErrorFactory.

Definition connectionFailed (endpoint : string) (cause : option JsError) : JsError :=
  new_ConnectionError
    ("Failed to connect to endpoint: " +:+ endpoint +:+
     match cause with Some c => " (" +:+ message c +:+ ")" | None => "" end)
    (Some endpoint).

Definition symbolNotFound (symbol : string) : JsError :=
  new_DataError ("Symbol not found: " +:+ symbol) (Some symbol).

Definition dataParsingError (symbol : string) (cause : option JsError) : JsError :=
  new_DataError
    ("Failed to parse data for symbol: " +:+ symbol +:+
     match cause with Some c => " (" +:+ message c +:+ ")" | None => "" end)
    (Some symbol).

Definition protocolError (msg : string) : JsError := new_ProtocolError msg.

Definition generic (msg : string) (code : option string) : JsError :=
  new_TradingViewError msg code.

End ErrorFactory.

(** A computation that returns or throws. *)
Inductive result (A : Type) : Type :=
  | Return (a : A)
  | Throw (e : JsError).
Arguments Return {A} a.
Arguments Throw {A} e.

Definition bind {A B : Type} (r : result A) (k : A -> result B) : result B :=
  match r with
  | Return a => k a
  | Throw e => Throw e
  end.

Notation "'let*' x := r 'in' k" := (bind r (fun x => k))
  (at level 10, x name, r at level 100, k at level 200).

(** [l.map(f)] for an [f] that may throw: the first failure aborts the map. *)
Fixpoint map_throwing {A B : Type} (f : A -> result B) (l : list A) : result (list B) :=
  match l with
  | [] => Return []
  | x :: l' => let* y := f x in let* ys := map_throwing f l' in Return (y :: ys)
  end.

(** ** Frame codec ([src/connection/protocol.ts]) *)

(** ["ping" | "session" | "event"] *)
Inductive MessageType : Type := type_ping | type_session | type_event.

Record MessagePayload : Type := mkPayload {
  type : MessageType;
  data : parsed
}.

(** A match of [/~m~\d+~m~/] at the head of [s]: what follows the match.
    The digit run is greedy, and a shorter run cannot be followed by [~]. *)
Definition match_delimiter (s : string) : option string :=
  match s with
  | String "~" (String "m" (String "~" r)) =>
      match parse_digits r with
      | (Nil, _) => None
      | (_, String "~" (String "m" (String "~" rest))) => Some rest
      | (_, _) => None
      end
  | _ => None
  end.

(** [s.split(/~m~\d+~m~/)], scanning left to right; [fuel] bounds the
    number of characters still to scan. *)
Fixpoint split_from (fuel : nat) (s : string) : list string :=
  match fuel with
  | O => [s]
  | S fuel' =>
      match match_delimiter s with
      | Some rest => EmptyString :: split_from fuel' rest
      | None =>
          match s with
          | EmptyString => [EmptyString]
          | String c s' =>
              match split_from fuel' s' with
              | seg :: segs => String c seg :: segs
              | [] => [s]
              end
          end
      end
  end.

Definition split_delimiter (s : string) : list string :=
  split_from (String.length s) s.

(** Some position of [s] starts a match of the delimiter. *)
Fixpoint contains_delimiter (s : string) : bool :=
  match match_delimiter s with
  | Some _ => true
  | None =>
      match s with
      | String _ s' => contains_delimiter s'
      | EmptyString => false
      end
  end.

(** The messages of the [TypeError] of a property read on [null] or
    [undefined] are the host's; V8's are used.  One message stands for those
    of the [SyntaxError] of [JSON.parse], which quote the offending text. *)
Definition json_syntax_error : JsError :=
  new_SyntaxError "Unexpected token in JSON".
Definition null_read_error (prop : string) : JsError :=
  new_TypeError ("Cannot read properties of null (reading '" +:+ prop +:+ "')").
Definition undefined_read_error (prop : string) : JsError :=
  new_TypeError ("Cannot read properties of undefined (reading '" +:+ prop +:+ "')").

(** The callback of [events.map] in [parseMessage]. *)
Definition parse_event (event : string) : result MessagePayload :=
  if String.eqb (substring0 3 event) "~h~" then
    Return (mkPayload type_ping
      (JStr (units ("~m~" +:+ string_of_nat (String.length event) +:+ "~m~" +:+ event))))
  else
    match JSON_parse event with
    | None => Throw json_syntax_error
    | Some JNull => Throw (null_read_error "session_id")
    | Some parsed =>
        if truthy (get_prop parsed "session_id")
        then Return (mkPayload type_session parsed)
        else Return (mkPayload type_event parsed)
    end.

Definition parseMessage (message : string) : result (list MessagePayload) :=
  if (String.length message =? 0)%nat then Return []
  else
    let events := drop 1 (split_delimiter message) in
    map_throwing parse_event events.

Definition createMessage (name : string) (params : list value) : string :=
  let data := JSON_stringify (JObj [("m", JStr name); ("p", JArr params)]) in
  "~m~" +:+ string_of_nat (String.length data) +:+ "~m~" +:+ data.

Definition isPingMessage (payload : MessagePayload) : bool :=
  match type payload with type_ping => true | _ => false end.
Definition isSessionMessage (payload : MessagePayload) : bool :=
  match type payload with type_session => true | _ => false end.
Definition isEventMessage (payload : MessagePayload) : bool :=
  match type payload with type_event => true | _ => false end.

(** The event handed to the subscribers; a missing field is [undefined]. *)
Record TradingEvent : Type := mkTradingEvent {
  event_m : option parsed;
  event_p : option parsed
}.

Definition createTradingEvent (payload : MessagePayload) : result TradingEvent :=
  if negb (isEventMessage payload)
  then Throw (new_Error "Cannot create trading event from non-event payload")
  else
    match data payload with
    | JNull => Throw (null_read_error "m")
    | datum => Return (mkTradingEvent (get_prop datum "m") (get_prop datum "p"))
    end.

(** ** Validation ([src/utils/validation.ts]) *)

(** A JavaScript number: a finite value (a rational stands for the double),
    NaN or an infinity. *)
Inductive JsNumber : Type :=
  | Finite (q : Q)
  | NaN
  | Infinity (negative : bool).

(** A JavaScript value as an argument whose type the callee tests. *)
Inductive any : Type :=
  | undefined
  | null
  | a_boolean (b : bool)
  | a_number (x : JsNumber)
  | a_string (s : string)
  | a_object.

Definition typeof (a : any) : string :=
  match a with
  | undefined => "undefined"
  | null => "object"
  | a_boolean _ => "boolean"
  | a_number _ => "number"
  | a_string _ => "string"
  | a_object => "object"
  end.

Definition Number_isInteger (x : JsNumber) : bool :=
  match x with
  | Finite q => (Zpos (Qden (Qred q)) =? 1)%Z
  | _ => false
  end.

(** [x <= k] and [x > k] for an integer literal [k]; comparisons with NaN
    are false. *)
Definition num_le (x : JsNumber) (k : Z) : bool :=
  match x with
  | Finite q => Qle_bool q (inject_Z k)
  | NaN => false
  | Infinity negative => negative
  end.

Definition num_gt (x : JsNumber) (k : Z) : bool :=
  match x with
  | Finite q => negb (Qle_bool q (inject_Z k))
  | NaN => false
  | Infinity negative => negb negative
  end.

Definition validateAmount (amount : any) : result unit :=
  match amount with
  | undefined => Return tt
  | a_number x =>
      if negb (Number_isInteger x) then Throw (new_Error "Amount must be an integer")
      else if num_le x 0 then Throw (new_Error "Amount must be greater than 0")
      else if num_gt x 10000 then
        Throw (new_Error "Amount cannot exceed 10000 candles per request")
      else Return tt
  | _ => Throw (new_Error "Amount must be a number")
  end.

Definition is_symbol_char (c : ascii) : bool :=
  let n := N_of_ascii c in
  ((65 <=? n) && (n <=? 90) || (97 <=? n) && (n <=? 122) || (48 <=? n) && (n <=? 57)
   || (n =? 58) || (n =? 95) || (n =? 46) || (n =? 45))%N.

Fixpoint all_symbol_chars (s : string) : bool :=
  match s with
  | EmptyString => true
  | String c s' => is_symbol_char c && all_symbol_chars s'
  end.

(** White space as [String.prototype.trim] sees it, among the code units
    below 256. *)
Definition is_trim_ws (c : ascii) : bool :=
  let n := N_of_ascii c in
  ((9 <=? n) && (n <=? 13) || (n =? 32) || (n =? 160))%N.

Fixpoint last_char (s : string) : option ascii :=
  match s with
  | EmptyString => None
  | String c EmptyString => Some c
  | String _ s' => last_char s'
  end.

(** [symbol.trim() !== symbol] *)
Definition trim_changes (s : string) : bool :=
  match s with
  | EmptyString => false
  | String c _ =>
      is_trim_ws c || match last_char s with Some d => is_trim_ws d | None => false end
  end.

Definition validateSymbol (symbol : string) : result unit :=
  if String.eqb symbol "" then Throw (new_Error "Symbol must be a non-empty string")
  else if trim_changes symbol
  then Throw (new_Error "Symbol cannot have leading or trailing whitespace")
  else if negb (all_symbol_chars symbol)
  then Throw (new_Error ("Invalid symbol format: " +:+ symbol))
  else Return tt.

Fixpoint validate_each (index : nat) (symbols : list string) : result unit :=
  match symbols with
  | [] => Return tt
  | symbol :: rest =>
      match validateSymbol symbol with
      | Return _ => validate_each (S index) rest
      | Throw e =>
          Throw (new_Error ("Invalid symbol at index " +:+ string_of_nat index +:+ ": "
                            +:+ message e))
      end
  end.

Definition validateSymbols (symbols : list string) : result unit :=
  if (length symbols =? 0)%nat then Throw (new_Error "At least one symbol must be provided")
  else if (100 <? length symbols)%nat
  then Throw (new_Error "Cannot request more than 100 symbols in a single request")
  else validate_each 0 symbols.

(** ** Candle data ([src/types/index.ts], [src/data/candles.ts]) *)

(** Prices and volumes are carried, never computed on. *)
Definition number : Type := Q.

Record RawCandle : Type := mkRawCandle {
  i : Z;
  v : list number
}.

(** A field read past the end of [v] is [undefined]. *)
Record Candle : Type := mkCandle {
  timestamp : option number;
  open : option number;
  high : option number;
  low : option number;
  close : option number;
  volume : option number
}.

Record SymbolState : Type := mkSymbolState {
  candles : list RawCandle;
  completed : bool;
  error : bool
}.

(** [l.slice(start, end)]: a negative index counts from the end. *)
Definition slice_index (len : nat) (k : Z) : nat :=
  if (k <? 0)%Z then Z.to_nat (Z.max (Z.of_nat len + k) 0)
  else Nat.min (Z.to_nat k) len.

Definition slice {A : Type} (l : list A) (start stop : Z) : list A :=
  let from := slice_index (length l) start in
  let to := slice_index (length l) stop in
  take (to - from) (drop from l).

(** The value of [event.params[1]] and of its properties, as far as the
    handlers look into them. *)
Inductive SeriesEntry : Type :=
  | entry_null (* null: reading [.s] throws *)
  | entry_object (s : option (list RawCandle)).

Inductive Param : Type :=
  | p_undefined (* undefined, also a missing parameter *)
  | p_null
  | p_string (text : string)
  | p_object (props : list (string * SeriesEntry)).

Record TradingviewEvent : Type := mkEvent {
  name : string;
  params : list Param
}.

Definition param_at (e : TradingviewEvent) (k : nat) : Param :=
  nth k (params e) p_undefined.

(** What was sent over the connection, oldest first. *)
Record Command : Type := mkCommand {
  cmd_name : string;
  cmd_params : list value
}.

Definition send (connection : list Command) (name : string) (params : list value)
  : list Command :=
  connection ++ [mkCommand name params].

Definition MAX_BATCH_SIZE : Z := 5000.

(** [amount] is falsy: undefined or zero. *)
Definition falsy_amount (amount : option Z) : bool :=
  match amount with
  | None => true
  | Some a => (a =? 0)%Z
  end.

Definition keys_error : JsError :=
  new_TypeError "Cannot convert undefined or null to object".

Fixpoint lookup_prop {A : Type} (key : string) (props : list (string * A)) : option A :=
  match props with
  | [] => None
  | (k, x) :: rest => if String.eqb k key then Some x else lookup_prop key rest
  end.

Module CandleDataProcessor.

Definition processCandle (rawCandle : RawCandle) : Candle :=
  {| timestamp := v rawCandle !! 0%nat;
     open := v rawCandle !! 1%nat;
     high := v rawCandle !! 2%nat;
     low := v rawCandle !! 3%nat;
     close := v rawCandle !! 4%nat;
     volume := v rawCandle !! 5%nat |}.

Definition processCandles (rawCandles : list RawCandle) : list Candle :=
  map processCandle rawCandles.

Definition calculateBatchSize (amount : option Z) : Z :=
  match amount with
  | Some a => if negb (a =? 0)%Z && (a <? MAX_BATCH_SIZE)%Z then a else MAX_BATCH_SIZE
  | None => MAX_BATCH_SIZE
  end.

(** [randomId] is [Math.random().toString(36).substring(2, 14)]. *)
Definition generateChartSession (symbol : option string) (randomId : string) : string :=
  match symbol with
  | Some sym =>
      if String.eqb sym "" then "cs_" +:+ randomId
      else "cs_" +:+ sym +:+ "_" +:+ randomId
  | None => "cs_" +:+ randomId
  end.

Definition generateSymbolSession (index : nat) : string :=
  "sds_sym_" +:+ string_of_nat index.

(** The callback of [find] over [Object.keys(sessionData)]. *)
Fixpoint find_series (props : list (string * SeriesEntry)) (keys : list string)
  : result (option string) :=
  match keys with
  | [] => Return None
  | key :: rest =>
      if startsWith key "sds_" then
        match lookup_prop key props with
        | Some (entry_object (Some _)) => Return (Some key)
        | Some (entry_object None) => find_series props rest
        | Some entry_null | None => Throw (null_read_error "s")
        end
      else find_series props rest
  end.

Definition findSeriesKey (sessionData : Param) : result (option string) :=
  match sessionData with
  | p_undefined | p_null => Throw keys_error
  | p_string _ => Return None
  | p_object props => find_series props (map fst props)
  end.

Definition filterNewCandles (newCandles existingCandles : list RawCandle)
    (batchSize : Z) : list RawCandle :=
  if (Z.of_nat (length newCandles) <=? batchSize)%Z then newCandles
  else slice newCandles 0 (- Z.of_nat (length existingCandles)).

Definition shouldRequestMoreData (loadedCount : nat) (requestedAmount : option Z) : bool :=
  (0 <? Z.of_nat loadedCount)%Z
  && (Z.rem (Z.of_nat loadedCount) MAX_BATCH_SIZE =? 0)%Z
  && (falsy_amount requestedAmount
      || match requestedAmount with
         | Some a => (Z.of_nat loadedCount <? a)%Z
         | None => false
         end).

Definition trimToAmount (candles : list Candle) (amount : option Z) : list Candle :=
  match amount with
  | Some a => if (a =? 0)%Z then candles else slice candles 0 a
  | None => candles
  end.

End CandleDataProcessor.

(** The [Map] of the symbol state manager, keyed by symbol. *)
Module SymbolStateManager.

Definition initializeSymbol (symbol : string) (states : gmap string SymbolState)
  : gmap string SymbolState :=
  <[symbol := mkSymbolState [] false false]> states.

Definition getSymbolState (symbol : string) (states : gmap string SymbolState)
  : option SymbolState :=
  states !! symbol.

Definition updateSymbolCandles (symbol : string) (newCandles : list RawCandle)
    (states : gmap string SymbolState) : gmap string SymbolState :=
  match states !! symbol with
  | Some state =>
      if completed state then states
      else <[symbol := mkSymbolState (newCandles ++ candles state)
                                     (completed state) (error state)]> states
  | None => states
  end.

Definition markSymbolCompleted (symbol : string) (hasError : bool)
    (states : gmap string SymbolState) : gmap string SymbolState :=
  match states !! symbol with
  | Some state => <[symbol := mkSymbolState (candles state) true hasError]> states
  | None => states
  end.

Definition getProcessedCandles (symbol : string) (amount : option Z)
    (states : gmap string SymbolState) : list Candle :=
  match states !! symbol with
  | None => []
  | Some state =>
      let finalCandles :=
        if falsy_amount amount then candles state
        else slice (candles state) 0 (default 0%Z amount) in
      CandleDataProcessor.processCandles finalCandles
  end.

Definition is_completed (states : gmap string SymbolState) (symbol : string) : bool :=
  match states !! symbol with
  | Some state => completed state
  | None => false
  end.

Definition allSymbolsCompleted (symbols : list string) (states : gmap string SymbolState)
  : bool :=
  forallb (is_completed states) symbols.

Definition getCompletedCount (symbols : list string) (states : gmap string SymbolState)
  : nat :=
  length (filter (fun symbol => is_completed states symbol = true) symbols).

Definition clearStates (states : gmap string SymbolState) : gmap string SymbolState := ∅.

End SymbolStateManager.

(** The session-to-symbol [Map] of the chart session manager; its methods
    write to the connection. *)
Module ChartSessionManager.

Definition createChartSession (symbol : string) (randomId : string)
    (sessionMap : gmap string string) (connection : list Command)
  : string * gmap string string * list Command :=
  let chartSession := CandleDataProcessor.generateChartSession (Some symbol) randomId in
  (chartSession,
   <[chartSession := symbol]> sessionMap,
   send connection "chart_create_session" [JStr chartSession; JStr ""]).

Definition resolveSymbol (chartSession symbol symbolSession : string)
    (connection : list Command) : list Command :=
  send connection "resolve_symbol"
    [JStr chartSession; JStr symbolSession;
     JStr ("=" +:+ JSON_stringify
                     (JObj [("symbol", JStr symbol); ("adjustment", JStr "splits")]))].

Definition createSeries (chartSession seriesId symbolSession timeframe : string)
    (batchSize : Z) (connection : list Command) : list Command :=
  send connection "create_series"
    [JStr chartSession; JStr "sds_1"; JStr seriesId; JStr symbolSession;
     JStr timeframe; JNum batchSize; JStr ""].

Definition modifySeries (chartSession seriesId symbolSession timeframe : string)
    (connection : list Command) : list Command :=
  send connection "modify_series"
    [JStr chartSession; JStr "sds_1"; JStr seriesId; JStr symbolSession;
     JStr timeframe; JStr ""].

(** [chartSession] is whatever [event.params[0]] was. *)
Definition requestMoreData (chartSession : Param) (batchSize : Z)
    (connection : list Command) : list Command :=
  send connection "request_more_data"
    [match chartSession with p_string text => JStr text | _ => JNull end;
     JStr "sds_1"; JNum batchSize].

(** A key that is not a string is in no entry of the map. *)
Definition getSymbolForSession (chartSession : Param) (sessionMap : gmap string string)
  : option string :=
  match chartSession with
  | p_string text => sessionMap !! text
  | _ => None
  end.

Definition clearSessions (sessionMap : gmap string string) : gmap string string := ∅.

End ChartSessionManager.

(** The two managers and the connection an event handler holds references
    to; the orchestrator that built the handler shares them. *)
Record Managers : Type := mkManagers {
  states : gmap string SymbolState;
  sessionMap : gmap string string;
  connection : list Command
}.

(** [!symbol]: no entry, or the empty string. *)
Definition no_symbol (symbol : option string) : bool :=
  match symbol with
  | None => true
  | Some sym => String.eqb sym ""
  end.

Module CandleEventHandler.

Record t : Type := new {
  batchSize : Z;
  requestedAmount : option Z
}.

Definition handleTimescaleUpdate (this : t) (event : TradingviewEvent) (mgr : Managers)
  : result Managers :=
  let sessionData := param_at event 1 in
  let sessionId := param_at event 0 in
  let symbol := ChartSessionManager.getSymbolForSession sessionId (sessionMap mgr) in
  if no_symbol symbol then Return mgr
  else
    let symbol := default "" symbol in
    match SymbolStateManager.getSymbolState symbol (states mgr) with
    | None => Return mgr
    | Some state =>
        if completed state then Return mgr
        else
          let* seriesKey := CandleDataProcessor.findSeriesKey sessionData in
          match seriesKey, sessionData with
          | Some key, p_object props =>
              match lookup_prop key props with
              | Some (entry_object (Some newCandles)) =>
                  let newCandles :=
                    CandleDataProcessor.filterNewCandles
                      newCandles (candles state) (batchSize this) in
                  Return (mkManagers
                    (SymbolStateManager.updateSymbolCandles symbol newCandles (states mgr))
                    (sessionMap mgr) (connection mgr))
              | _ => Return mgr
              end
          | _, _ => Return mgr
          end
    end.

(** [onSymbolCompleted] acts on the variables [S] of the caller that it
    closes over; the boolean result is the method's. *)
Definition handleSeriesEvent {S : Type} (this : t) (event : TradingviewEvent)
    (onSymbolCompleted : option (string -> list Candle -> S -> S))
    (mgr : Managers) (caller : S) : Managers * S * bool :=
  let sessionId := param_at event 0 in
  let symbol := ChartSessionManager.getSymbolForSession sessionId (sessionMap mgr) in
  if no_symbol symbol then (mgr, caller, false)
  else
    let symbol := default "" symbol in
    match SymbolStateManager.getSymbolState symbol (states mgr) with
    | None => (mgr, caller, false)
    | Some state =>
        if completed state then (mgr, caller, false)
        else
          let loadedCount := length (candles state) in
          if CandleDataProcessor.shouldRequestMoreData loadedCount (requestedAmount this)
          then
            (mkManagers (states mgr) (sessionMap mgr)
               (ChartSessionManager.requestMoreData sessionId (batchSize this)
                  (connection mgr)),
             caller, false)
          else
            let hasError := String.eqb (name event) "symbol_error" in
            let states' :=
              SymbolStateManager.markSymbolCompleted symbol hasError (states mgr) in
            let caller' :=
              match onSymbolCompleted with
              | Some callback =>
                  callback symbol
                    (SymbolStateManager.getProcessedCandles
                       symbol (requestedAmount this) states')
                    caller
              | None => caller
              end in
            (mkManagers states' (sessionMap mgr) (connection mgr), caller', true)
    end.

End CandleEventHandler.

(** ** Orchestrators ([src/index.ts]) *)

Inductive Promise (A : Type) : Type :=
  | pending
  | resolved (a : A)
  | rejected (e : JsError).
Arguments pending {A}.
Arguments resolved {A} a.
Arguments rejected {A} e.

(** [resolve] and [reject] act on a pending promise only. *)
Definition resolve {A : Type} (a : A) (promise : Promise A) : Promise A :=
  match promise with
  | pending => resolved a
  | settled => settled
  end.

Definition reject {A : Type} (e : JsError) (promise : Promise A) : Promise A :=
  match promise with
  | pending => rejected e
  | settled => settled
  end.

(** The request, with the time frame as [validateTimeframe] returned it. *)
Record GetCandlesParams : Type := mkParams {
  symbols : list string;
  amount : option Z;
  timeframe : string
}.

Definition amount_arg (amount : option Z) : any :=
  match amount with
  | Some a => a_number (Finite (inject_Z a))
  | None => undefined
  end.

Definition validateParams (params : GetCandlesParams) : result unit :=
  let* _ := validateSymbols (symbols params) in
  validateAmount (amount_arg (amount params)).

(** [symbols.indexOf(symbol)]; [None] is [-1]. *)
Fixpoint indexOf (l : list string) (x : string) : option nat :=
  match l with
  | [] => None
  | y :: l' => if String.eqb y x then Some 0%nat else S <$> indexOf l' x
  end.

(** [arr[k] = x] on an array with holes: a write past the end extends it. *)
Definition array_set {A : Type} (arr : list (option A)) (k : nat) (x : A)
  : list (option A) :=
  if (k <? length arr)%nat then <[k := Some x]> arr
  else arr ++ replicate (k - length arr) None ++ [Some x].

Definition is_series_event (event : TradingviewEvent) : bool :=
  String.eqb (name event) "series_completed" || String.eqb (name event) "symbol_error".

Module Concurrent.

(** The variables the subscriber of [getCandlesConcurrent] closes over. *)
Record t : Type := mk {
  mgr : Managers;
  results : list (option (list Candle));
  completedCount : nat;
  promise : Promise (list (option (list Candle)));
  subscribed : bool
}.

Definition onSymbolCompleted (symbols : list string) (symbolName : string)
    (candles : list Candle) (rc : list (option (list Candle)) * nat)
  : list (option (list Candle)) * nat :=
  let originalIndex := indexOf symbols symbolName in
  (match originalIndex with
   | Some k => array_set (fst rc) k candles
   | None => fst rc
   end,
   S (snd rc)).

Definition subscriber (params : GetCandlesParams) (eventHandler : CandleEventHandler.t)
    (event : TradingviewEvent) (st : t) : t :=
  if String.eqb (name event) "timescale_update" then
    match CandleEventHandler.handleTimescaleUpdate eventHandler event (mgr st) with
    | Return mgr' => mk mgr' (results st) (completedCount st) (promise st) (subscribed st)
    | Throw error =>
        mk (mgr st) (results st) (completedCount st)
           (reject (ErrorFactory.dataParsingError "unknown" (Some error)) (promise st))
           (subscribed st)
    end
  else if is_series_event event then
    let sessionId := param_at event 0 in
    let symbol := ChartSessionManager.getSymbolForSession sessionId (sessionMap (mgr st)) in
    if no_symbol symbol then st
    else
      let '(mgr', (results', completedCount'), completed) :=
        CandleEventHandler.handleSeriesEvent eventHandler event
          (Some (onSymbolCompleted (symbols params)))
          (mgr st) (results st, completedCount st) in
      if completed && (completedCount' =? length (symbols params))%nat
      then mk mgr' results' completedCount' (resolve results' (promise st)) false
      else mk mgr' results' completedCount' (promise st) (subscribed st)
  else st.

(** The requests of the [forEach] that ends the executor; [random k] is
    the [k]-th identifier drawn from [Math.random]. *)
Fixpoint send_requests (params : GetCandlesParams) (batchSize : Z)
    (random : nat -> string) (index : nat) (rest : list string) (mgr : Managers)
  : Managers :=
  match rest with
  | [] => mgr
  | symbol :: rest' =>
      let chartSession :=
        CandleDataProcessor.generateChartSession (Some symbol) (random (2 * index)%nat) in
      let symbolSession := CandleDataProcessor.generateSymbolSession index in
      let '(_, sessionMap', connection1) :=
        ChartSessionManager.createChartSession symbol (random (2 * index + 1)%nat)
          (sessionMap mgr) (connection mgr) in
      let connection2 :=
        ChartSessionManager.resolveSymbol chartSession symbol symbolSession connection1 in
      let connection3 :=
        ChartSessionManager.createSeries chartSession ("s" +:+ string_of_nat index)
          symbolSession (timeframe params) batchSize connection2 in
      send_requests params batchSize random (S index) rest'
        (mkManagers (states mgr) sessionMap' connection3)
  end.

Definition eventHandler (params : GetCandlesParams) : CandleEventHandler.t :=
  CandleEventHandler.new
    (CandleDataProcessor.calculateBatchSize (amount params)) (amount params).

(** The state in which [getCandlesConcurrent] returns its promise. *)
Definition getCandlesConcurrent (params : GetCandlesParams) (random : nat -> string)
    (connection : list Command) : t :=
  match validateParams params with
  | Throw e => mk (mkManagers ∅ ∅ connection) [] 0 (rejected e) false
  | Return _ =>
      if (length (symbols params) =? 0)%nat
      then mk (mkManagers ∅ ∅ connection) [] 0 (resolved []) false
      else
        let batchSize := CandleDataProcessor.calculateBatchSize (amount params) in
        let states :=
          foldl (fun states symbol => SymbolStateManager.initializeSymbol symbol states)
                ∅ (symbols params) in
        mk (send_requests params batchSize random 0 (symbols params)
              (mkManagers states ∅ connection))
           [] 0 pending true
  end.

(** An event reaches the subscriber only while it is subscribed. *)
Definition dispatch (params : GetCandlesParams) (event : TradingviewEvent) (st : t) : t :=
  if subscribed st then subscriber params (eventHandler params) event st else st.

Definition run (params : GetCandlesParams) (events : list TradingviewEvent) (st : t) : t :=
  foldl (fun st event => dispatch params event st) st events.

End Concurrent.

(** ** The single-file copy of the concurrent orchestrator

    The repository also holds an earlier [getCandlesConcurrent] that inlines
    the handlers; it keeps the same variables, tests the multiple of the
    batch size itself and rejects with the error it caught. *)
Module Legacy.

(** The helper [handleTimescaleUpdate]: it is handed the state it updates
    and, optionally, the session map. *)
Definition handleTimescaleUpdate (event : TradingviewEvent) (state : SymbolState)
    (batchSize : Z) (sessionMap : option (gmap string string)) : result SymbolState :=
  let sessionData := param_at event 1 in
  let sessionId := param_at event 0 in
  let symbol :=
    match sessionMap with
    | Some map => ChartSessionManager.getSymbolForSession sessionId map
    | None => None
    end in
  if no_symbol symbol || completed state then Return state
  else
    let* seriesKey := CandleDataProcessor.findSeriesKey sessionData in
    match seriesKey, sessionData with
    | Some key, p_object props =>
        match lookup_prop key props with
        | Some (entry_object (Some newCandles)) =>
            let newCandles :=
              if (batchSize <? Z.of_nat (length newCandles))%Z
              then slice newCandles 0 (- Z.of_nat (length (candles state)))
              else newCandles in
            Return (mkSymbolState (newCandles ++ candles state)
                                  (completed state) (error state))
        | _ => Return state
        end
    | _, _ => Return state
    end.

(** The subscriber of the single-file [getCandlesConcurrent], which inlines
    the same steps. *)
Definition subscriber (params : GetCandlesParams) (batchSize : Z)
    (event : TradingviewEvent) (st : Concurrent.t) : Concurrent.t :=
  let mgr := Concurrent.mgr st in
  if String.eqb (name event) "timescale_update" then
    let sessionData := param_at event 1 in
    let sessionId := param_at event 0 in
    let symbol := ChartSessionManager.getSymbolForSession sessionId (sessionMap mgr) in
    if no_symbol symbol then st
    else
      let symbol := default "" symbol in
      match states mgr !! symbol with
      | None => st
      | Some state =>
          if completed state then st
          else
            match CandleDataProcessor.findSeriesKey sessionData, sessionData with
            | Throw error, _ =>
                Concurrent.mk mgr (Concurrent.results st) (Concurrent.completedCount st)
                  (reject error (Concurrent.promise st)) (Concurrent.subscribed st)
            | Return (Some seriesKey), p_object props =>
                match lookup_prop seriesKey props with
                | Some (entry_object (Some newCandles)) =>
                    let newCandles :=
                      if (batchSize <? Z.of_nat (length newCandles))%Z
                      then slice newCandles 0 (- Z.of_nat (length (candles state)))
                      else newCandles in
                    Concurrent.mk
                      (mkManagers
                         (<[symbol := mkSymbolState (newCandles ++ candles state)
                                                    (completed state) (error state)]>
                            (states mgr))
                         (sessionMap mgr) (connection mgr))
                      (Concurrent.results st) (Concurrent.completedCount st)
                      (Concurrent.promise st) (Concurrent.subscribed st)
                | _ => st
                end
            | _, _ => st
            end
      end
  else if is_series_event event then
    let sessionId := param_at event 0 in
    let symbol := ChartSessionManager.getSymbolForSession sessionId (sessionMap mgr) in
    if no_symbol symbol then st
    else
      let symbol := default "" symbol in
      match states mgr !! symbol with
      | None => st
      | Some state =>
          if completed state then st
          else
            let loadedCount := Z.of_nat (length (candles state)) in
            if (0 <? loadedCount)%Z && (Z.rem loadedCount batchSize =? 0)%Z
               && (falsy_amount (amount params)
                   || (loadedCount <? default 0%Z (amount params))%Z)
            then
              Concurrent.mk
                (mkManagers (states mgr) (sessionMap mgr)
                   (send (connection mgr) "request_more_data"
                      [match sessionId with p_string text => JStr text | _ => JNull end;
                       JStr "sds_1"; JNum batchSize]))
                (Concurrent.results st) (Concurrent.completedCount st)
                (Concurrent.promise st) (Concurrent.subscribed st)
            else
              let state' :=
                mkSymbolState (candles state) true
                  (String.eqb (name event) "symbol_error" || error state) in
              let finalCandles :=
                if falsy_amount (amount params) then candles state
                else slice (candles state) 0 (default 0%Z (amount params)) in
              let processedCandles := CandleDataProcessor.processCandles finalCandles in
              let results' :=
                match indexOf (symbols params) symbol with
                | Some k => array_set (Concurrent.results st) k processedCandles
                | None => Concurrent.results st
                end in
              let completedCount' := S (Concurrent.completedCount st) in
              let mgr' :=
                mkManagers (<[symbol := state']> (states mgr)) (sessionMap mgr)
                           (connection mgr) in
              if (completedCount' =? length (symbols params))%nat
              then Concurrent.mk mgr' results' completedCount'
                     (resolve results' (Concurrent.promise st)) false
              else Concurrent.mk mgr' results' completedCount'
                     (Concurrent.promise st) (Concurrent.subscribed st)
      end
  else st.

Definition batchSize (params : GetCandlesParams) : Z :=
  match amount params with
  | Some a => if negb (a =? 0)%Z && (a <? MAX_BATCH_SIZE)%Z then a else MAX_BATCH_SIZE
  | None => MAX_BATCH_SIZE
  end.

(** The requests of the loop that ends the executor; [random k] is the
    identifier drawn for the [k]-th symbol. *)
Fixpoint send_requests (params : GetCandlesParams) (batchSize : Z)
    (random : nat -> string) (i : nat) (rest : list string) (mgr : Managers)
  : Managers :=
  match rest with
  | [] => mgr
  | symbol :: rest' =>
      let chartSession := "cs_" +:+ symbol +:+ "_" +:+ random i in
      let symbolSession := "sds_sym_" +:+ string_of_nat i in
      let sessionMap' := <[chartSession := symbol]> (sessionMap mgr) in
      let connection1 :=
        send (connection mgr) "chart_create_session" [JStr chartSession; JStr ""] in
      let connection2 :=
        send connection1 "resolve_symbol"
          [JStr chartSession; JStr symbolSession;
           JStr ("=" +:+ JSON_stringify
                           (JObj [("symbol", JStr symbol);
                                  ("adjustment", JStr "splits")]))] in
      let connection3 :=
        send connection2 "create_series"
          [JStr chartSession; JStr "sds_1"; JStr ("s" +:+ string_of_nat i);
           JStr symbolSession; JStr (timeframe params); JNum batchSize; JStr ""] in
      send_requests params batchSize random (S i) rest'
        (mkManagers (states mgr) sessionMap' connection3)
  end.

(** The state in which the single-file [getCandlesConcurrent] returns its
    promise; it validates nothing but the time frame. *)
Definition getCandlesConcurrent (params : GetCandlesParams) (random : nat -> string)
    (connection : list Command) : Concurrent.t :=
  if (length (symbols params) =? 0)%nat
  then Concurrent.mk (mkManagers ∅ ∅ connection) [] 0 (resolved []) false
  else
    let symbolStates :=
      foldl (fun states symbol => <[symbol := mkSymbolState [] false false]> states)
            ∅ (symbols params) in
    Concurrent.mk
      (send_requests params (batchSize params) random 0 (symbols params)
         (mkManagers symbolStates ∅ connection))
      [] 0 pending true.

Definition dispatch (params : GetCandlesParams) (event : TradingviewEvent)
    (st : Concurrent.t) : Concurrent.t :=
  if Concurrent.subscribed st then subscriber params (batchSize params) event st else st.

Definition run (params : GetCandlesParams) (events : list TradingviewEvent)
    (st : Concurrent.t) : Concurrent.t :=
  foldl (fun st event => dispatch params event st) st events.

End Legacy.


Module Sequential.

(** The variables the subscriber of [getCandles] closes over. *)
Record t : Type := mk {
  allCandles : list (list Candle);
  currentSymIndex : nat;
  currentSymCandles : list RawCandle;
  connection : list Command;
  promise : Promise (list (list Candle));
  subscribed : bool
}.

(** [event.params[1]["sds_1"]["s"]] followed by the read of its
    [length]. *)
Definition read_series (event : TradingviewEvent) : result (list RawCandle) :=
  match param_at event 1 with
  | p_undefined => Throw (undefined_read_error "sds_1")
  | p_null => Throw (null_read_error "sds_1")
  | p_string _ => Throw (undefined_read_error "s")
  | p_object props =>
      match lookup_prop "sds_1" props with
      | None => Throw (undefined_read_error "s")
      | Some entry_null => Throw (null_read_error "s")
      | Some (entry_object None) => Throw (undefined_read_error "length")
      | Some (entry_object (Some newCandles)) => Return newCandles
      end
  end.

Definition subscriber (params : GetCandlesParams) (chartSession : string)
    (batchSize : Z) (event : TradingviewEvent) (st : t) : t :=
  let symbol := default "" (symbols params !! currentSymIndex st) in
  if String.eqb (name event) "timescale_update" then
    match read_series event with
    | Throw error =>
        mk (allCandles st) (currentSymIndex st) (currentSymCandles st) (connection st)
           (reject (ErrorFactory.dataParsingError symbol (Some error)) (promise st))
           (subscribed st)
    | Return newCandles =>
        let newCandles :=
          if (batchSize <? Z.of_nat (length newCandles))%Z
          then CandleDataProcessor.filterNewCandles
                 newCandles (currentSymCandles st) batchSize
          else newCandles in
        mk (allCandles st) (currentSymIndex st) (newCandles ++ currentSymCandles st)
           (connection st) (promise st) (subscribed st)
    end
  else if is_series_event event then
    let loadedCount := length (currentSymCandles st) in
    if CandleDataProcessor.shouldRequestMoreData loadedCount (amount params) then
      mk (allCandles st) (currentSymIndex st) (currentSymCandles st)
         (send (connection st) "request_more_data"
            [JStr chartSession; JStr "sds_1"; JNum batchSize])
         (promise st) (subscribed st)
    else
      let currentSymCandles' :=
        if falsy_amount (amount params) then currentSymCandles st
        else slice (currentSymCandles st) 0 (default 0%Z (amount params)) in
      let processedCandles := CandleDataProcessor.processCandles currentSymCandles' in
      let allCandles' := (allCandles st ++ [processedCandles])%list in
      if (currentSymIndex st <? length (symbols params) - 1)%nat then
        let index := S (currentSymIndex st) in
        let symbol := default "" (symbols params !! index) in
        let connection1 :=
          send (connection st) "resolve_symbol"
            [JStr chartSession; JStr ("sds_sym_" +:+ string_of_nat index);
             JStr ("=" +:+ JSON_stringify
                     (JObj [("symbol", JStr symbol); ("adjustment", JStr "splits")]))] in
        let connection2 :=
          send connection1 "modify_series"
            [JStr chartSession; JStr "sds_1"; JStr ("s" +:+ string_of_nat index);
             JStr ("sds_sym_" +:+ string_of_nat index); JStr (timeframe params);
             JStr ""] in
        mk allCandles' index [] connection2 (promise st) (subscribed st)
      else
        mk allCandles' (currentSymIndex st) currentSymCandles' (connection st)
           (resolve allCandles' (promise st)) false
  else st.

Definition batchSize (params : GetCandlesParams) : Z :=
  CandleDataProcessor.calculateBatchSize (amount params).

Definition chartSession (randomId : string) : string :=
  CandleDataProcessor.generateChartSession None randomId.

(** The state in which [getCandles] returns its promise. *)
Definition getCandles (params : GetCandlesParams) (randomId : string)
    (connection : list Command) : t :=
  match validateParams params with
  | Throw e => mk [] 0 [] connection (rejected e) false
  | Return _ =>
      if (length (symbols params) =? 0)%nat
      then mk [] 0 [] connection (resolved []) false
      else
        let symbol := default "" (symbols params !! 0%nat) in
        let connection1 :=
          send connection "chart_create_session" [JStr (chartSession randomId); JStr ""] in
        let connection2 :=
          send connection1 "resolve_symbol"
            [JStr (chartSession randomId); JStr "sds_sym_0";
             JStr ("=" +:+ JSON_stringify
                     (JObj [("symbol", JStr symbol); ("adjustment", JStr "splits")]))] in
        let connection3 :=
          send connection2 "create_series"
            [JStr (chartSession randomId); JStr "sds_1"; JStr "s0"; JStr "sds_sym_0";
             JStr (timeframe params); JNum (batchSize params); JStr ""] in
        mk [] 0 [] connection3 pending true
  end.

Definition dispatch (params : GetCandlesParams) (randomId : string)
    (event : TradingviewEvent) (st : t) : t :=
  if subscribed st
  then subscriber params (chartSession randomId) (batchSize params) event st
  else st.

Definition run (params : GetCandlesParams) (randomId : string)
    (events : list TradingviewEvent) (st : t) : t :=
  foldl (fun st event => dispatch params randomId event st) st events.

End Sequential.

(** ** Streaming delivery ([src/data/stream.ts]) *)

Record PendingYield : Type := mkPendingYield {
  py_symbol : string;
  py_candles : list Candle
}.

Module CandleStream.

(** Where the generator [stream] stands between two resumptions. *)
Inductive Position : Type :=
  | at_start (* not yet called *)
  | in_loop (* suspended inside the first loop, at its yield or its timer *)
  | in_drain (* suspended at the yield of the second loop *)
  | finished.

Record t : Type := mk {
  mgr : Managers;
  pendingYields : list PendingYield;
  activeCount : Z;
  hasError : bool;
  errorMessage : option string;
  subscribed : bool;
  position : Position
}.

Definition eventHandler (params : GetCandlesParams) : CandleEventHandler.t :=
  CandleEventHandler.new
    (CandleDataProcessor.calculateBatchSize (amount params)) (amount params).

(** [cleanup]: unsubscribe, clear the states and the sessions. *)
Definition cleanup (st : t) : t :=
  mk (mkManagers (SymbolStateManager.clearStates (states (mgr st)))
                 (ChartSessionManager.clearSessions (sessionMap (mgr st)))
                 (connection (mgr st)))
     (pendingYields st) (activeCount st) (hasError st) (errorMessage st)
     false (position st).

Definition onSymbolCompleted (hasError : bool) (symbol : string) (candles : list Candle)
    (pendingYields : list PendingYield) : list PendingYield :=
  if (0 <? length candles)%nat || negb hasError
  then pendingYields ++ [mkPendingYield symbol candles]
  else pendingYields.

(** The subscriber installed by [setupEventHandlers]. *)
Definition subscriber (params : GetCandlesParams) (event : TradingviewEvent) (st : t) : t :=
  if String.eqb (name event) "timescale_update" then
    match CandleEventHandler.handleTimescaleUpdate (eventHandler params) event (mgr st) with
    | Return mgr' =>
        mk mgr' (pendingYields st) (activeCount st) (hasError st) (errorMessage st)
           (subscribed st) (position st)
    | Throw error =>
        cleanup (mk (mgr st) (pendingYields st) (activeCount st) true
                    (Some (message error)) (subscribed st) (position st))
    end
  else if is_series_event event then
    let '(mgr', pendingYields', completed) :=
      CandleEventHandler.handleSeriesEvent (eventHandler params) event
        (Some (onSymbolCompleted (hasError st))) (mgr st) (pendingYields st) in
    let st' :=
      mk mgr' pendingYields' (activeCount st) (hasError st) (errorMessage st)
         (subscribed st) (position st) in
    if completed then
      let st'' :=
        mk mgr' pendingYields' (activeCount st - 1) (hasError st) (errorMessage st)
           (subscribed st) (position st) in
      if (activeCount st'' =? 0)%Z then cleanup st'' else st''
    else st'
  else st.

Fixpoint send_requests (params : GetCandlesParams) (batchSize : Z)
    (random : nat -> string) (index : nat) (rest : list string) (mgr : Managers)
  : Managers :=
  match rest with
  | [] => mgr
  | symbol :: rest' =>
      let chartSession :=
        CandleDataProcessor.generateChartSession (Some symbol) (random (2 * index)%nat) in
      let symbolSession := CandleDataProcessor.generateSymbolSession index in
      let '(_, sessionMap', connection1) :=
        ChartSessionManager.createChartSession symbol (random (2 * index + 1)%nat)
          (sessionMap mgr) (connection mgr) in
      let connection2 :=
        ChartSessionManager.resolveSymbol chartSession symbol symbolSession connection1 in
      let connection3 :=
        ChartSessionManager.createSeries chartSession ("s" +:+ string_of_nat index)
          symbolSession (timeframe params) batchSize connection2 in
      send_requests params batchSize random (S index) rest'
        (mkManagers (states mgr) sessionMap' connection3)
  end.

(** [setupEventHandlers] followed by [initializeRequests]. *)
Definition initializeRequests (params : GetCandlesParams) (random : nat -> string)
    (st : t) : t :=
  let batchSize := CandleDataProcessor.calculateBatchSize (amount params) in
  let states :=
    foldl (fun states symbol => SymbolStateManager.initializeSymbol symbol states)
          (states (mgr st)) (symbols params) in
  mk (send_requests params batchSize random 0 (symbols params)
        (mkManagers states (sessionMap (mgr st)) (connection (mgr st))))
     (pendingYields st) (Z.of_nat (length (symbols params)))
     (hasError st) (errorMessage st) true (position st).

(** The stream object as the constructor leaves it. *)
Definition new (connection : list Command) : t :=
  mk (mkManagers ∅ ∅ connection) [] 0 false None false at_start.

(** What one resumption of the generator hands to its consumer. *)
Inductive Step : Type :=
  | yielded (candles : list Candle)
  | awaiting (* the 10 ms timer: the consumer keeps waiting *)
  | thrown (e : JsError)
  | returned.

Definition at_position (pos : Position) (st : t) : t :=
  mk (mgr st) (pendingYields st) (activeCount st) (hasError st) (errorMessage st)
     (subscribed st) pos.

Definition shift (st : t) : t :=
  mk (mgr st) (drop 1 (pendingYields st)) (activeCount st) (hasError st)
     (errorMessage st) (subscribed st) (position st).

(** The second loop and the [finally] after it. *)
Definition drain (st : t) : Step * t :=
  match pendingYields st with
  | item :: _ => (yielded (py_candles item), at_position in_drain (shift st))
  | [] => (returned, at_position finished (cleanup st))
  end.

Definition truthy_message (msg : option string) : bool :=
  match msg with
  | Some text => negb (String.eqb text "")
  | None => false
  end.

(** From the head of the first loop to the next suspension. *)
Definition loop (st : t) : Step * t :=
  if (0 <? activeCount st)%Z && negb (hasError st) then
    match pendingYields st with
    | item :: _ => (yielded (py_candles item), at_position in_loop (shift st))
    | [] => (awaiting, at_position in_loop st)
    end
  else if hasError st && truthy_message (errorMessage st) then
    (thrown (ErrorFactory.generic (default "" (errorMessage st)) None),
     at_position finished (cleanup st))
  else drain st.

(** [next()] on the generator of [getCandlesStream], up to the next
    suspension. *)
Definition resume (params : GetCandlesParams) (random : nat -> string) (st : t)
  : Step * t :=
  match position st with
  | at_start =>
      match validateParams params with
      | Throw e => (thrown e, at_position finished st)
      | Return _ =>
          if (length (symbols params) =? 0)%nat then (returned, at_position finished st)
          else loop (initializeRequests params random st)
      end
  | in_loop => loop st
  | in_drain => drain st
  | finished => (returned, st)
  end.

Definition dispatch (params : GetCandlesParams) (event : TradingviewEvent) (st : t) : t :=
  if subscribed st then subscriber params event st else st.

(** What happens around the generator: an event arrives, or the consumer
    (or the timer) resumes it. *)
Inductive Action : Type :=
  | arrives (event : TradingviewEvent)
  | resumes.

(** The results delivered to the consumer along a schedule, the raised
    failure included. *)
Fixpoint run (params : GetCandlesParams) (random : nat -> string)
    (schedule : list Action) (st : t) : list Step * t :=
  match schedule with
  | [] => ([], st)
  | arrives event :: rest => run params random rest (dispatch params event st)
  | resumes :: rest =>
      match position st with
      | finished => run params random rest st
      | _ =>
          let '(step, st') := resume params random st in
          let '(steps, st'') := run params random rest st' in
          (match step with awaiting => steps | _ => step :: steps end, st'')
      end
  end.

End CandleStream.

(** The single-file [getCandlesStream]: the same variables and the same two
    loops, with the handlers inlined; it clears nothing when it ends. *)
Module LegacyStream.

Definition subscriber (params : GetCandlesParams) (batchSize : Z)
    (event : TradingviewEvent) (st : CandleStream.t) : CandleStream.t :=
  let mgr := CandleStream.mgr st in
  let with_mgr mgr' :=
    CandleStream.mk mgr' (CandleStream.pendingYields st) (CandleStream.activeCount st)
      (CandleStream.hasError st) (CandleStream.errorMessage st)
      (CandleStream.subscribed st) (CandleStream.position st) in
  if String.eqb (name event) "timescale_update" then
    let sessionData := param_at event 1 in
    let sessionId := param_at event 0 in
    let symbol := ChartSessionManager.getSymbolForSession sessionId (sessionMap mgr) in
    if no_symbol symbol then st
    else
      let symbol := default "" symbol in
      match states mgr !! symbol with
      | None => st
      | Some state =>
          if completed state then st
          else
            match CandleDataProcessor.findSeriesKey sessionData, sessionData with
            | Throw error, _ =>
                CandleStream.mk mgr (CandleStream.pendingYields st)
                  (CandleStream.activeCount st) true (Some (message error)) false
                  (CandleStream.position st)
            | Return (Some seriesKey), p_object props =>
                match lookup_prop seriesKey props with
                | Some (entry_object (Some newCandles)) =>
                    let newCandles :=
                      if (batchSize <? Z.of_nat (length newCandles))%Z
                      then slice newCandles 0 (- Z.of_nat (length (candles state)))
                      else newCandles in
                    with_mgr
                      (mkManagers
                         (<[symbol := mkSymbolState (newCandles ++ candles state)
                                                    (completed state) (error state)]>
                            (states mgr))
                         (sessionMap mgr) (connection mgr))
                | _ => st
                end
            | _, _ => st
            end
      end
  else if is_series_event event then
    let sessionId := param_at event 0 in
    let symbol := ChartSessionManager.getSymbolForSession sessionId (sessionMap mgr) in
    if no_symbol symbol then st
    else
      let symbol := default "" symbol in
      match states mgr !! symbol with
      | None => st
      | Some state =>
          if completed state then st
          else
            let loadedCount := Z.of_nat (length (candles state)) in
            if (0 <? loadedCount)%Z && (Z.rem loadedCount batchSize =? 0)%Z
               && (falsy_amount (amount params)
                   || (loadedCount <? default 0%Z (amount params))%Z)
            then
              with_mgr
                (mkManagers (states mgr) (sessionMap mgr)
                   (send (connection mgr) "request_more_data"
                      [match sessionId with p_string text => JStr text | _ => JNull end;
                       JStr "sds_1"; JNum batchSize]))
            else
              let state' :=
                mkSymbolState (candles state) true
                  (String.eqb (name event) "symbol_error" || error state) in
              let finalCandles :=
                if falsy_amount (amount params) then candles state
                else slice (candles state) 0 (default 0%Z (amount params)) in
              let processedCandles := CandleDataProcessor.processCandles finalCandles in
              let pendingYields' :=
                if (0 <? length processedCandles)%nat || negb (error state')
                then CandleStream.pendingYields st ++ [mkPendingYield symbol processedCandles]
                else CandleStream.pendingYields st in
              let activeCount' := (CandleStream.activeCount st - 1)%Z in
              CandleStream.mk
                (mkManagers (<[symbol := state']> (states mgr)) (sessionMap mgr)
                            (connection mgr))
                pendingYields' activeCount'
                (CandleStream.hasError st) (CandleStream.errorMessage st)
                (if (activeCount' =? 0)%Z then false else CandleStream.subscribed st)
                (CandleStream.position st)
      end
  else st.

(** The generator body before its first loop: the states, the subscriber
    and the requests, the latter as in the concurrent copy. *)
Definition start (params : GetCandlesParams) (random : nat -> string)
    (st : CandleStream.t) : CandleStream.t :=
  let symbolStates :=
    foldl (fun states symbol => <[symbol := mkSymbolState [] false false]> states)
          ∅ (symbols params) in
  CandleStream.mk
    (Legacy.send_requests params (Legacy.batchSize params) random 0 (symbols params)
       (mkManagers symbolStates ∅ (connection (CandleStream.mgr st))))
    [] (Z.of_nat (length (symbols params))) false None true (CandleStream.position st).

(** The second loop; the generator returns after it. *)
Definition drain (st : CandleStream.t) : CandleStream.Step * CandleStream.t :=
  match CandleStream.pendingYields st with
  | item :: _ =>
      (CandleStream.yielded (py_candles item),
       CandleStream.at_position CandleStream.in_drain (CandleStream.shift st))
  | [] => (CandleStream.returned, CandleStream.at_position CandleStream.finished st)
  end.

(** From the head of the first loop to the next suspension. *)
Definition loop (st : CandleStream.t) : CandleStream.Step * CandleStream.t :=
  if (0 <? CandleStream.activeCount st)%Z && negb (CandleStream.hasError st) then
    match CandleStream.pendingYields st with
    | item :: _ =>
        (CandleStream.yielded (py_candles item),
         CandleStream.at_position CandleStream.in_loop (CandleStream.shift st))
    | [] => (CandleStream.awaiting, CandleStream.at_position CandleStream.in_loop st)
    end
  else if CandleStream.hasError st
          && CandleStream.truthy_message (CandleStream.errorMessage st) then
    (CandleStream.thrown (new_Error (default "" (CandleStream.errorMessage st))),
     CandleStream.at_position CandleStream.finished st)
  else drain st.

Definition resume (params : GetCandlesParams) (random : nat -> string)
    (st : CandleStream.t) : CandleStream.Step * CandleStream.t :=
  match CandleStream.position st with
  | CandleStream.at_start =>
      if (length (symbols params) =? 0)%nat
      then (CandleStream.returned, CandleStream.at_position CandleStream.finished st)
      else loop (start params random st)
  | CandleStream.in_loop => loop st
  | CandleStream.in_drain => drain st
  | CandleStream.finished => (CandleStream.returned, st)
  end.

Definition dispatch (params : GetCandlesParams) (event : TradingviewEvent)
    (st : CandleStream.t) : CandleStream.t :=
  if CandleStream.subscribed st
  then subscriber params (Legacy.batchSize params) event st
  else st.

Fixpoint run (params : GetCandlesParams) (random : nat -> string)
    (schedule : list CandleStream.Action) (st : CandleStream.t)
  : list CandleStream.Step * CandleStream.t :=
  match schedule with
  | [] => ([], st)
  | CandleStream.arrives event :: rest => run params random rest (dispatch params event st)
  | CandleStream.resumes :: rest =>
      match CandleStream.position st with
      | CandleStream.finished => run params random rest st
      | _ =>
          let '(step, st') := resume params random st in
          let '(steps, st'') := run params random rest st' in
          (match step with CandleStream.awaiting => steps | _ => step :: steps end, st'')
      end
  end.

End LegacyStream.


(** ** Transport connector ([src/connection/websocket.ts]) *)

Record ConnectionOptions : Type := mkOptions {
  sessionId : option string;
  endpoint : option string
}.

(** [ENDPOINTS] of [src/types/index.ts], in the order of its keys. *)
Definition ENDPOINTS : list (string * string) :=
  [("data", "wss://data.tradingview.com/socket.io/websocket");
   ("prodata", "wss://prodata.tradingview.com/socket.io/websocket");
   ("charts-polygon", "wss://charts-polygon.tradingview.com/socket.io/websocket");
   ("widgetdata", "wss://widgetdata.tradingview.com/socket.io/websocket")].

Record Endpoint : Type := mkEndpoint {
  ep_name : string;
  ep_url : string
}.

(** The named or custom endpoint the options ask for, or the default. *)
Definition requested_endpoint (options : ConnectionOptions) : Endpoint :=
  match endpoint options with
  | Some e =>
      if negb (String.eqb e "") && bool_decide (e ∈ map fst ENDPOINTS)
      then mkEndpoint e (default "" (lookup_prop e ENDPOINTS))
      else if negb (String.eqb e "") && startsWith e "wss://"
      then mkEndpoint "custom" e
      else mkEndpoint "data" (default "" (lookup_prop "data" ENDPOINTS))
  | None => mkEndpoint "data" (default "" (lookup_prop "data" ENDPOINTS))
  end.

Definition endpointsToTry (options : ConnectionOptions) : list Endpoint :=
  let first := requested_endpoint options in
  first ::
  map (fun entry => mkEndpoint (fst entry) (snd entry))
      (filter (fun entry => fst entry ≠ ep_name first) ENDPOINTS).

Section Connect.

(** What [connectToEndpoint] settles with for an endpoint: the connection
    it resolves to or the value it rejects with. *)
Context {TradingviewConnection : Type}.
Variable connectToEndpoint :
  ConnectionOptions -> string -> string -> result TradingviewConnection.

(** The [for] loop of [connect] and the [throw] after it. *)
Fixpoint try_endpoints (options : ConnectionOptions) (endpoints : list Endpoint)
    (lastError : option JsError) : result TradingviewConnection :=
  match endpoints with
  | [] =>
      Throw (default (new_Error "Failed to connect to any TradingView endpoint") lastError)
  | endpoint :: rest =>
      match connectToEndpoint options (ep_name endpoint) (ep_url endpoint) with
      | Return connection => Return connection
      | Throw error => try_endpoints options rest (Some error)
      end
  end.

Definition connect (options : ConnectionOptions) : result TradingviewConnection :=
  try_endpoints options (endpointsToTry options) None.

End Connect.

(** ** Vocabulary of the statements *)



(** The batch size of a request: [min(amount, 5000)], or 5000 when no
    amount is given. *)
Definition batch_size_of (amount : option Z) : Z :=
  match amount with
  | Some a => Z.min a 5000
  | None => 5000
  end.

(** The accumulated count asks for another page. *)
Definition wants_more (loadedCount : nat) (amount : option Z) : Prop :=
  (0 < Z.of_nat loadedCount)%Z /\
  Z.rem (Z.of_nat loadedCount) (batch_size_of amount) = 0%Z /\
  (amount = None \/ exists a, amount = Some a /\ (Z.of_nat loadedCount < a)%Z).

(** A bar for the examples: its only value is its time. *)
Definition bar (t : Z) : RawCandle := mkRawCandle t [inject_Z t].

(** Every candidate of the fallback list fails to connect. *)
Definition all_endpoints_fail {C : Type}
    (connectToEndpoint : ConnectionOptions -> string -> string -> result C)
    (options : ConnectionOptions) : Prop :=
  Forall (fun ep => exists e, connectToEndpoint options (ep_name ep) (ep_url ep) = Throw e)
         (endpointsToTry options).

(** The event with which a WebSocket reports a transport failure. *)
Definition socket_error : JsError := mkError ErrorEvent "error" None None.

(** The three shapes of a sub-message the codec is specified for. *)
Definition is_keepalive (sub : string) : Prop := startsWith sub "~h~" = true.

Definition has_session_id (sub : string) : Prop :=
  exists props, JSON_parse sub = Some (JObj props) /\ assoc_last "session_id" props <> None.

Definition has_method_shape (sub : string) : Prop :=
  exists props,
    JSON_parse sub = Some (JObj props) /\
    assoc_last "m" props <> None /\ assoc_last "p" props <> None.

(** *** The state machine of one symbol

    What the events of a symbol's sessions do to its state, taken alone:
    an update prepends the filtered payload, a completion or symbol-error
    event asks for more or makes the state terminal. *)

Definition symbol_step (this : CandleEventHandler.t) (event : TradingviewEvent)
    (state : SymbolState) : SymbolState :=
  if completed state then state
  else if String.eqb (name event) "timescale_update" then
    match CandleDataProcessor.findSeriesKey (param_at event 1), param_at event 1 with
    | Return (Some key), p_object props =>
        match lookup_prop key props with
        | Some (entry_object (Some newCandles)) =>
            mkSymbolState
              (CandleDataProcessor.filterNewCandles newCandles (candles state)
                 (CandleEventHandler.batchSize this) ++ candles state)
              false (error state)
        | _ => state
        end
    | _, _ => state
    end
  else if is_series_event event then
    if CandleDataProcessor.shouldRequestMoreData
         (length (candles state)) (CandleEventHandler.requestedAmount this)
    then state
    else mkSymbolState (candles state) true (String.eqb (name event) "symbol_error")
  else state.

(** The event is tagged with a session of [symbol]. *)
Definition belongs_to (sessionMap : gmap string string) (symbol : string)
    (event : TradingviewEvent) : bool :=
  match ChartSessionManager.getSymbolForSession (param_at event 0) sessionMap with
  | Some sym => String.eqb sym symbol
  | None => false
  end.

Definition symbol_state (this : CandleEventHandler.t) (sessionMap : gmap string string)
    (events : list TradingviewEvent) (symbol : string) : SymbolState :=
  foldl (fun state event => symbol_step this event state)
        (mkSymbolState [] false false)
        (filter (fun event => belongs_to sessionMap symbol event = true) events).

(** The bar series of a state: trimmed to the amount and field-named. *)
Definition series_of (amount : option Z) (state : SymbolState) : list Candle :=
  CandleDataProcessor.processCandles
    (if falsy_amount amount then candles state
     else slice (candles state) 0 (default 0%Z amount)).

(** The bar series of [symbol] in a concurrent retrieval: it depends on the
    events of the symbol's own sessions only, in their order. *)
Definition symbol_series (params : GetCandlesParams) (sessionMap : gmap string string)
    (events : list TradingviewEvent) (symbol : string) : list Candle :=
  series_of (amount params)
    (symbol_state (Concurrent.eventHandler params) sessionMap events symbol).

(** The symbol an event is routed to and the state it finds there. *)
Definition event_symbol (mgr : Managers) (event : TradingviewEvent)
  : option (string * SymbolState) :=
  match ChartSessionManager.getSymbolForSession (param_at event 0) (sessionMap mgr) with
  | Some sym =>
      if String.eqb sym "" then None
      else
        match states mgr !! sym with
        | Some state => Some (sym, state)
        | None => None
        end
  | None => None
  end.

(** What holds of the variables of [getCandlesConcurrent] between two
    events, [current] giving the state each symbol of the request has
    reached. *)
Record concurrent_invariant (params : GetCandlesParams) (sessions : gmap string string)
    (current : string -> SymbolState) (st : Concurrent.t) : Prop := {
  inv_sessions : sessionMap (Concurrent.mgr st) = sessions;
  inv_states : forall s,
    states (Concurrent.mgr st) !! s =
      if decide (s ∈ symbols params) then Some (current s) else None;
  inv_count : exists finished : list string,
    Concurrent.completedCount st = length finished /\
    NoDup finished /\
    forall s, s ∈ finished <-> s ∈ symbols params /\ completed (current s) = true;
  inv_results : forall s k,
    indexOf (symbols params) s = Some k ->
    completed (current s) = true ->
    Concurrent.results st !! k = Some (Some (series_of (amount params) (current s)));
  inv_length : (length (Concurrent.results st) <= length (symbols params))%nat;
  inv_unsubscribed :
    Concurrent.subscribed st = false ->
    Concurrent.completedCount st = length (symbols params);
  inv_resolved : forall r,
    Concurrent.promise st = resolved r ->
    r = Concurrent.results st /\ Concurrent.subscribed st = false;
  inv_subscribed :
    Concurrent.subscribed st = true ->
    (Concurrent.completedCount st < length (symbols params))%nat;
  inv_settled :
    Concurrent.subscribed st = false -> Concurrent.promise st <> pending
}.

(** An update that carries the given bars for a session, and the completion
    of a session. *)
Definition update_event (sessionId : string) (bars : list RawCandle) : TradingviewEvent :=
  mkEvent "timescale_update"
    [p_string sessionId; p_object [("sds_1", entry_object (Some bars))]].

Definition completion_event (sessionId : string) : TradingviewEvent :=
  mkEvent "series_completed" [p_string sessionId].

(** The field-named form of [bar t]. *)
Definition bar_candle (t : Z) : Candle :=
  mkCandle (Some (inject_Z t)) None None None None None.

(** What holds of a stream between two steps of its schedule: a recorded
    error has unsubscribed the stream and carries a message, a subscribed
    stream is inside the first loop with symbols outstanding, and no error
    is recorded before the start or during the second loop. *)
Record stream_invariant (st : CandleStream.t) : Prop := {
  si_error :
    CandleStream.hasError st = true ->
    CandleStream.subscribed st = false /\
    CandleStream.truthy_message (CandleStream.errorMessage st) = true;
  si_subscribed :
    CandleStream.subscribed st = true ->
    (0 < CandleStream.activeCount st)%Z /\
    CandleStream.position st = CandleStream.in_loop;
  si_start :
    CandleStream.position st = CandleStream.at_start ->
    CandleStream.hasError st = false /\ CandleStream.subscribed st = false;
  si_drain :
    CandleStream.position st = CandleStream.in_drain ->
    CandleStream.hasError st = false /\ CandleStream.subscribed st = false
}.

(** The schedule resumes the generator at least once. *)
Definition has_resume (schedule : list CandleStream.Action) : bool :=
  existsb (fun action =>
             match action with
             | CandleStream.resumes => true
             | CandleStream.arrives _ => false
             end) schedule.

(** A schedule in which the result of A is queued when an update without
    payload for B makes the handler throw. *)
Definition failing_schedule : list CandleStream.Action :=
  [CandleStream.resumes;
   CandleStream.arrives (update_event "cs_A_1" [bar 1]);
   CandleStream.arrives (completion_event "cs_A_1");
   CandleStream.arrives (mkEvent "timescale_update" [p_string "cs_B_3"])].

(** The payload of the event can be searched for a series without a throw. *)
Definition readable_update (event : TradingviewEvent) : Prop :=
  forall e, CandleDataProcessor.findSeriesKey (param_at event 1) <> Throw e.

(** The orchestrator has closed [symbol] with an empty series flagged as
    errored, stored it where the symbol's result belongs, and has not
    rejected. *)
Definition ends_empty (params : GetCandlesParams) (symbol : string) (st : Concurrent.t)
  : Prop :=
  states (Concurrent.mgr st) !! symbol = Some (mkSymbolState [] true true) /\
  (forall k, indexOf (symbols params) symbol = Some k ->
             Concurrent.results st !! k = Some (Some [])) /\
  (Concurrent.promise st = pending \/
   Concurrent.promise st = resolved (Concurrent.results st)).

(** No symbol that is still open is flagged as errored. *)
Definition unflagged (states : gmap string SymbolState) : Prop :=
  forall symbol state,
    states !! symbol = Some state -> completed state = false -> error state = false.

(** Two states of the orchestrator that differ at most in the reason of a
    rejection. *)
Definition same_outcome (a b : Concurrent.t) : Prop :=
  Concurrent.mgr a = Concurrent.mgr b /\
  Concurrent.results a = Concurrent.results b /\
  Concurrent.completedCount a = Concurrent.completedCount b /\
  Concurrent.subscribed a = Concurrent.subscribed b /\
  (Concurrent.promise a = Concurrent.promise b \/
   exists e1 e2, Concurrent.promise a = rejected e1 /\ Concurrent.promise b = rejected e2).

(** ** Vocabulary of the further properties *)

(** The character [c] does not occur in [s]. *)
Fixpoint free_of (c : ascii) (s : string) : bool :=
  match s with
  | EmptyString => true
  | String d s' => negb (Ascii.eqb d c) && free_of c s'
  end.

(** The event with its session id replaced. *)
Definition retag (sessionId : string) (event : TradingviewEvent) : TradingviewEvent :=
  mkEvent (name event) (p_string sessionId :: tail (params event)).

(** The endpoint fails to connect. *)
Definition endpoint_fails {C : Type}
    (connectToEndpoint : ConnectionOptions -> string -> string -> result C)
    (options : ConnectionOptions) (ep : Endpoint) : Prop :=
  exists e, connectToEndpoint options (ep_name ep) (ep_url ep) = Throw e.

(** The session on which [getCandlesConcurrent] resolves the symbol at
    [index] and creates its series. *)
Definition series_session (random : nat -> string) (index : nat) (symbol : string)
  : string :=
  CandleDataProcessor.generateChartSession (Some symbol) (random (2 * index)%nat).

(** The [create_series] command of the symbol at [index]. *)
Definition create_series_command (params : GetCandlesParams) (random : nat -> string)
    (index : nat) (symbol : string) : Command :=
  mkCommand "create_series"
    [JStr (series_session random index symbol); JStr "sds_1";
     JStr ("s" +:+ string_of_nat index);
     JStr (CandleDataProcessor.generateSymbolSession index);
     JStr (timeframe params);
     JNum (CandleDataProcessor.calculateBatchSize (amount params)); JStr ""].

(** The event is tagged with the session of the series of some symbol of
    the request. *)
Definition on_series_session (params : GetCandlesParams) (random : nat -> string)
    (event : TradingviewEvent) : Prop :=
  exists index symbol,
    symbols params !! index = Some symbol /\
    param_at event 0 = p_string (series_session random index symbol).

(** ** Time frames ([src/utils/validation.ts])

    The argument of [validateTimeframe] is a string or a number; the
    numbers are the integers (minutes come in whole numbers).  [toString]
    prints a safe integer as its decimal text; the text of a larger one
    differs but is no valid time frame either. *)

Inductive FlexibleTimeframe : Type :=
  | tf_number (n : Z)
  | tf_string (s : string).

Definition validTimeframes : list string :=
  ["1"; "3"; "5"; "15"; "30"; "45"; "60"; "120"; "180"; "240"; "1D"; "1W"; "1M"].

(** The own properties of the object literal [timeframeMap]. *)
Definition timeframeMap : list (string * string) :=
  [("1m", "1"); ("3m", "3"); ("5m", "5"); ("15m", "15"); ("30m", "30"); ("45m", "45");
   ("1h", "60"); ("2h", "120"); ("3h", "180"); ("4h", "240");
   ("1d", "1D"); ("1w", "1W"); ("1M", "1M"); ("D", "1D"); ("W", "1W"); ("M", "1M")].

(** The properties an object literal inherits from [Object.prototype];
    each holds a function or an object. *)
Definition Object_prototype : list string :=
  ["constructor"; "__defineGetter__"; "__defineSetter__"; "hasOwnProperty";
   "__lookupGetter__"; "__lookupSetter__"; "isPrototypeOf"; "propertyIsEnumerable";
   "toString"; "valueOf"; "__proto__"; "toLocaleString"].

(** What [validateTimeframe] returns: a time frame, or the value of an
    inherited property of the table. *)
Inductive TimeframeValue : Type :=
  | tv_string (s : string)
  | tv_inherited (property : string).

(** [timeframeMap[key]], which is then tested for truth: the strings of the
    table are not empty and the inherited values are objects. *)
Definition timeframeMap_get (key : string) : option TimeframeValue :=
  match lookup_prop key timeframeMap with
  | Some timeframe => Some (tv_string timeframe)
  | None =>
      if bool_decide (key ∈ Object_prototype) then Some (tv_inherited key) else None
  end.

(** [toLowerCase] on the code units below 256: the letters A to Z and the
    capital letters of the Latin-1 supplement. *)
Definition toLowerCase_char (c : ascii) : ascii :=
  let n := N_of_ascii c in
  if ((65 <=? n) && (n <=? 90) || (192 <=? n) && (n <=? 222) && negb (n =? 215))%N
  then ascii_of_N (n + 32)
  else c.

Fixpoint toLowerCase (s : string) : string :=
  match s with
  | EmptyString => EmptyString
  | String c s' => String (toLowerCase_char c) (toLowerCase s')
  end.

(** [l.join(sep)] *)
Fixpoint join (sep : string) (l : list string) : string :=
  match l with
  | [] => ""
  | [x] => x
  | x :: rest => x +:+ sep +:+ join sep rest
  end.

Definition invalid_timeframe (text : string) : JsError :=
  new_Error ("Invalid timeframe: " +:+ text +:+ ". Valid timeframes are: "
             +:+ join ", " validTimeframes).

Definition validateTimeframe (timeframe : FlexibleTimeframe) : result TimeframeValue :=
  match timeframe with
  | tf_string s =>
      if bool_decide (s ∈ validTimeframes) then Return (tv_string s)
      else
        let normalized := toLowerCase s in
        match timeframeMap_get normalized with
        | Some value => Return value
        | None => Throw (invalid_timeframe s)
        end
  | tf_number n =>
      let timeframeStr := string_of_Z n in
      if bool_decide (timeframeStr ∈ validTimeframes) then Return (tv_string timeframeStr)
      else Throw (invalid_timeframe timeframeStr)
  end.

(** The numbers and the spellings [validateTimeframe] turns into a time
    frame: the minute counts, and the entries of the table whose key is in
    lower case. *)
Definition numeric_timeframes : list Z := [1; 3; 5; 15; 30; 45; 60; 120; 180; 240]%Z.

Definition lowercase_aliases : list (string * string) :=
  [("1m", "1"); ("3m", "3"); ("5m", "5"); ("15m", "15"); ("30m", "30"); ("45m", "45");
   ("1h", "60"); ("2h", "120"); ("3h", "180"); ("4h", "240"); ("1d", "1D"); ("1w", "1W")].

Inductive normalises_to : FlexibleTimeframe -> TimeframeValue -> Prop :=
  | nf_valid (s : string) :
      s ∈ validTimeframes -> normalises_to (tf_string s) (tv_string s)
  | nf_minutes (n : Z) :
      n ∈ numeric_timeframes -> normalises_to (tf_number n) (tv_string (string_of_Z n))
  | nf_alias (s r : string) :
      s ∉ validTimeframes ->
      lookup_prop (toLowerCase s) lowercase_aliases = Some r ->
      normalises_to (tf_string s) (tv_string r)
  | nf_inherited (s : string) :
      toLowerCase s = "constructor" \/ toLowerCase s = "__proto__" ->
      normalises_to (tf_string s) (tv_inherited (toLowerCase s)).

(** No letter from A to Z occurs in [s]. *)
Fixpoint no_capital (s : string) : bool :=
  match s with
  | EmptyString => true
  | String c s' =>
      negb ((65 <=? N_of_ascii c) && (N_of_ascii c <=? 90))%N && no_capital s'
  end.

(** ** The rest of the codec and the message listener
    ([src/connection/protocol.ts], [src/connection/websocket.ts]) *)

(** [null] is [None]; the read of [session_id] on a [null] datum throws. *)
Definition extractSessionId (payload : MessagePayload) : result (option parsed) :=
  if isSessionMessage payload then
    match data payload with
    | JNull => Throw (null_read_error "session_id")
    | datum =>
        if truthy (get_prop datum "session_id")
        then Return (get_prop datum "session_id")
        else Return None
    end
  else Return None.

(** What the listener of [connectToEndpoint] has done so far: the texts
    written to the WebSocket, whether the promise of the connection was
    resolved, and the events handed to the subscribers. *)
Record Socket : Type := mkSocket {
  outbox : list string;
  opened : bool;
  delivered : list TradingEvent
}.

(** The text a ping is answered with; [parse_event] gives a ping no other
    datum than a string of code units below 256. *)
Definition ping_text (payload : MessagePayload) : string :=
  match data payload with
  | JStr frame => text_of frame
  | _ => ""
  end.

(** One turn of the loop over the payloads of a message. *)
Definition handle_payload (token : string) (socket : Socket) (payload : MessagePayload)
  : Socket :=
  match type payload with
  | type_ping =>
      mkSocket (outbox socket ++ [ping_text payload]) (opened socket) (delivered socket)
  | type_session =>
      mkSocket (outbox socket ++ [createMessage "set_auth_token" [JStr token]]) true
               (delivered socket)
  | type_event =>
      match createTradingEvent payload with
      | Return tradingEvent =>
          mkSocket (outbox socket) (opened socket) (delivered socket ++ [tradingEvent])
      | Throw _ => socket
      end
  end.

(** The [message] listener: the whole message is decoded before the first
    payload is acted on. *)
Definition on_message (token : string) (message : string) (socket : Socket)
  : result Socket :=
  let* payloads := parseMessage message in
  Return (foldl (handle_payload token) socket payloads).

(** A command as [send] is given it, its JSON text and its frame. *)
Definition command_text (command : string * list value) : string :=
  JSON_stringify (JObj [("m", JStr (fst command)); ("p", JArr (snd command))]).

Definition command_event (command : string * list value) : TradingEvent :=
  mkTradingEvent (Some (of_value (JStr (fst command))))
                 (Some (of_value (JArr (snd command)))).

(** Frames one after the other, as the server batches them. *)
Fixpoint frames (commands : list (string * list value)) : string :=
  match commands with
  | [] => ""
  | command :: rest => createMessage (fst command) (snd command) +:+ frames rest
  end.

(** What holds of the variables of [getCandles] between two events: while
    subscribed it is loading the symbol at [currentSymIndex] and has one
    series for each symbol before it; a resolved promise holds all the
    series, one per symbol. *)
Record sequential_invariant (params : GetCandlesParams) (st : Sequential.t) : Prop := {
  sq_subscribed :
    Sequential.subscribed st = true ->
    (Sequential.currentSymIndex st < length (symbols params))%nat /\
    length (Sequential.allCandles st) = Sequential.currentSymIndex st /\
    forall r, Sequential.promise st <> resolved r;
  sq_resolved : forall r,
    Sequential.promise st = resolved r ->
    r = Sequential.allCandles st /\
    length (Sequential.allCandles st) = length (symbols params) /\
    Sequential.subscribed st = false
}.

(** *** The stream as a queue *)

(** The series among what the consumer was handed. *)
Fixpoint yields (steps : list CandleStream.Step) : list (list Candle) :=
  match steps with
  | [] => []
  | CandleStream.yielded series :: rest => series :: yields rest
  | _ :: rest => yields rest
  end.

Fixpoint events_only (schedule : list CandleStream.Action) : list TradingviewEvent :=
  match schedule with
  | [] => []
  | CandleStream.arrives event :: rest => event :: events_only rest
  | CandleStream.resumes :: rest => events_only rest
  end.

(** The events that arrive once the generator has been started: those
    before its first resumption find no subscriber. *)
Fixpoint after_start (schedule : list CandleStream.Action) : list TradingviewEvent :=
  match schedule with
  | [] => []
  | CandleStream.arrives _ :: rest => after_start rest
  | CandleStream.resumes :: rest => events_only rest
  end.

(** The series the subscriber queues for these events, in the order it
    queues them, when nobody takes any out. *)
Definition queued (params : GetCandlesParams) (random : nat -> string)
    (sent : list Command) (events : list TradingviewEvent) : list (list Candle) :=
  map py_candles
    (CandleStream.pendingYields
       (foldl (fun st event => CandleStream.dispatch params event st)
              (CandleStream.initializeRequests params random (CandleStream.new sent))
              events)).

(** A stream with a consumer and the same stream left alone: they differ by
    the series the consumer has taken, and by the managers once the
    subscriber is gone. *)
Record consumed (taken : list (list Candle)) (st quiet : CandleStream.t) : Prop := {
  cs_active : CandleStream.activeCount st = CandleStream.activeCount quiet;
  cs_error : CandleStream.hasError st = CandleStream.hasError quiet;
  cs_subscribed : CandleStream.subscribed st = CandleStream.subscribed quiet;
  cs_mgr : CandleStream.subscribed st = true -> CandleStream.mgr st = CandleStream.mgr quiet;
  cs_queue :
    taken ++ map py_candles (CandleStream.pendingYields st) =
    map py_candles (CandleStream.pendingYields quiet)
}.

(** A finished generator has no subscriber, and no series left when it
    finished without an error. *)
Definition finished_clean (st : CandleStream.t) : Prop :=
  CandleStream.position st = CandleStream.finished ->
  CandleStream.subscribed st = false /\
  (CandleStream.hasError st = false -> CandleStream.pendingYields st = []).

(** Every event of the schedule is tagged with the session of a series. *)
Definition schedule_on_series_sessions (params : GetCandlesParams) (random : nat -> string)
    (schedule : list CandleStream.Action) : Prop :=
  Forall (fun action =>
            match action with
            | CandleStream.arrives event => on_series_session params random event
            | CandleStream.resumes => True
            end) schedule.

(** ** The error handler ([src/utils/errors.ts]) *)

(** [e instanceof C]: the classes of the library extend [TradingViewError],
    which extends the host's [Error] as [SyntaxError] and [TypeError] do;
    the event of a WebSocket is no [Error]. *)
Definition is_a (e : JsError) (c : ErrorClass) : bool :=
  match c with
  | Error_ => negb (bool_decide (cls e = ErrorEvent))
  | TradingViewError =>
      bool_decide (cls e ∈ [TradingViewError; ConnectionError; AuthenticationError;
                            DataError; ValidationError; ProtocolError; TimeoutError])
  | _ => bool_decide (cls e = c)
  end.

Module ErrorHandler.

Definition isRetryable (error : JsError) : bool :=
  if is_a error ConnectionError then true
  else if is_a error TimeoutError then true
  else if is_a error TradingViewError then
    bool_decide (default "" (code error) ∈ ["CONNECTION_ERROR"; "TIMEOUT_ERROR"])
  else false.

Definition getUserMessage (error : JsError) : string :=
  if is_a error ValidationError then "Validation error: " +:+ message error
  else if is_a error ConnectionError then "Connection error: " +:+ message error
  else if is_a error AuthenticationError then "Authentication error: " +:+ message error
  else if is_a error DataError then "Data error: " +:+ message error
  else "Error: " +:+ message error.

End ErrorHandler.

(** [CandleDataProcessor.validateParams] with the two tests that the record
    [GetCandlesParams] leaves to the caller: the connection, here whether
    there is one, and the time frame as the caller gave it. *)
Definition validateParams_as_called (has_connection : bool)
    (timeframe : option FlexibleTimeframe) (params : GetCandlesParams) : result unit :=
  if negb has_connection then Throw (ErrorFactory.generic "Connection is required" None)
  else
    let* _ := validateParams params in
    match timeframe with
    | Some given => let* _ := validateTimeframe given in Return tt
    | None => Return tt
    end.

(** The failures the retrieval calls end with: a plain [Error] of the
    validation, a [DataError] of the subscriber, or the generic error of the
    stream and of a missing connection. *)
Definition retrieval_failure (e : JsError) : Prop :=
  cls e = Error_ \/
  (cls e = DataError /\ code e = Some "DATA_ERROR") \/
  (cls e = TradingViewError /\ code e = None).

(** * Properties *)

(** ** Validation *)




(** ** The candle state machine *)

Lemma calculateBatchSize_min (amount : option Z) :
  amount <> Some 0%Z ->
  CandleDataProcessor.calculateBatchSize amount = batch_size_of amount.
Proof.
  intros Hnz. destruct amount as [a|]; [|reflexivity].
  unfold CandleDataProcessor.calculateBatchSize, batch_size_of, MAX_BATCH_SIZE.
  destruct (Z.eqb_spec a 0) as [->|Hne]; [congruence|]. simpl.
  destruct (Z.ltb_spec a 5000); lia.
Qed.

(** The test of the source divides by the maximum, the statement by the
    batch size of the request: for a batch size computed from the amount
    they agree. *)
Lemma shouldRequestMoreData_spec (loadedCount : nat) (amount : option Z) :
  amount <> Some 0%Z ->
  CandleDataProcessor.shouldRequestMoreData loadedCount amount = true <->
  wants_more loadedCount amount.
Proof.
  intros Hnz. unfold CandleDataProcessor.shouldRequestMoreData, wants_more, MAX_BATCH_SIZE.
  rewrite !andb_true_iff, orb_true_iff, Z.ltb_lt, Z.eqb_eq.
  set (n := Z.of_nat loadedCount). assert (Hn : (0 <= n)%Z) by lia.
  destruct amount as [a|]; simpl.
  - destruct (Z.eqb_spec a 0) as [->|Hne]; [congruence|].
    rewrite Z.ltb_lt. split.
    + intros [[Hpos Hrem] [Hf|Hlt]]; [discriminate|].
      split; [exact Hpos|]. split; [|right; eauto].
      destruct (Z.min_spec a 5000) as [[Hlt' ->]|[_ ->]]; [|exact Hrem].
      apply Z.rem_divide in Hrem; [|lia]. destruct Hrem as [k Hk]. lia.
    + intros (Hpos & Hrem & [Hnone|(a' & [= <-] & Hlt)]); [discriminate|].
      split; [|now right]. split; [exact Hpos|].
      destruct (Z.min_spec a 5000) as [[Hlt' Hmin]|[_ Hmin]]; rewrite Hmin in Hrem;
        [|exact Hrem].
      apply Z.rem_divide in Hrem; [|lia]. destruct Hrem as [k Hk].
      assert (k <= 0 \/ 1 <= k)%Z as [Hk0|Hk1] by lia; nia.
  - split.
    + intros [[Hpos Hrem] _]. auto.
    + intros (Hpos & Hrem & _). auto.
Qed.

(** C2: on a completion or symbol-error event for a symbol whose state is
    not yet terminal, the handler sends [request_more_data] and leaves the
    state as it is exactly when the accumulated count is positive, a
    multiple of the batch size [min(amount, 5000)] and below the requested
    amount (or no amount was requested); in every other case the state
    becomes terminal. *)
Theorem series_event_requests_more_exactly_when
    {S : Type} (amount : option Z) (event : TradingviewEvent)
    (callback : option (string -> list Candle -> S -> S)) (mgr : Managers) (caller : S)
    (sessionId symbol : string) (state : SymbolState) :
  let this :=
    CandleEventHandler.new (CandleDataProcessor.calculateBatchSize amount) amount in
  amount <> Some 0%Z ->
  is_series_event event = true ->
  param_at event 0 = p_string sessionId ->
  sessionMap mgr !! sessionId = Some symbol ->
  symbol <> "" ->
  states mgr !! symbol = Some state ->
  completed state = false ->
  CandleEventHandler.batchSize this = batch_size_of amount /\
  (wants_more (length (candles state)) amount ->
   CandleEventHandler.handleSeriesEvent this event callback mgr caller =
     (mkManagers (states mgr) (sessionMap mgr)
        (connection mgr ++
         [mkCommand "request_more_data"
            [JStr sessionId; JStr "sds_1"; JNum (batch_size_of amount)]]),
      caller, false)) /\
  (~ wants_more (length (candles state)) amount ->
   exists mgr' caller',
     CandleEventHandler.handleSeriesEvent this event callback mgr caller =
       (mgr', caller', true) /\
     states mgr' !! symbol =
       Some (mkSymbolState (candles state) true (String.eqb (name event) "symbol_error")) /\
     connection mgr' = connection mgr).
Proof.
  intros this Hnz _ Hid Hsession Hsym Hstate Hopen.
  split; [apply calculateBatchSize_min, Hnz|].
  assert (Hno : no_symbol (Some symbol) = false).
  { simpl. now apply String.eqb_neq. }
  unfold CandleEventHandler.handleSeriesEvent.
  rewrite Hid. simpl ChartSessionManager.getSymbolForSession. rewrite Hsession, Hno.
  simpl default. unfold SymbolStateManager.getSymbolState. rewrite Hstate, Hopen.
  simpl CandleEventHandler.requestedAmount. simpl CandleEventHandler.batchSize.
  split.
  - intros Hmore. apply shouldRequestMoreData_spec in Hmore; [|exact Hnz].
    rewrite Hmore. unfold ChartSessionManager.requestMoreData, send.
    rewrite calculateBatchSize_min by exact Hnz. reflexivity.
  - intros Hstop.
    destruct (CandleDataProcessor.shouldRequestMoreData _ amount) eqn:Hmore.
    { exfalso. apply Hstop. now apply shouldRequestMoreData_spec. }
    eexists _, _. split; [reflexivity|]. simpl. split; [|reflexivity].
    unfold SymbolStateManager.markSymbolCompleted. rewrite Hstate.
    apply lookup_insert_eq.
Qed.

(** With no amount requested and nothing accumulated a completion event is
    terminal. *)
Lemma series_event_requests_more_exactly_when_witness :
  let event := mkEvent "series_completed" [p_string "cs_A_1"] in
  let mgr :=
    mkManagers {["A" := mkSymbolState [] false false]} {["cs_A_1" := "A"]} [] in
  exists mgr' caller',
    CandleEventHandler.handleSeriesEvent
      (CandleEventHandler.new (CandleDataProcessor.calculateBatchSize None) None)
      event None mgr tt = (mgr', caller', true) /\
    states mgr' !! "A" = Some (mkSymbolState [] true false) /\
    connection mgr' = [].
Proof.
  intros event mgr.
  refine (proj2 (proj2 (series_event_requests_more_exactly_when
            None event None mgr tt "cs_A_1" "A" (mkSymbolState [] false false)
            _ eq_refl eq_refl _ _ _ eq_refl)) _).
  - discriminate.
  - apply lookup_singleton_eq.
  - discriminate.
  - apply lookup_singleton_eq.
  - intros (Hpos & _). simpl in Hpos. lia.
Defined.

(** ** Amounts above the batch cap *)

Lemma slice_0_pos {A : Type} (l : list A) (a : Z) :
  (0 < a)%Z -> slice l 0 a = take (Z.to_nat a) l.
Proof.
  intros Ha. unfold slice, slice_index.
  destruct (Z.ltb_spec a 0) as [|_]; [lia|]. change (0 <? 0)%Z with false. cbv iota.
  change (Z.to_nat 0) with 0%nat. rewrite Nat.min_0_l, Nat.sub_0_r, drop_0.
  destruct (Nat.le_ge_cases (Z.to_nat a) (length l)) as [Hle|Hge].
  - now rewrite Nat.min_l.
  - rewrite Nat.min_r by exact Hge.
    rewrite (take_ge l (length l)) by lia. now rewrite (take_ge l (Z.to_nat a)) by lia.
Qed.




Lemma slice_0_neg {A : Type} (l : list A) (k : nat) :
  slice l 0 (- Z.of_nat (S k)) = take (length l - S k) l.
Proof.
  unfold slice, slice_index.
  destruct (Z.ltb_spec (- Z.of_nat (S k)) 0) as [_|Hge]; [|lia].
  change (0 <? 0)%Z with false. cbv iota. change (Z.to_nat 0) with 0%nat.
  rewrite Nat.min_0_l, Nat.sub_0_r. simpl drop. f_equal. lia.
Qed.

Lemma slice_0_0 {A : Type} (l : list A) : slice l 0 0 = [].
Proof.
  unfold slice, slice_index. change (0 <? 0)%Z with false. cbv iota.
  change (Z.to_nat 0) with 0%nat. rewrite Nat.min_0_l. reflexivity.
Qed.

(** What the filter does by design: a payload within the batch size is kept
    whole, and a longer one loses as many bars at its end as are
    accumulated, provided some are. *)
Lemma filterNewCandles_trims_tail (newCandles existingCandles : list RawCandle)
    (batchSize : Z) :
  ((Z.of_nat (length newCandles) <= batchSize)%Z ->
   CandleDataProcessor.filterNewCandles newCandles existingCandles batchSize = newCandles) /\
  ((batchSize < Z.of_nat (length newCandles))%Z -> existingCandles <> [] ->
   CandleDataProcessor.filterNewCandles newCandles existingCandles batchSize =
     take (length newCandles - length existingCandles) newCandles).
Proof.
  unfold CandleDataProcessor.filterNewCandles. split.
  - intros Hle. destruct (Z.leb_spec (Z.of_nat (length newCandles)) batchSize); [reflexivity|lia].
  - intros Hgt Hne. destruct (Z.leb_spec (Z.of_nat (length newCandles)) batchSize); [lia|].
    destruct existingCandles as [|c rest]; [congruence|]. apply slice_0_neg.
Qed.

(** C3, at the input where the code departs from it: with nothing
    accumulated, a payload longer than the batch size is dropped whole
    ([slice(0, -0)] is empty) instead of being prepended whole, and the
    accumulator stays empty; the handler of the class and the helper of the
    single-file copy agree on it. *)
Theorem timescale_update_oversized_first_payload_is_lost
    (this : CandleEventHandler.t) (event : TradingviewEvent) (mgr : Managers)
    (sessionId symbol key : string) (props : list (string * SeriesEntry))
    (newCandles : list RawCandle) (state : SymbolState) :
  param_at event 0 = p_string sessionId ->
  param_at event 1 = p_object props ->
  sessionMap mgr !! sessionId = Some symbol ->
  symbol <> "" ->
  states mgr !! symbol = Some state ->
  completed state = false ->
  candles state = [] ->
  CandleDataProcessor.findSeriesKey (p_object props) = Return (Some key) ->
  lookup_prop key props = Some (entry_object (Some newCandles)) ->
  (CandleEventHandler.batchSize this < Z.of_nat (length newCandles))%Z ->
  CandleDataProcessor.filterNewCandles newCandles (candles state)
    (CandleEventHandler.batchSize this) = [] /\
  (exists mgr',
     CandleEventHandler.handleTimescaleUpdate this event mgr = Return mgr' /\
     candles <$> (states mgr' !! symbol) = Some []) /\
  (exists state',
     Legacy.handleTimescaleUpdate event state (CandleEventHandler.batchSize this)
       (Some (sessionMap mgr)) = Return state' /\
     candles state' = []).
Proof.
  intros Hid Hdata Hsession Hsym Hstate Hopen Hempty Hkey Hentry Hlong.
  assert (Hfilter : CandleDataProcessor.filterNewCandles newCandles (candles state)
                      (CandleEventHandler.batchSize this) = []).
  { unfold CandleDataProcessor.filterNewCandles. rewrite Hempty.
    destruct (Z.leb_spec (Z.of_nat (length newCandles)) (CandleEventHandler.batchSize this));
      [lia|apply slice_0_0]. }
  assert (Hno : no_symbol (Some symbol) = false) by (simpl; now apply String.eqb_neq).
  split; [exact Hfilter|]. split.
  - unfold CandleEventHandler.handleTimescaleUpdate.
    rewrite Hid, Hdata. simpl ChartSessionManager.getSymbolForSession. rewrite Hsession.
    rewrite Hno. simpl default. unfold SymbolStateManager.getSymbolState.
    rewrite Hstate, Hopen, Hkey. simpl bind. rewrite Hentry, Hfilter.
    eexists. split; [reflexivity|]. simpl.
    unfold SymbolStateManager.updateSymbolCandles. rewrite Hstate, Hopen.
    rewrite lookup_insert_eq. simpl. now rewrite Hempty.
  - unfold Legacy.handleTimescaleUpdate.
    rewrite Hid, Hdata. simpl ChartSessionManager.getSymbolForSession. rewrite Hsession.
    rewrite Hno, Hopen, Hkey. simpl bind. rewrite Hentry, Hempty.
    destruct (Z.ltb_spec (CandleEventHandler.batchSize this) (Z.of_nat (length newCandles)));
      [|lia].
    eexists. split; [reflexivity|]. cbn [candles length Z.of_nat Z.opp].
    now rewrite slice_0_0.
Qed.

(** Three bars arrive for a batch size of two while none is accumulated. *)
Lemma timescale_update_oversized_first_payload_is_lost_witness :
  let payload := [bar 3; bar 2; bar 1] in
  let event :=
    mkEvent "timescale_update"
      [p_string "cs_A_1"; p_object [("sds_1", entry_object (Some payload))]] in
  let mgr :=
    mkManagers {["A" := mkSymbolState [] false false]} {["cs_A_1" := "A"]} [] in
  CandleDataProcessor.filterNewCandles payload [] 2 = [] /\
  (exists mgr',
     CandleEventHandler.handleTimescaleUpdate (CandleEventHandler.new 2 (Some 2%Z)) event mgr
       = Return mgr' /\
     candles <$> (states mgr' !! "A") = Some []) /\
  (exists state',
     Legacy.handleTimescaleUpdate event (mkSymbolState [] false false) 2
       (Some (sessionMap mgr)) = Return state' /\
     candles state' = []).
Proof.
  intros payload event mgr.
  refine (timescale_update_oversized_first_payload_is_lost
            (CandleEventHandler.new 2 (Some 2%Z)) event mgr "cs_A_1" "A" "sds_1"
            [("sds_1", entry_object (Some payload))] payload
            (mkSymbolState [] false false)
            eq_refl eq_refl _ _ _ eq_refl eq_refl eq_refl eq_refl _).
  - apply lookup_singleton_eq.
  - discriminate.
  - apply lookup_singleton_eq.
  - simpl. lia.
Defined.

(** C10: an update, completion or symbol-error event whose session id has
    no entry in the session-to-symbol map leaves the handler's managers as
    they are: no state is changed, nothing is sent and no completion is
    reported, whatever the rest of the event holds. *)
Theorem unknown_session_is_ignored
    {S : Type} (this : CandleEventHandler.t) (event : TradingviewEvent)
    (callback : option (string -> list Candle -> S -> S)) (mgr : Managers) (caller : S) :
  ChartSessionManager.getSymbolForSession (param_at event 0) (sessionMap mgr) = None ->
  CandleEventHandler.handleTimescaleUpdate this event mgr = Return mgr /\
  CandleEventHandler.handleSeriesEvent this event callback mgr caller = (mgr, caller, false).
Proof.
  intros Hnone.
  unfold CandleEventHandler.handleTimescaleUpdate, CandleEventHandler.handleSeriesEvent.
  rewrite Hnone. simpl. split; reflexivity.
Qed.

(** An event for a session nobody registered, without the payload the
    update handler would read if it went on. *)
Lemma unknown_session_is_ignored_witness :
  let mgr :=
    mkManagers {["A" := mkSymbolState [bar 1] false false]} {["cs_A_1" := "A"]} [] in
  let event := mkEvent "timescale_update" [p_string "cs_B_7"] in
  CandleEventHandler.handleTimescaleUpdate (CandleEventHandler.new 5000 None) event mgr
    = Return mgr /\
  CandleEventHandler.handleSeriesEvent (CandleEventHandler.new 5000 None) event
    (Some (fun (_ : string) (_ : list Candle) (n : nat) => Datatypes.S n)) mgr 0%nat
    = (mgr, 0%nat, false).
Proof.
  intros mgr event.
  apply (unknown_session_is_ignored (CandleEventHandler.new 5000 None) event
           (Some (fun (_ : string) (_ : list Candle) (n : nat) => Datatypes.S n)) mgr 0%nat).
  simpl. apply lookup_singleton_ne. discriminate.
Defined.

(** ** The transport connector *)

Lemma try_endpoints_throws {C : Type}
    (attempt : ConnectionOptions -> string -> string -> result C)
    (options : ConnectionOptions) (endpoints : list Endpoint)
    (lastError : option JsError) (e : JsError) :
  try_endpoints attempt options endpoints lastError = Throw e <->
  Forall (fun ep => exists e', attempt options (ep_name ep) (ep_url ep) = Throw e') endpoints /\
  match last endpoints with
  | Some ep => attempt options (ep_name ep) (ep_url ep) = Throw e
  | None => e = default (new_Error "Failed to connect to any TradingView endpoint") lastError
  end.
Proof.
  revert lastError. induction endpoints as [|ep rest IH]; intros lastError.
  - simpl. split.
    + intros [= <-]. split; [constructor|reflexivity].
    + intros [_ ->]. reflexivity.
  - cbn [try_endpoints]. rewrite last_cons.
    destruct (attempt options (ep_name ep) (ep_url ep)) as [c|e'] eqn:Hep.
    + split; [discriminate|]. intros [Hall _]. inversion Hall as [|? ? [e' He'] _]; subst.
      congruence.
    + rewrite IH. destruct (last rest) as [ep'|] eqn:Hlast.
      * split; intros [Hall He]; (split; [|exact He]).
        -- constructor; eauto.
        -- now inversion Hall.
      * apply last_None in Hlast as ->. simpl. split.
        -- intros [_ ->]. split; [repeat constructor; eauto|exact Hep].
        -- intros [_ He]. split; [constructor|congruence].
Qed.

(** C7, as the code has it: [connect] fails exactly when every candidate
    of the fallback list has failed, and what it throws is the value the
    last candidate failed with, as it is: no [ConnectionError] is built
    around it. *)
Theorem connect_fails_with_last_cause {C : Type}
    (attempt : ConnectionOptions -> string -> string -> result C)
    (options : ConnectionOptions) (e : JsError) :
  connect attempt options = Throw e <->
  all_endpoints_fail attempt options /\
  exists ep, last (endpointsToTry options) = Some ep /\
             attempt options (ep_name ep) (ep_url ep) = Throw e.
Proof.
  unfold connect, all_endpoints_fail. rewrite try_endpoints_throws.
  destruct (last (endpointsToTry options)) as [ep|] eqn:Hlast.
  - split.
    + intros [Hall He]. eauto.
    + intros [Hall (ep' & [= <-] & He)]. auto.
  - exfalso. unfold endpointsToTry in Hlast.
    apply last_None in Hlast. discriminate.
Qed.

(** C7 as stated fails: when every endpoint fails with the socket's error
    event, [connect] throws that event and not a [ConnectionError]. *)
Lemma connect_failure_is_not_a_ConnectionError :
  let attempt := fun (_ : ConnectionOptions) (_ _ : string) => @Throw unit socket_error in
  all_endpoints_fail attempt (mkOptions None None) /\
  connect attempt (mkOptions None None) = Throw socket_error /\
  ~ (exists e, connect attempt (mkOptions None None) = Throw e /\
               instanceof e ConnectionError = true).
Proof.
  intros attempt. split; [|split].
  - unfold all_endpoints_fail. apply Forall_forall. intros ep _. now exists socket_error.
  - reflexivity.
  - intros (e & He & Hcls). vm_compute in He. injection He as <-. discriminate.
Qed.

(** ** The frame codec *)

Lemma startsWith_empty (s : string) : startsWith s "" = true.
Proof. destruct s; reflexivity. Qed.

Lemma substring0_keepalive (sub : string) :
  String.eqb (substring0 3 sub) "~h~" = startsWith sub "~h~".
Proof.
  destruct sub as [|a [|b [|c rest]]]; simpl; rewrite ?startsWith_empty;
    repeat (match goal with |- context [Ascii.eqb ?x ?y] => destruct (Ascii.eqb x y) end);
    reflexivity.
Qed.

Lemma parse_event_throws (sub : string) (e : JsError) :
  parse_event sub = Throw e -> cls e = SyntaxError \/ cls e = TypeError.
Proof.
  unfold parse_event. destruct (String.eqb _ _); [discriminate|].
  destruct (JSON_parse sub) as [[]|]; try (destruct (truthy _); discriminate);
    intros [= <-]; auto.
Qed.

Lemma map_throwing_throws {A B : Type} (f : A -> result B) (l : list A) (e : JsError) :
  map_throwing f l = Throw e -> exists x, x ∈ l /\ f x = Throw e.
Proof.
  induction l as [|x l IH]; simpl; [discriminate|].
  destruct (f x) as [y|e'] eqn:Hx; simpl.
  - destruct (map_throwing f l) as [ys|e'']; simpl; [discriminate|].
    intros [= <-]. destruct (IH eq_refl) as (x' & Hin & Hx'). exists x'. split; [|exact Hx'].
    now apply list_elem_of_further.
  - intros [= <-]. exists x. split; [apply list_elem_of_here|exact Hx].
Qed.

(** C8, as the code has it: a sub-message that is not a keepalive makes the
    codec fail only when it is not JSON (the parser's [SyntaxError]) or is
    the JSON [null] (a [TypeError]); every other JSON value is accepted
    whatever its shape, as a handshake when its [session_id] is truthy and
    as an application event otherwise.  No frame makes the codec throw a
    [ProtocolError]. *)
Theorem codec_accepts_any_json_shape (sub : string) :
  ~ is_keepalive sub ->
  match JSON_parse sub with
  | None => parse_event sub = Throw json_syntax_error
  | Some JNull => parse_event sub = Throw (null_read_error "session_id")
  | Some parsed =>
      parse_event sub =
        Return (mkPayload
                  (if truthy (get_prop parsed "session_id") then type_session else type_event)
                  parsed)
  end /\
  (forall message e, parseMessage message = Throw e -> cls e <> ProtocolError).
Proof.
  intros Hkeep. split.
  - unfold parse_event. rewrite substring0_keepalive.
    destruct (startsWith sub "~h~") eqn:Hs; [now destruct Hkeep|].
    destruct (JSON_parse sub) as [[]|]; try reflexivity;
      destruct (truthy _); reflexivity.
  - intros message e. unfold parseMessage. destruct (_ =? _)%nat; [discriminate|].
    intros Hthrow. apply map_throwing_throws in Hthrow as (x & _ & Hx).
    apply parse_event_throws in Hx as [-> | ->]; discriminate.
Qed.

(** An array of prices and a currency sign has none of the three shapes
    and is taken for an application event: the numbers are read with their
    fraction and their exponent, the escape as its code unit. *)
Lemma codec_accepts_any_json_shape_witness :
  parse_event ("[19.99,-1.5e2,0.0," +:+ String dquote ("\u20ac" +:+ String dquote "]")) =
    Return (mkPayload type_event
              (JArr [JNum (mkDecimal 1999 (-2)); JNum (mkDecimal (-150) 0);
                     JNum (mkDecimal 0 0); JStr [8364%N]])) /\
  (forall message e, parseMessage message = Throw e -> cls e <> ProtocolError).
Proof.
  apply (codec_accepts_any_json_shape
           ("[19.99,-1.5e2,0.0," +:+ String dquote ("\u20ac" +:+ String dquote "]"))).
  unfold is_keepalive. simpl. discriminate.
Defined.

(** C8 as stated fails: the sub-message [{}] is no keepalive, has no
    [session_id] and no [m]/[p], and the codec returns an event for it. *)
Lemma unknown_shape_is_not_a_ProtocolError :
  ~ is_keepalive "{}" /\ ~ has_session_id "{}" /\ ~ has_method_shape "{}" /\
  parseMessage "~m~2~m~{}" = Return [mkPayload type_event (JObj [])] /\
  ~ (exists e, parseMessage "~m~2~m~{}" = Throw e /\ instanceof e ProtocolError = true).
Proof.
  repeat split.
  - unfold is_keepalive. simpl. discriminate.
  - intros (props & Hparse & Hid). vm_compute in Hparse. injection Hparse as <-.
    now apply Hid.
  - intros (props & Hparse & Hm & _). vm_compute in Hparse. injection Hparse as <-.
    now apply Hm.
  - intros (e & He & _). vm_compute in He. discriminate.
Qed.

(** ** The orchestrators on a symbol error *)

Lemma shouldRequestMoreData_zero (amount : option Z) :
  CandleDataProcessor.shouldRequestMoreData 0 amount = false.
Proof. reflexivity. Qed.

Lemma slice_nil {A : Type} (start stop : Z) : slice (@nil A) start stop = [].
Proof. unfold slice. rewrite drop_nil. apply take_nil. Qed.

Lemma getProcessedCandles_empty (symbol : string) (amount : option Z)
    (states : gmap string SymbolState) (state : SymbolState) :
  states !! symbol = Some state -> candles state = [] ->
  SymbolStateManager.getProcessedCandles symbol amount states = [].
Proof.
  intros Hstate Hempty. unfold SymbolStateManager.getProcessedCandles.
  rewrite Hstate, Hempty. destruct (falsy_amount amount); [reflexivity|].
  now rewrite slice_nil.
Qed.

Lemma array_set_lookup {A : Type} (arr : list (option A)) (k : nat) (x : A) :
  array_set arr k x !! k = Some (Some x).
Proof.
  unfold array_set. destruct (Nat.ltb_spec k (length arr)) as [Hlt|Hge].
  - now apply list_lookup_insert_eq.
  - rewrite lookup_app_r by lia. rewrite lookup_app_r; rewrite length_replicate; [|lia].
    now replace (k - length arr - (k - length arr))%nat with 0%nat by lia.
Qed.

(** C4, as the code has it: a [symbol_error] event for a symbol with no
    accumulated bar does not reject the retrieval call.  The symbol
    terminates with an empty series (flagged as errored in the concurrent
    orchestrator and in its single-file copy), written where its result
    belongs, and the call stays pending or resolves with that result. *)
Theorem symbol_error_without_bars_yields_empty_series
    (params : GetCandlesParams) (randomId : string) (event : TradingviewEvent)
    (seq : Sequential.t) (conc : Concurrent.t)
    (sessionId symbol : string) (state : SymbolState) :
  name event = "symbol_error" ->
  Sequential.subscribed seq = true ->
  Sequential.promise seq = pending ->
  Sequential.currentSymCandles seq = [] ->
  Concurrent.subscribed conc = true ->
  Concurrent.promise conc = pending ->
  param_at event 0 = p_string sessionId ->
  sessionMap (Concurrent.mgr conc) !! sessionId = Some symbol ->
  symbol <> "" ->
  states (Concurrent.mgr conc) !! symbol = Some state ->
  completed state = false ->
  candles state = [] ->
  let seq' := Sequential.dispatch params randomId event seq in
  Sequential.allCandles seq' = Sequential.allCandles seq ++ [[]] /\
  (Sequential.promise seq' = pending \/
   Sequential.promise seq' = resolved (Sequential.allCandles seq ++ [[]])) /\
  ends_empty params symbol (Concurrent.dispatch params event conc) /\
  ends_empty params symbol (Legacy.dispatch params event conc).
Proof.
  intros Hname Hsub Hpending Hempty Hsubc Hpendingc Hid Hsession Hsym Hstate Hopen Hnone
         seq'.
  assert (Hseq : Sequential.allCandles seq' = Sequential.allCandles seq ++ [[]] /\
                 (Sequential.promise seq' = pending \/
                  Sequential.promise seq' = resolved (Sequential.allCandles seq ++ [[]]))).
  { subst seq'. unfold Sequential.dispatch, Sequential.subscriber, is_series_event.
    rewrite Hsub, Hname, Hempty, Hpending. simpl String.eqb. simpl orb. cbv iota.
    rewrite shouldRequestMoreData_zero. cbv iota.
    replace (if falsy_amount (amount params) then []
             else slice [] 0 (default 0%Z (amount params))) with (@nil RawCandle)
      by (destruct (falsy_amount _); [reflexivity|now rewrite slice_nil]).
    destruct (_ <? _)%nat; simpl; auto. }
  destruct Hseq as [Hall Hpromise]. split; [exact Hall|]. split; [exact Hpromise|].
  assert (Hno : no_symbol (Some symbol) = false) by (simpl; now apply String.eqb_neq).
  split; unfold ends_empty.
  - unfold Concurrent.dispatch, Concurrent.subscriber, is_series_event.
    rewrite Hsubc, Hname, Hid. simpl String.eqb. simpl orb. cbv iota.
    simpl ChartSessionManager.getSymbolForSession. rewrite Hsession, Hno.
    unfold CandleEventHandler.handleSeriesEvent.
    rewrite Hid. simpl ChartSessionManager.getSymbolForSession. rewrite Hsession, Hno.
    simpl default. unfold SymbolStateManager.getSymbolState.
    rewrite Hstate, Hopen, Hnone. simpl length. rewrite shouldRequestMoreData_zero.
    rewrite Hname. simpl String.eqb.
    set (states' := SymbolStateManager.markSymbolCompleted symbol true _).
    assert (Hstate' : states' !! symbol = Some (mkSymbolState [] true true)).
    { subst states'. unfold SymbolStateManager.markSymbolCompleted.
      rewrite Hstate, Hnone. apply lookup_insert_eq. }
    rewrite (getProcessedCandles_empty symbol _ states' _ Hstate' eq_refl).
    unfold Concurrent.onSymbolCompleted. cbn [fst snd andb].
    destruct (_ =? _)%nat; cbn [Concurrent.mgr Concurrent.results Concurrent.promise states];
      rewrite ?Hpendingc; (split; [exact Hstate'|]); (split; [|auto]);
      intros k ->; apply array_set_lookup.
  - unfold Legacy.dispatch, Legacy.subscriber, is_series_event.
    rewrite Hsubc, Hname, Hid. simpl String.eqb. simpl orb. cbv iota.
    simpl ChartSessionManager.getSymbolForSession. rewrite Hsession, Hno.
    simpl default. rewrite Hstate, Hopen, Hnone. simpl length.
    change (0 <? Z.of_nat 0)%Z with false. cbn [andb].
    replace (if falsy_amount (amount params) then []
             else slice [] 0 (default 0%Z (amount params))) with (@nil RawCandle)
      by (destruct (falsy_amount _); [reflexivity|now rewrite slice_nil]).
    cbn [CandleDataProcessor.processCandles map orb].
    destruct (_ =? _)%nat; cbn [Concurrent.mgr Concurrent.results Concurrent.promise states];
      rewrite ?Hpendingc; (split; [apply lookup_insert_eq|]); (split; [|auto]);
      intros k ->; apply array_set_lookup.
Qed.

(** A single symbol, an error event before any bar: both calls resolve. *)
Lemma symbol_error_without_bars_yields_empty_series_witness :
  let params := mkParams ["A"] None "60" in
  let event := mkEvent "symbol_error" [p_string "cs_A_r"] in
  let seq := Sequential.getCandles params "r" [] in
  let conc := Concurrent.getCandlesConcurrent params (fun _ => "r") [] in
  let seq' := Sequential.dispatch params "r" event seq in
  Sequential.allCandles seq' = Sequential.allCandles seq ++ [[]] /\
  (Sequential.promise seq' = pending \/
   Sequential.promise seq' = resolved (Sequential.allCandles seq ++ [[]])) /\
  ends_empty params "A" (Concurrent.dispatch params event conc) /\
  ends_empty params "A" (Legacy.dispatch params event conc).
Proof.
  intros params event seq conc.
  refine (symbol_error_without_bars_yields_empty_series
            params "r" event seq conc "cs_A_r" "A" (mkSymbolState [] false false)
            eq_refl eq_refl eq_refl eq_refl eq_refl eq_refl eq_refl _ _ _ eq_refl eq_refl).
  - vm_compute. reflexivity.
  - discriminate.
  - vm_compute. reflexivity.
Defined.

(** C4 as stated fails: with one symbol and a [symbol_error] event as the
    first event, the orchestrators resolve with an empty series instead of
    rejecting with a [DataError]. *)
Lemma symbol_error_without_bars_does_not_reject :
  let params := mkParams ["A"] None "60" in
  let seq :=
    Sequential.run params "r" [mkEvent "symbol_error" [p_string "cs_r"]]
      (Sequential.getCandles params "r" []) in
  let conc :=
    Concurrent.run params [mkEvent "symbol_error" [p_string "cs_A_r"]]
      (Concurrent.getCandlesConcurrent params (fun _ => "r") []) in
  let legacy :=
    Legacy.run params [mkEvent "symbol_error" [p_string "cs_A_r"]]
      (Legacy.getCandlesConcurrent params (fun _ => "r") []) in
  Sequential.promise seq = resolved [[]] /\
  Concurrent.promise conc = resolved [Some []] /\
  Concurrent.promise legacy = resolved [Some []] /\
  ~ (exists e, Sequential.promise seq = rejected e /\ instanceof e DataError = true) /\
  ~ (exists e, Concurrent.promise conc = rejected e /\ instanceof e DataError = true) /\
  ~ (exists e, Concurrent.promise legacy = rejected e /\ instanceof e DataError = true).
Proof.
  intros params seq conc legacy.
  assert (Hseq : Sequential.promise seq = resolved [[]]) by (vm_compute; reflexivity).
  assert (Hconc : Concurrent.promise conc = resolved [Some []]) by (vm_compute; reflexivity).
  assert (Hlegacy : Concurrent.promise legacy = resolved [Some []])
    by (vm_compute; reflexivity).
  split; [exact Hseq|]. split; [exact Hconc|]. split; [exact Hlegacy|].
  split; [|split].
  - intros (e & He & _). rewrite Hseq in He. discriminate.
  - intros (e & He & _). rewrite Hconc in He. discriminate.
  - intros (e & He & _). rewrite Hlegacy in He. discriminate.
Qed.

(** ** JSON: reading back what was printed *)

Lemma append_cons (c : ascii) (s t : string) : String c s +:+ t = String c (s +:+ t).
Proof. reflexivity. Qed.

Lemma append_empty (t : string) : "" +:+ t = t.
Proof. reflexivity. Qed.

Lemma append_assoc (s t u : string) : (s +:+ t) +:+ u = s +:+ (t +:+ u).
Proof.
  induction s as [|c s IH]; [reflexivity|]. rewrite !append_cons. now rewrite IH.
Qed.

Lemma length_append (s t : string) :
  String.length (s +:+ t) = (String.length s + String.length t)%nat.
Proof.
  induction s as [|c s IH]; [reflexivity|]. rewrite append_cons. simpl. now rewrite IH.
Qed.

(** One escaped character is read back as the character. *)
Lemma parse_chars_escape_char (c : ascii) (t : string) :
  parse_chars (escape_char c +:+ t) =
  match parse_chars t with
  | Some (u, rest) => Some (N_of_ascii c :: u, rest)
  | None => None
  end.
Proof.
  destruct c as [[] [] [] [] [] [] [] []]; reflexivity.
Qed.

Lemma parse_chars_escape_chars (s rest : string) :
  parse_chars (escape_chars s +:+ String dquote rest) = Some (units s, rest).
Proof.
  induction s as [|c s IH].
  - reflexivity.
  - cbn [escape_chars]. rewrite append_assoc, parse_chars_escape_char, IH. reflexivity.
Qed.

Lemma parse_digits_stop (rest : string) :
  follows_value rest = true -> parse_digits rest = (Nil, rest).
Proof.
  destruct rest as [|c rest]; [reflexivity|]. simpl. intros Hc.
  destruct (digit_of_char c) eqn:Hd; [|reflexivity].
  destruct c as [[] [] [] [] [] [] [] []]; simpl in *; discriminate.
Qed.

Lemma parse_digits_prefix (d : uint) (rest : string) :
  parse_digits rest = (Nil, rest) ->
  parse_digits (string_of_uint d +:+ rest) = (d, rest).
Proof.
  intros Hrest. induction d; cbn [string_of_uint];
    rewrite ?append_cons; cbn [parse_digits digit_of_char]; rewrite ?IHd; try reflexivity.
  now rewrite append_empty.
Qed.

Lemma parse_digits_string_of_uint (d : uint) (rest : string) :
  follows_value rest = true ->
  parse_digits (string_of_uint d +:+ rest) = (d, rest).
Proof. intros Hrest. now apply parse_digits_prefix, parse_digits_stop. Qed.

Lemma parse_fraction_follows (rest : string) :
  follows_value rest = true -> parse_fraction rest = Some (Nil, rest).
Proof.
  destruct rest as [|c rest]; [reflexivity|]. simpl.
  destruct c as [[] [] [] [] [] [] [] []]; simpl; try reflexivity; discriminate.
Qed.

Lemma parse_exponent_follows (rest : string) :
  follows_value rest = true -> parse_exponent rest = Some (0%Z, rest).
Proof.
  destruct rest as [|c rest]; [reflexivity|]. simpl.
  destruct c as [[] [] [] [] [] [] [] []]; simpl; try reflexivity; discriminate.
Qed.

(** The decimal digits of a positive number do not start with a zero. *)
Lemma to_uint_head (p : positive) :
  match Pos.to_uint p with
  | Nil | D0 _ => False
  | _ => True
  end.
Proof.
  pose proof (DecimalPos.Unsigned.to_uint_nonnil p) as Hnil.
  pose proof (DecimalPos.Unsigned.of_to p) as Hof.
  pose proof (DecimalPos.Unsigned.to_of (Pos.to_uint p)) as Hto.
  rewrite Hof in Hto. simpl in Hto.
  destruct (Pos.to_uint p) as [|d| | | | | | | | |] eqn:Hp; try exact I; [congruence|].
  rewrite unorm_D0 in Hto.
  assert (Hlen : Nat.le (nb_digits (unorm d)) (nb_digits d)).
  { destruct d; [|apply nb_digits_unorm; discriminate..].
    now destruct (DecimalPos.Unsigned.to_uint_nonzero p). }
  rewrite <- Hto in Hlen. simpl in Hlen. lia.
Qed.

Lemma parse_int_part_to_uint (p : positive) (rest : string) :
  follows_value rest = true ->
  parse_int_part (string_of_uint (Pos.to_uint p) +:+ rest) = Some (Pos.to_uint p, rest).
Proof.
  intros Hrest. pose proof (to_uint_head p) as Hhead.
  pose proof (parse_digits_string_of_uint (Pos.to_uint p) rest Hrest) as Hdigits.
  destruct (Pos.to_uint p) as [|d|d|d|d|d|d|d|d|d|d]; try contradiction;
    cbn [string_of_uint] in *; rewrite append_cons in *;
    cbn [parse_int_part is_digit]; rewrite Hdigits; reflexivity.
Qed.

Lemma string_of_uint_head (d : uint) (s : string) :
  match string_of_uint d +:+ s with
  | String c _ => d = Nil \/ is_digit c = true
  | EmptyString => True
  end.
Proof.
  destruct d; cbn [string_of_uint]; rewrite ?append_cons; simpl; auto.
  rewrite append_empty. destruct s; auto.
Qed.

(** An integer is its own value: no zero is stripped from it. *)
Lemma decimal_of_integer (n : Z) : decimal_of n 0 = mkDecimal n 0.
Proof.
  unfold decimal_of. destruct (Z.eqb_spec n 0) as [->|_]; [reflexivity|].
  change (0 <=? 0)%Z with true. cbv iota. now rewrite Z.pow_0_r, Z.mul_1_r.
Qed.

Lemma parse_unsigned_to_uint (negative : bool) (p : positive) (rest : string) :
  follows_value rest = true ->
  parse_unsigned negative (string_of_uint (Pos.to_uint p) +:+ rest) =
  Some (JNum (mkDecimal (if negative then Z.neg p else Z.pos p) 0), rest).
Proof.
  intros Hrest. unfold parse_unsigned.
  rewrite (parse_int_part_to_uint p rest Hrest), (parse_fraction_follows rest Hrest),
    (parse_exponent_follows rest Hrest).
  cbv zeta. rewrite DecimalFacts.app_nil_r. cbn [nb_digits Z.of_nat Z.sub Z.opp].
  pose proof (DecimalZ.of_to (Z.pos p)) as Hn. cbn [Z.to_int Z.of_int] in Hn. rewrite Hn.
  destruct negative; cbn [Z.opp]; now rewrite decimal_of_integer.
Qed.

Lemma parse_number_string_of_Z (n : Z) (rest : string) :
  follows_value rest = true ->
  parse_number (string_of_Z n +:+ rest) = Some (JNum (mkDecimal n 0), rest).
Proof.
  intros Hrest. unfold string_of_Z.
  destruct n as [|p|p]; cbn [Z.to_int] in *.
  - cbn [string_of_uint]. rewrite !append_cons, append_empty.
    cbn [parse_number]. unfold parse_unsigned. cbn [parse_int_part].
    rewrite (parse_fraction_follows rest Hrest), (parse_exponent_follows rest Hrest).
    reflexivity.
  - pose proof (parse_unsigned_to_uint false p rest Hrest) as Hint.
    pose proof (to_uint_head p) as Hhead.
    unfold parse_number.
    destruct (string_of_uint (Pos.to_uint p) +:+ rest) as [|c s] eqn:Htext;
      [discriminate Hint|].
    assert (Hc : c <> "-"%char).
    { pose proof (string_of_uint_head (Pos.to_uint p) rest) as Hd. rewrite Htext in Hd.
      destruct Hd as [Hd|Hd]; [rewrite Hd in Hhead; contradiction|].
      intros ->. discriminate Hd. }
    destruct c as [[] [] [] [] [] [] [] []]; try (now destruct Hc); exact Hint.
  - rewrite append_cons. cbn [parse_number].
    now rewrite (parse_unsigned_to_uint true p rest Hrest).
Qed.

Lemma value_ind' (P : value -> Prop) :
  P JNull -> (forall b, P (JBool b)) -> (forall n, P (JNum n)) -> (forall s, P (JStr s)) ->
  (forall items, Forall P items -> P (JArr items)) ->
  (forall props, Forall (fun kv => P (snd kv)) props -> P (JObj props)) ->
  forall v, P v.
Proof.
  intros Hnull Hbool Hnum Hstr Harr Hobj. fix IH 1. intros [|b|n|s|items|props].
  - exact Hnull.
  - apply Hbool.
  - apply Hnum.
  - apply Hstr.
  - apply Harr. induction items as [|x items IHitems]; constructor; [apply IH|exact IHitems].
  - apply Hobj. induction props as [|kv props IHprops]; constructor; [apply IH|exact IHprops].
Qed.

Lemma string_of_Z_head (n : Z) (t : string) :
  exists c s, string_of_Z n +:+ t = String c s /\ is_value_head c = true.
Proof.
  unfold string_of_Z. destruct n as [|p|p]; cbn [Z.to_int].
  - eexists _, _. split; reflexivity.
  - pose proof (to_uint_head p) as Hhead.
    pose proof (string_of_uint_head (Pos.to_uint p) t) as Hd.
    destruct (Pos.to_uint p) as [|d|d|d|d|d|d|d|d|d|d]; try contradiction;
      cbn [string_of_uint]; rewrite append_cons; eexists _, _; split; reflexivity.
  - rewrite append_cons. eexists _, _. split; reflexivity.
Qed.

Lemma stringify_head (v : value) (t : string) :
  exists c s, stringify v +:+ t = String c s /\ is_value_head c = true.
Proof.
  destruct v as [|[]|n|s|items|props]; try (eexists _, _; split; reflexivity).
  apply string_of_Z_head.
Qed.

Lemma value_head_not_ws (c : ascii) : is_value_head c = true -> is_ws c = false.
Proof. destruct c as [[] [] [] [] [] [] [] []]; vm_compute; congruence. Qed.

Lemma skip_ws_head (c : ascii) (s : string) :
  is_ws c = false -> skip_ws (String c s) = String c s.
Proof. intros Hc. simpl. now rewrite Hc. Qed.

Lemma match_closing_bracket {T : Type} (c : ascii) (s : string) (A : string -> T) (B : T) :
  is_value_head c = true ->
  match String c s with String "]" r => A r | _ => B end = B.
Proof.
  destruct c as [[] [] [] [] [] [] [] []]; intros Hc; try reflexivity;
    vm_compute in Hc; discriminate.
Qed.

Lemma match_closing_brace {T : Type} (c : ascii) (s : string) (A : string -> T) (B : T) :
  is_value_head c = true ->
  match String c s with String "}" r => A r | _ => B end = B.
Proof.
  destruct c as [[] [] [] [] [] [] [] []]; intros Hc; try reflexivity;
    vm_compute in Hc; discriminate.
Qed.

Lemma parse_value_number (fuel : nat) (c : ascii) (s : string) :
  is_digit c = true \/ c = "-"%char ->
  parse_value (S fuel) (String c s) = parse_number (String c s).
Proof.
  intros [Hc| ->]; [|reflexivity].
  destruct c as [[] [] [] [] [] [] [] []]; try discriminate Hc; reflexivity.
Qed.

Lemma string_of_Z_number_head (n : Z) (t : string) :
  exists c s, string_of_Z n +:+ t = String c s /\ (is_digit c = true \/ c = "-"%char).
Proof.
  unfold string_of_Z. destruct n as [|p|p]; cbn [Z.to_int].
  - eexists _, _. split; [reflexivity|now left].
  - pose proof (to_uint_head p) as Hhead.
    destruct (Pos.to_uint p) as [|d|d|d|d|d|d|d|d|d|d]; try contradiction;
      cbn [string_of_uint]; rewrite append_cons; eexists _, _; (split; [reflexivity|now left]).
  - rewrite append_cons. eexists _, _. split; [reflexivity|now right].
Qed.

Lemma parse_elems_join (items : list value) :
  Forall reads_back items -> items <> [] ->
  forall fuel rest,
    (size_items items <= fuel)%nat -> follows_value rest = true ->
    parse_elems fuel (join_items "]" (map stringify items) +:+ rest) =
      Some (map of_value items, rest).
Proof.
  induction 1 as [|x items Hx Hitems IH]; [congruence|]. intros _ fuel rest Hfuel Hrest.
  cbn [size_items foldr] in Hfuel. fold (size_items items) in Hfuel.
  destruct fuel as [|fuel]; [lia|]. cbn [parse_elems].
  destruct items as [|y items].
  - cbn [map join_items]. rewrite append_assoc. change (str1 "]" +:+ rest) with (String "]" rest).
    rewrite (Hx fuel (String "]" rest)) by (reflexivity || lia). reflexivity.
  - change (map stringify (x :: y :: items))
      with (stringify x :: map stringify (y :: items)).
    change (join_items "]" (stringify x :: map stringify (y :: items)))
      with (stringify x +:+ String "," (join_items "]" (map stringify (y :: items)))).
    rewrite append_assoc, append_cons.
    rewrite (Hx fuel) by (reflexivity || lia). cbn [skip_ws is_ws].
    rewrite IH; [reflexivity|discriminate|lia|exact Hrest].
Qed.

Lemma quote_append (k rest : string) :
  quote k +:+ rest = String dquote (escape_chars k +:+ String dquote rest).
Proof. unfold quote. rewrite append_cons, append_assoc. reflexivity. Qed.

Lemma skip_ws_quote (s : string) : skip_ws (String dquote s) = String dquote s.
Proof. reflexivity. Qed.

Ltac str_norm :=
  unfold print_member, quote, str1; cbn [fst snd];
  repeat (rewrite ?append_assoc, ?append_cons, ?append_empty).

Lemma parse_members_join (props : list (string * value)) :
  Forall (fun kv => reads_back (snd kv)) props -> props <> [] ->
  forall fuel rest,
    (size_props props <= fuel)%nat -> follows_value rest = true ->
    parse_members fuel (join_items "}" (map print_member props) +:+ rest) =
      Some (map of_member props, rest).
Proof.
  induction 1 as [|[k x] props Hx Hprops IH]; [congruence|]. intros _ fuel rest Hfuel Hrest.
  cbn [size_props foldr snd] in Hfuel. fold (size_props props) in Hfuel.
  simpl in Hx. destruct fuel as [|fuel]; [lia|].
  destruct props as [|kv props].
  - cbn [map join_items]. str_norm.
    cbn [parse_members]. rewrite skip_ws_quote.
    change (Ascii.eqb dquote dquote) with true. cbv iota.
    rewrite parse_chars_escape_chars. cbn [skip_ws is_ws].
    rewrite (Hx fuel (String "}" rest)) by (reflexivity || lia). reflexivity.
  - change (map print_member ((k, x) :: kv :: props))
      with (print_member (k, x) :: map print_member (kv :: props)).
    change (join_items "}" (print_member (k, x) :: map print_member (kv :: props)))
      with (print_member (k, x) +:+ String "," (join_items "}" (map print_member (kv :: props)))).
    unfold print_member at 1. str_norm.
    cbn [parse_members]. rewrite skip_ws_quote.
    change (Ascii.eqb dquote dquote) with true. cbv iota.
    rewrite parse_chars_escape_chars. cbn [skip_ws is_ws].
    rewrite (Hx fuel) by (reflexivity || lia). cbn [skip_ws is_ws].
    rewrite IH; [reflexivity|discriminate|lia|exact Hrest].
Qed.

Lemma stringify_JObj (props : list (string * value)) :
  stringify (JObj props) = String "{" (join_items "}" (map print_member props)).
Proof. reflexivity. Qed.

Lemma join_items_head (close : ascii) (x : string) (rest : list string) (t : string) :
  exists u, join_items close (x :: rest) +:+ t = x +:+ u.
Proof.
  destruct rest as [|y rest]; cbn [join_items]; rewrite append_assoc; eauto.
Qed.

Lemma join_members_head (kv : string * value) (rest : list string) (t : string) :
  exists u, join_items "}" (print_member kv :: rest) +:+ t = String dquote u.
Proof.
  destruct (join_items_head "}" (print_member kv) rest t) as [u ->].
  unfold print_member, quote. rewrite !append_cons. eauto.
Qed.

(** Every value is read back from its text, whatever follows it inside a
    printed value, given fuel for its size. *)
Lemma parse_value_stringify (v : value) : reads_back v.
Proof.
  induction v as [|b|n|s|items IH|props IH] using value_ind'; intros fuel rest Hfuel Hrest;
    (destruct fuel as [|fuel]; [cbn [size] in Hfuel; lia|]).
  - reflexivity.
  - destruct b; reflexivity.
  - cbn [stringify].
    destruct (string_of_Z_number_head n rest) as (c & s & Htext & Hc).
    rewrite Htext, (parse_value_number fuel c s Hc), <- Htext.
    now apply parse_number_string_of_Z.
  - cbn [stringify]. rewrite quote_append.
    change (parse_value (S fuel) (String dquote ?r))
      with (match parse_chars r with
            | Some (t, rest') => Some (JStr t : parsed, rest')
            | None => None
            end).
    now rewrite parse_chars_escape_chars.
  - cbn [stringify size] in *. fold (size_items items) in Hfuel. rewrite append_cons.
    cbn [parse_value skip_ws is_ws].
    destruct items as [|x items].
    + reflexivity.
    + destruct (join_items_head "]" (stringify x) (map stringify items) rest) as [u Hu].
      change (map stringify (x :: items)) with (stringify x :: map stringify items).
      destruct (stringify_head x u) as (c & s & Htext & Hc).
      pose proof Hu as Hu'. rewrite Htext in Hu'. rewrite Hu' at 1.
      rewrite (skip_ws_head c s (value_head_not_ws c Hc)). cbv beta iota.
      rewrite (match_closing_bracket c s (fun r => Some (JArr [] : parsed, r)) _ Hc).
      change (stringify x :: map stringify items) with (map stringify (x :: items)).
      rewrite (parse_elems_join (x :: items) IH); [reflexivity|discriminate|lia|exact Hrest].
  - rewrite stringify_JObj. cbn [size] in *. fold (size_props props) in Hfuel.
    rewrite append_cons. cbn [parse_value skip_ws is_ws].
    destruct props as [|[k x] props].
    + reflexivity.
    + destruct (join_members_head (k, x) (map print_member props) rest) as [u Hu].
      change (map print_member ((k, x) :: props))
        with (print_member (k, x) :: map print_member props).
      rewrite Hu at 1. rewrite skip_ws_quote. cbv beta iota.
      rewrite (match_closing_brace dquote _ (fun r => Some (JObj [] : parsed, r)) _ eq_refl).
      change (print_member (k, x) :: map print_member props)
        with (map print_member ((k, x) :: props)).
      rewrite (parse_members_join ((k, x) :: props) IH); [reflexivity|discriminate|lia|exact Hrest].
Qed.

Lemma append_empty_r (s : string) : s +:+ "" = s.
Proof. induction s as [|c s IH]; [reflexivity|]. rewrite append_cons. now rewrite IH. Qed.

Lemma stringify_nonempty (v : value) : (1 <= String.length (stringify v))%nat.
Proof.
  destruct (stringify_head v "") as (c & s & Htext & _).
  rewrite append_empty_r in Htext. rewrite Htext. simpl. lia.
Qed.

Lemma size_items_le_length (items : list value) :
  Forall (fun x => (size x <= String.length (stringify x))%nat) items ->
  (size_items items <= String.length (join_items "]" (map stringify items)))%nat.
Proof.
  induction 1 as [|x items Hx Hitems IH]; [simpl; lia|].
  cbn [size_items foldr]. fold (size_items items).
  destruct items as [|y items].
  - cbn [map join_items]. rewrite length_append. simpl. lia.
  - change (map stringify (x :: y :: items))
      with (stringify x :: map stringify (y :: items)).
    change (join_items "]" (stringify x :: map stringify (y :: items)))
      with (stringify x +:+ String "," (join_items "]" (map stringify (y :: items)))).
    rewrite length_append. cbn [String.length]. lia.
Qed.

Lemma size_props_le_length (props : list (string * value)) :
  Forall (fun kv => (size (snd kv) <= String.length (stringify (snd kv)))%nat) props ->
  (size_props props <= String.length (join_items "}" (map print_member props)))%nat.
Proof.
  induction 1 as [|[k x] props Hx Hprops IH]; [simpl; lia|].
  cbn [size_props foldr snd] in *. fold (size_props props).
  assert (Hmember : (S (String.length (stringify x)) <= String.length (print_member (k, x)))%nat).
  { unfold print_member. cbn [fst snd]. rewrite length_append. simpl. lia. }
  destruct props as [|kv props].
  - cbn [map join_items]. rewrite length_append.
    change (String.length (str1 "}")) with 1%nat. change (size_props []) with 0%nat. lia.
  - change (map print_member ((k, x) :: kv :: props))
      with (print_member (k, x) :: map print_member (kv :: props)).
    change (join_items "}" (print_member (k, x) :: map print_member (kv :: props)))
      with (print_member (k, x) +:+ String "," (join_items "}" (map print_member (kv :: props)))).
    rewrite length_append. cbn [String.length]. lia.
Qed.

Lemma size_le_length (v : value) : (size v <= String.length (stringify v))%nat.
Proof.
  induction v as [|b|n|s|items IH|props IH] using value_ind';
    try (cbn [size]; apply stringify_nonempty).
  - cbn [size stringify String.length]. fold (size_items items).
    apply le_n_S. now apply size_items_le_length.
  - rewrite stringify_JObj. cbn [size String.length]. fold (size_props props).
    apply le_n_S. now apply size_props_le_length.
Qed.

(** [JSON.parse(JSON.stringify(v))] is [v]. *)
Lemma JSON_parse_stringify (v : value) :
  JSON_parse (JSON_stringify v) = Some (of_value v).
Proof.
  unfold JSON_parse, JSON_stringify.
  rewrite <- (append_empty_r (stringify v)) at 2.
  rewrite parse_value_stringify; [reflexivity| |reflexivity].
  pose proof (size_le_length v). lia.
Qed.

(** *** What is read back, seen from the code *)

Lemma N_of_ascii_eqb (a b : ascii) : (N_of_ascii a =? N_of_ascii b)%N = Ascii.eqb a b.
Proof.
  destruct (Ascii.eqb_spec a b) as [->|Hne]; [apply N.eqb_refl|].
  apply N.eqb_neq. intros Heq. apply Hne.
  rewrite <- (ascii_N_embedding a), <- (ascii_N_embedding b). now rewrite Heq.
Qed.

Lemma spells_units (s name : string) : spells (units s) name = String.eqb s name.
Proof.
  revert name. induction s as [|c s IH]; intros [|d name]; try reflexivity.
  cbn [units spells String.eqb]. rewrite N_of_ascii_eqb, IH.
  now destruct (Ascii.eqb c d).
Qed.

Lemma text_of_units (s : string) : text_of (units s) = s.
Proof.
  induction s as [|c s IH]; [reflexivity|].
  cbn [units text_of]. now rewrite ascii_N_embedding, IH.
Qed.

Lemma assoc_last_of_value (k : string) (props : list (string * value)) :
  assoc_last k (map of_member props) = of_value <$> assoc_last k props.
Proof.
  induction props as [|[k' v] props IH]; [reflexivity|].
  cbn [map of_member fst snd assoc_last]. rewrite IH.
  destruct (assoc_last k props); [reflexivity|].
  cbn [fmap option_fmap option_map is_name parsed_leaves value_leaves].
  rewrite spells_units. now destruct (String.eqb k' k).
Qed.

Lemma get_prop_of_value (v : value) (k : string) :
  get_prop (of_value v) k = of_value <$> get_prop v k.
Proof.
  destruct v; try reflexivity. cbn [of_value get_prop]. apply assoc_last_of_value.
Qed.

(** A value is truthy or not as what is read back from its text is. *)
Lemma truthy_of_value (o : option value) : truthy (of_value <$> o) = truthy o.
Proof.
  destruct o as [[|b|n|s|items|props]|]; try reflexivity.
  now destruct s.
Qed.

(** *** The fuel of the parser is never short *)

Lemma skip_ws_length (s : string) : (String.length (skip_ws s) <= String.length s)%nat.
Proof.
  induction s as [|c s IH]; [reflexivity|]. cbn [skip_ws].
  destruct (is_ws c); cbn [String.length]; lia.
Qed.

Lemma parse_chars_shorter (s : string) (u : list N) (rest : string) :
  parse_chars s = Some (u, rest) -> (String.length rest < String.length s)%nat.
Proof.
  remember (String.length s) as n eqn:Hn. revert s u rest Hn.
  induction n as [n IH] using lt_wf_ind. intros s u rest -> Hparse.
  destruct s as [|c s]; [discriminate|]. cbn [parse_chars] in Hparse.
  assert (Hstep : forall (x : N) (r : string),
            (String.length r < String.length (String c s))%nat ->
            match parse_chars r with
            | Some (t, rest') => Some (x :: t, rest')
            | None => None
            end = Some (u, rest) ->
            (String.length rest < String.length (String c s))%nat).
  { intros x r Hr Hcont. destruct (parse_chars r) as [[t rest']|] eqn:Hrec; [|discriminate].
    injection Hcont as _ <-. pose proof (IH _ Hr r t rest' eq_refl Hrec). lia. }
  destruct (Ascii.eqb c dquote).
  { injection Hparse as _ <-. cbn [String.length]. lia. }
  destruct (Ascii.eqb c backslash).
  - destruct s as [|e s]; [discriminate|]. cbv zeta in Hparse.
    repeat (match type of Hparse with
            | (if ?b then _ else _) = _ =>
                destruct b; [(eapply Hstep; [|exact Hparse]; cbn [String.length]; lia)|]
            end).
    destruct (Ascii.eqb e "u"); [|discriminate].
    destruct s as [|h1 [|h2 [|h3 [|h4 r]]]]; try discriminate.
    destruct (unicode_escape h1 h2 h3 h4); [|discriminate].
    (eapply Hstep; [|exact Hparse]; cbn [String.length]; lia).
  - destruct (N_of_ascii c <? 32)%N; [discriminate|].
    (eapply Hstep; [|exact Hparse]; cbn [String.length]; lia).
Qed.

Lemma parse_digits_shorter (s : string) :
  (String.length (snd (parse_digits s)) <= String.length s)%nat.
Proof.
  induction s as [|c s IH]; [reflexivity|]. cbn [parse_digits].
  destruct (digit_of_char c); [|reflexivity].
  destruct (parse_digits s) as [d rest]. simpl in *. lia.
Qed.

Lemma parse_digits1_shorter (s : string) (d : uint) (rest : string) :
  parse_digits1 s = Some (d, rest) -> (String.length rest <= String.length s)%nat.
Proof.
  unfold parse_digits1. pose proof (parse_digits_shorter s) as Hlen.
  destruct (parse_digits s) as [d' rest']. cbn [snd] in Hlen.
  destruct d'; try discriminate; intros [= _ <-]; exact Hlen.
Qed.

Lemma parse_int_part_shorter (s : string) (d : uint) (rest : string) :
  parse_int_part s = Some (d, rest) -> (String.length rest < String.length s)%nat.
Proof.
  destruct s as [|c s]; [discriminate|].
  pose proof (parse_digits_shorter s) as Hlen.
  destruct c as [[] [] [] [] [] [] [] []]; cbn [parse_int_part is_digit]; try discriminate;
    cbn [parse_digits digit_of_char]; destruct (parse_digits s) as [d' rest'];
    cbn [snd] in Hlen; intros [= _ <-]; cbn [String.length]; lia.
Qed.

Lemma parse_fraction_shorter (s : string) (d : uint) (rest : string) :
  parse_fraction s = Some (d, rest) -> (String.length rest <= String.length s)%nat.
Proof.
  destruct s as [|c s]; [intros [= _ <-]; reflexivity|].
  destruct c as [[] [] [] [] [] [] [] []]; cbn [parse_fraction];
    try (intros [= _ <-]; reflexivity).
  intros Hdigits. apply parse_digits1_shorter in Hdigits. cbn [String.length]. lia.
Qed.

Lemma parse_exponent_digits_shorter (negative : bool) (s : string) (e : Z) (rest : string) :
  parse_exponent_digits negative s = Some (e, rest) ->
  (String.length rest <= String.length s)%nat.
Proof.
  unfold parse_exponent_digits.
  destruct (parse_digits1 s) as [[d rest']|] eqn:Hdigits; [|discriminate].
  intros [= _ <-]. now apply parse_digits1_shorter in Hdigits.
Qed.

Lemma parse_exponent_shorter (s : string) (e : Z) (rest : string) :
  parse_exponent s = Some (e, rest) -> (String.length rest <= String.length s)%nat.
Proof.
  destruct s as [|c s]; [intros [= _ <-]; reflexivity|]. cbn [parse_exponent].
  destruct (Ascii.eqb c "e" || Ascii.eqb c "E"); [|intros [= _ <-]; reflexivity].
  destruct s as [|c' s].
  - intros Hdigits. apply parse_exponent_digits_shorter in Hdigits. cbn [String.length] in *. lia.
  - destruct c' as [[] [] [] [] [] [] [] []]; intros Hdigits;
      apply parse_exponent_digits_shorter in Hdigits; cbn [String.length] in *; lia.
Qed.

Lemma parse_unsigned_shorter (negative : bool) (s : string) (v : parsed) (rest : string) :
  parse_unsigned negative s = Some (v, rest) -> (String.length rest < String.length s)%nat.
Proof.
  unfold parse_unsigned.
  destruct (parse_int_part s) as [[int s1]|] eqn:Hint; [|discriminate].
  destruct (parse_fraction s1) as [[frac s2]|] eqn:Hfrac; [|discriminate].
  destruct (parse_exponent s2) as [[exp s3]|] eqn:Hexp; [|discriminate].
  intros [= _ <-].
  apply parse_int_part_shorter in Hint. apply parse_fraction_shorter in Hfrac.
  apply parse_exponent_shorter in Hexp. lia.
Qed.

Lemma parse_number_shorter (s : string) (v : parsed) (rest : string) :
  parse_number s = Some (v, rest) -> (String.length rest < String.length s)%nat.
Proof.
  destruct s as [|c s]; [discriminate|].
  destruct c as [[] [] [] [] [] [] [] []]; cbn [parse_number]; intros Hparse;
    apply parse_unsigned_shorter in Hparse; cbn [String.length] in *; lia.
Qed.

Lemma parse_value_empty (fuel : nat) (s : string) :
  skip_ws s = EmptyString -> parse_value fuel s = None.
Proof. intros Hs. destruct fuel; [reflexivity|]. cbn [parse_value]. now rewrite Hs. Qed.

Lemma parse_value_array (fuel : nat) (s rest : string) :
  skip_ws s = String "[" rest ->
  parse_value (S fuel) s =
  match skip_ws rest with
  | String "]" rest' => Some (JArr [], rest')
  | _ =>
      match parse_elems fuel rest with
      | Some (l, rest') => Some (JArr l, rest')
      | None => None
      end
  end.
Proof. intros Hs. cbn [parse_value]. now rewrite Hs. Qed.

Lemma parse_value_object (fuel : nat) (s rest : string) :
  skip_ws s = String "{" rest ->
  parse_value (S fuel) s =
  match skip_ws rest with
  | String "}" rest' => Some (JObj [], rest')
  | _ =>
      match parse_members fuel rest with
      | Some (l, rest') => Some (JObj l, rest')
      | None => None
      end
  end.
Proof. intros Hs. cbn [parse_value]. now rewrite Hs. Qed.

(** A value that is neither an array nor an object is read without a
    recursive call. *)
Lemma parse_value_leaf (fuel : nat) (s : string) (c : ascii) (t : string) :
  skip_ws s = String c t -> c <> "["%char -> c <> "{"%char ->
  parse_value (S fuel) s = parse_value 1 s.
Proof.
  intros Hs Harr Hobj. cbn [parse_value]. rewrite Hs.
  destruct c as [[] [] [] [] [] [] [] []]; try reflexivity; congruence.
Qed.

Lemma starts_or_not (c : ascii) (s : string) :
  (exists r, s = String c r) \/ (forall r, s <> String c r).
Proof.
  destruct s as [|c' r]; [right; discriminate|].
  destruct (Ascii.eqb_spec c' c) as [->|Hne]; [left; eauto|right; congruence].
Qed.

Lemma match_other_bracket {T : Type} (s : string) (A : string -> T) (B : T) :
  (forall r, s <> String "]" r) ->
  match s with String "]" r => A r | _ => B end = B.
Proof.
  destruct s as [|c t]; [reflexivity|]. intros Hc.
  destruct c as [[] [] [] [] [] [] [] []]; first [reflexivity | now destruct (Hc t)].
Qed.

Lemma match_other_brace {T : Type} (s : string) (A : string -> T) (B : T) :
  (forall r, s <> String "}" r) ->
  match s with String "}" r => A r | _ => B end = B.
Proof.
  destruct s as [|c t]; [reflexivity|]. intros Hc.
  destruct c as [[] [] [] [] [] [] [] []]; first [reflexivity | now destruct (Hc t)].
Qed.

Lemma match_other_colon {T : Type} (s : string) (A : string -> T) (B : T) :
  (forall r, s <> String ":" r) ->
  match s with String ":" r => A r | _ => B end = B.
Proof.
  destruct s as [|c t]; [reflexivity|]. intros Hc.
  destruct c as [[] [] [] [] [] [] [] []]; first [reflexivity | now destruct (Hc t)].
Qed.

Lemma match_other_separator {T : Type} (s : string) (A B : string -> T) (C : T) :
  (forall r, s <> String "," r) -> (forall r, s <> String "]" r) ->
  match s with String "," r => A r | String "]" r => B r | _ => C end = C.
Proof.
  destruct s as [|c t]; [reflexivity|]. intros Hcomma Hclose.
  destruct c as [[] [] [] [] [] [] [] []];
    first [reflexivity | now destruct (Hcomma t) | now destruct (Hclose t)].
Qed.

Lemma match_other_member_separator {T : Type} (s : string) (A B : string -> T) (C : T) :
  (forall r, s <> String "," r) -> (forall r, s <> String "}" r) ->
  match s with String "," r => A r | String "}" r => B r | _ => C end = C.
Proof.
  destruct s as [|c t]; [reflexivity|]. intros Hcomma Hclose.
  destruct c as [[] [] [] [] [] [] [] []];
    first [reflexivity | now destruct (Hcomma t) | now destruct (Hclose t)].
Qed.

Ltac leaf_case :=
  first
    [ left; reflexivity
    | right; left; reflexivity
    | right; right; left; reflexivity
    | right; right; right; eexists _, _; split; [reflexivity|cbn [String.length]; lia] ].

(** What [parse_value] does without fuel for a recursive call: it fails,
    reads a number, reads a string, or reads a literal or an empty array or
    object. *)
Lemma parse_leaf_cases (s : string) (c : ascii) (t : string) :
  skip_ws s = String c t ->
  parse_value 1 s = None \/
  parse_value 1 s = parse_number (String c t) \/
  parse_value 1 s =
    match parse_chars t with
    | Some (u, r) => Some (JStr u : parsed, r)
    | None => None
    end \/
  exists v r, parse_value 1 s = Some (v, r) /\
              (String.length r < String.length (String c t))%nat.
Proof.
  intros Hs. cbn [parse_value parse_elems parse_members]. rewrite Hs.
  pose proof (skip_ws_length t) as Hws.
  destruct c as [[] [] [] [] [] [] [] []]; try leaf_case.
  - (* { *)
    destruct (skip_ws t) as [|c2 t2]; [leaf_case|]. cbn [String.length] in Hws.
    destruct c2 as [[] [] [] [] [] [] [] []]; leaf_case.
  - (* [ *)
    destruct (skip_ws t) as [|c2 t2]; [leaf_case|]. cbn [String.length] in Hws.
    destruct c2 as [[] [] [] [] [] [] [] []]; leaf_case.
  - (* n *)
    destruct t as [|c2 t]; [leaf_case|]. destruct c2 as [[] [] [] [] [] [] [] []]; try leaf_case.
    destruct t as [|c3 t]; [leaf_case|]. destruct c3 as [[] [] [] [] [] [] [] []]; try leaf_case.
    destruct t as [|c4 t]; [leaf_case|]. destruct c4 as [[] [] [] [] [] [] [] []]; leaf_case.
  - (* f *)
    destruct t as [|c2 t]; [leaf_case|]. destruct c2 as [[] [] [] [] [] [] [] []]; try leaf_case.
    destruct t as [|c3 t]; [leaf_case|]. destruct c3 as [[] [] [] [] [] [] [] []]; try leaf_case.
    destruct t as [|c4 t]; [leaf_case|]. destruct c4 as [[] [] [] [] [] [] [] []]; try leaf_case.
    destruct t as [|c5 t]; [leaf_case|]. destruct c5 as [[] [] [] [] [] [] [] []]; leaf_case.
  - (* t *)
    destruct t as [|c2 t]; [leaf_case|]. destruct c2 as [[] [] [] [] [] [] [] []]; try leaf_case.
    destruct t as [|c3 t]; [leaf_case|]. destruct c3 as [[] [] [] [] [] [] [] []]; try leaf_case.
    destruct t as [|c4 t]; [leaf_case|]. destruct c4 as [[] [] [] [] [] [] [] []]; leaf_case.
Qed.

Lemma parse_leaf_shorter (s : string) (v : parsed) (rest : string) :
  parse_value 1 s = Some (v, rest) -> (String.length rest < String.length s)%nat.
Proof.
  intros Hparse. pose proof (skip_ws_length s) as Hws.
  destruct (skip_ws s) as [|c t] eqn:Hs.
  { rewrite (parse_value_empty 1 s Hs) in Hparse. discriminate. }
  destruct (parse_leaf_cases s c t Hs) as [Hnone|[Hnum|[Hstr|(v' & r & Hlit & Hlen)]]].
  - rewrite Hnone in Hparse. discriminate.
  - rewrite Hnum in Hparse. apply parse_number_shorter in Hparse. lia.
  - rewrite Hstr in Hparse.
    destruct (parse_chars t) as [[u r]|] eqn:Hchars; [|discriminate].
    injection Hparse as _ <-. apply parse_chars_shorter in Hchars.
    cbn [String.length] in Hws. lia.
  - rewrite Hlit in Hparse. injection Hparse as _ <-. lia.
Qed.

Lemma parse_stable (fuel : nat) :
  (forall s v rest, parse_value fuel s = Some (v, rest) -> stable parse_value s v rest) /\
  (forall s l rest, parse_elems fuel s = Some (l, rest) -> stable parse_elems s l rest) /\
  (forall s l rest, parse_members fuel s = Some (l, rest) -> stable parse_members s l rest).
Proof.
  induction fuel as [|fuel (IHvalue & IHelems & IHmembers)];
    [repeat split; intros; discriminate|].
  repeat split.
  - intros s v rest Hparse. pose proof (skip_ws_length s) as Hws.
    destruct (skip_ws s) as [|c t] eqn:Hs.
    { rewrite (parse_value_empty _ s Hs) in Hparse. discriminate. }
    cbn [String.length] in Hws.
    destruct (Ascii.eqb_spec c "[") as [->|Harr]; [|destruct (Ascii.eqb_spec c "{") as [->|Hobj]].
    + rewrite (parse_value_array fuel s t Hs) in Hparse.
      pose proof (skip_ws_length t) as Hwt.
      destruct (starts_or_not "]" (skip_ws t)) as [[r Ht]|Hopen].
      * rewrite Ht in Hparse, Hwt. cbv iota in Hparse. injection Hparse as <- <-.
        cbn [String.length] in Hwt.
        exists 1%nat. split; [lia|]. intros [|fuel'] Hfuel; [lia|].
        rewrite (parse_value_array fuel' s t Hs), Ht. reflexivity.
      * rewrite (match_other_bracket _ (fun r => Some (JArr [] : parsed, r)) _ Hopen)
          in Hparse.
        destruct (parse_elems fuel t) as [[l rest']|] eqn:Hl; [|discriminate].
        injection Hparse as <- <-.
        destruct (IHelems _ _ _ Hl) as (bound & Hbound & Hmono).
        exists (S bound). split; [lia|]. intros [|fuel'] Hfuel; [lia|].
        rewrite (parse_value_array fuel' s t Hs).
        rewrite (match_other_bracket _ (fun r => Some (JArr [] : parsed, r)) _ Hopen).
        now rewrite (Hmono fuel') by lia.
    + rewrite (parse_value_object fuel s t Hs) in Hparse.
      pose proof (skip_ws_length t) as Hwt.
      destruct (starts_or_not "}" (skip_ws t)) as [[r Ht]|Hopen].
      * rewrite Ht in Hparse, Hwt. cbv iota in Hparse. injection Hparse as <- <-.
        cbn [String.length] in Hwt.
        exists 1%nat. split; [lia|]. intros [|fuel'] Hfuel; [lia|].
        rewrite (parse_value_object fuel' s t Hs), Ht. reflexivity.
      * rewrite (match_other_brace _ (fun r => Some (JObj [] : parsed, r)) _ Hopen)
          in Hparse.
        destruct (parse_members fuel t) as [[l rest']|] eqn:Hl; [|discriminate].
        injection Hparse as <- <-.
        destruct (IHmembers _ _ _ Hl) as (bound & Hbound & Hmono).
        exists (S bound). split; [lia|]. intros [|fuel'] Hfuel; [lia|].
        rewrite (parse_value_object fuel' s t Hs).
        rewrite (match_other_brace _ (fun r => Some (JObj [] : parsed, r)) _ Hopen).
        now rewrite (Hmono fuel') by lia.
    + rewrite (parse_value_leaf fuel s c t Hs Harr Hobj) in Hparse.
      pose proof (parse_leaf_shorter s v rest Hparse) as Hlen.
      exists 1%nat. split; [lia|]. intros [|fuel'] Hfuel; [lia|].
      now rewrite (parse_value_leaf fuel' s c t Hs Harr Hobj).
  - intros s l rest Hparse. cbn [parse_elems] in Hparse.
    destruct (parse_value fuel s) as [[v r1]|] eqn:Hv; [|discriminate].
    destruct (IHvalue _ _ _ Hv) as (b1 & Hb1 & Hmono1).
    pose proof (skip_ws_length r1) as Hws.
    destruct (starts_or_not "," (skip_ws r1)) as [[t Hr1]|Hcomma];
      [|destruct (starts_or_not "]" (skip_ws r1)) as [[t Hr1]|Hclose]].
    + rewrite Hr1 in Hparse, Hws. cbv iota in Hparse. cbn [String.length] in Hws.
      destruct (parse_elems fuel t) as [[l' r2]|] eqn:Hl; [|discriminate].
      injection Hparse as <- <-.
      destruct (IHelems _ _ _ Hl) as (b2 & Hb2 & Hmono2).
      exists (S (Nat.max b1 b2)). split; [lia|]. intros [|fuel'] Hfuel; [lia|].
      cbn [parse_elems]. rewrite (Hmono1 fuel') by lia. rewrite Hr1. cbv iota.
      now rewrite (Hmono2 fuel') by lia.
    + rewrite Hr1 in Hparse, Hws. cbv iota in Hparse. cbn [String.length] in Hws.
      injection Hparse as <- <-.
      exists (S b1). split; [lia|]. intros [|fuel'] Hfuel; [lia|].
      cbn [parse_elems]. rewrite (Hmono1 fuel') by lia. now rewrite Hr1.
    + rewrite match_other_separator in Hparse by assumption. discriminate.
  - intros s l rest Hparse. cbn [parse_members] in Hparse.
    pose proof (skip_ws_length s) as Hws.
    destruct (skip_ws s) as [|q r0] eqn:Hs; [discriminate|]. cbn [String.length] in Hws.
    destruct (Ascii.eqb q dquote) eqn:Hq; [|discriminate].
    destruct (parse_chars r0) as [[k r1]|] eqn:Hk; [|discriminate].
    pose proof (parse_chars_shorter _ _ _ Hk) as Hlk.
    pose proof (skip_ws_length r1) as Hw1.
    destruct (starts_or_not ":" (skip_ws r1)) as [[r2 Hr1]|Hcolon];
      [|rewrite match_other_colon in Hparse by assumption; discriminate].
    rewrite Hr1 in Hparse, Hw1. cbv iota in Hparse. cbn [String.length] in Hw1.
    destruct (parse_value fuel r2) as [[v r3]|] eqn:Hv; [|discriminate].
    destruct (IHvalue _ _ _ Hv) as (b1 & Hb1 & Hmono1).
    pose proof (skip_ws_length r3) as Hw3.
    destruct (starts_or_not "," (skip_ws r3)) as [[t Hr3]|Hcomma];
      [|destruct (starts_or_not "}" (skip_ws r3)) as [[t Hr3]|Hclose]].
    + rewrite Hr3 in Hparse, Hw3. cbv iota in Hparse. cbn [String.length] in Hw3.
      destruct (parse_members fuel t) as [[l' r4]|] eqn:Hl; [|discriminate].
      injection Hparse as <- <-.
      destruct (IHmembers _ _ _ Hl) as (b2 & Hb2 & Hmono2).
      exists (S (Nat.max b1 b2)). split; [lia|]. intros [|fuel'] Hfuel; [lia|].
      cbn [parse_members]. rewrite Hs, Hq, Hk, Hr1. cbv iota.
      rewrite (Hmono1 fuel') by lia. rewrite Hr3. cbv iota.
      now rewrite (Hmono2 fuel') by lia.
    + rewrite Hr3 in Hparse, Hw3. cbv iota in Hparse. cbn [String.length] in Hw3.
      injection Hparse as <- <-.
      exists (S b1). split; [lia|]. intros [|fuel'] Hfuel; [lia|].
      cbn [parse_members]. rewrite Hs, Hq, Hk, Hr1. cbv iota.
      rewrite (Hmono1 fuel') by lia. now rewrite Hr3.
    + rewrite match_other_member_separator in Hparse by assumption. discriminate.
Qed.

(** No fuel reads a value that the fuel of [JSON_parse] does not read: when
    [JSON_parse] fails, no prefix of the text is a JSON value followed by
    white space only. *)
Lemma JSON_parse_fuel (fuel : nat) (s : string) (v : parsed) (rest : string) :
  parse_value fuel s = Some (v, rest) -> skip_ws rest = EmptyString ->
  JSON_parse s = Some v.
Proof.
  intros Hparse Hrest.
  destruct (proj1 (parse_stable fuel) s v rest Hparse) as (bound & Hbound & Hmono).
  unfold JSON_parse. rewrite (Hmono (S (String.length s))) by lia. now rewrite Hrest.
Qed.

(** ** Frames *)

Lemma string_of_nat_digits (n : nat) :
  exists d, string_of_nat n = string_of_uint d /\ d <> Nil.
Proof.
  unfold string_of_nat, string_of_Z. destruct (Z.of_nat n) as [|p|p] eqn:Hn; [| |lia].
  - exists (D0 Nil). split; [reflexivity|discriminate].
  - exists (Pos.to_uint p). split; [reflexivity|apply DecimalPos.Unsigned.to_uint_nonnil].
Qed.

Lemma match_delimiter_frame (n : nat) (data : string) :
  match_delimiter ("~m~" +:+ string_of_nat n +:+ "~m~" +:+ data) = Some data.
Proof.
  destruct (string_of_nat_digits n) as (d & -> & Hd).
  rewrite !append_cons, append_empty. cbn [match_delimiter].
  rewrite parse_digits_prefix by reflexivity.
  destruct d; [congruence|reflexivity..].
Qed.

Lemma split_from_no_delimiter (fuel : nat) (s : string) :
  contains_delimiter s = false -> split_from fuel s = [s].
Proof.
  revert s. induction fuel as [|fuel IH]; intros s Hs; [reflexivity|].
  cbn [split_from]. destruct s as [|c s]; cbn [contains_delimiter] in Hs.
  - reflexivity.
  - destruct (match_delimiter (String c s)); [discriminate|]. now rewrite IH.
Qed.

Lemma split_delimiter_frame (n : nat) (data : string) :
  contains_delimiter data = false ->
  split_delimiter ("~m~" +:+ string_of_nat n +:+ "~m~" +:+ data) = [""; data].
Proof.
  intros Hdata. unfold split_delimiter.
  pose proof (match_delimiter_frame n data) as Hmatch.
  destruct (String.length _) as [|fuel] eqn:Hlen; [discriminate Hlen|].
  cbn [split_from]. rewrite Hmatch. now rewrite split_from_no_delimiter.
Qed.

Lemma parse_event_command (name : string) (params : list value) :
  parse_event (JSON_stringify (JObj [("m", JStr name); ("p", JArr params)])) =
  Return (mkPayload type_event (of_value (JObj [("m", JStr name); ("p", JArr params)]))).
Proof.
  unfold parse_event. rewrite substring0_keepalive, JSON_parse_stringify. reflexivity.
Qed.




(** ** Concurrent retrieval: results in the order of the request *)

Lemma indexOf_Some (l : list string) (x : string) (k : nat) :
  indexOf l x = Some k -> l !! k = Some x.
Proof.
  revert k. induction l as [|y l IH]; intros k; simpl; [discriminate|].
  destruct (String.eqb_spec y x) as [->|Hne].
  - intros [= <-]. reflexivity.
  - destruct (indexOf l x) as [j|]; simpl; [|discriminate].
    intros [= <-]. simpl. now apply IH.
Qed.

Lemma indexOf_elem_of (l : list string) (x : string) :
  x ∈ l -> exists k, indexOf l x = Some k.
Proof.
  induction 1 as [x l|x y l Hin [k IH]]; simpl.
  - rewrite String.eqb_refl. eauto.
  - destruct (String.eqb y x); [eauto|]. rewrite IH. simpl. eauto.
Qed.

Lemma indexOf_NoDup (l : list string) (x : string) (k : nat) :
  NoDup l -> l !! k = Some x -> indexOf l x = Some k.
Proof.
  intros Hnodup Hk.
  destruct (indexOf_elem_of l x) as [j Hj]; [eapply list_elem_of_lookup_2; eauto|].
  rewrite Hj. f_equal. apply indexOf_Some in Hj.
  eapply NoDup_lookup; eauto.
Qed.

Lemma array_set_length {A : Type} (arr : list (option A)) (k : nat) (x : A) :
  length (array_set arr k x) = Nat.max (length arr) (S k).
Proof.
  unfold array_set. destruct (Nat.ltb_spec k (length arr)).
  - rewrite length_insert. lia.
  - rewrite !length_app, length_replicate. simpl. lia.
Qed.

Lemma array_set_lookup_other {A : Type} (arr : list (option A)) (k j : nat) (x y : A) :
  j <> k -> arr !! j = Some (Some y) -> array_set arr k x !! j = Some (Some y).
Proof.
  intros Hne Hj. pose proof (lookup_lt_Some _ _ _ Hj) as Hlt.
  unfold array_set. destruct (Nat.ltb_spec k (length arr)).
  - now rewrite list_lookup_insert_ne by congruence.
  - now rewrite lookup_app_l by lia.
Qed.

Lemma run_snoc (params : GetCandlesParams) (events : list TradingviewEvent)
    (event : TradingviewEvent) (st : Concurrent.t) :
  Concurrent.run params (events ++ [event]) st =
  Concurrent.dispatch params event (Concurrent.run params events st).
Proof. unfold Concurrent.run. now rewrite foldl_snoc. Qed.

Lemma run_unsubscribed (params : GetCandlesParams) (events : list TradingviewEvent)
    (st : Concurrent.t) :
  Concurrent.subscribed st = false -> Concurrent.run params events st = st.
Proof.
  intros Hsub. induction events as [|event events IH] using rev_ind; [reflexivity|].
  rewrite run_snoc, IH. unfold Concurrent.dispatch. now rewrite Hsub.
Qed.

Lemma symbol_state_snoc (this : CandleEventHandler.t) (sessionMap : gmap string string)
    (events : list TradingviewEvent) (event : TradingviewEvent) (symbol : string) :
  symbol_state this sessionMap (events ++ [event]) symbol =
  if belongs_to sessionMap symbol event
  then symbol_step this event (symbol_state this sessionMap events symbol)
  else symbol_state this sessionMap events symbol.
Proof.
  unfold symbol_state. rewrite filter_app.
  destruct (belongs_to sessionMap symbol event) eqn:Hb.
  - rewrite filter_cons_True by exact Hb. rewrite filter_nil. now rewrite foldl_snoc.
  - rewrite filter_cons_False by congruence. rewrite filter_nil. now rewrite app_nil_r.
Qed.

Lemma symbol_step_completed (this : CandleEventHandler.t) (event : TradingviewEvent)
    (state : SymbolState) :
  completed state = true -> symbol_step this event state = state.
Proof. intros Hdone. unfold symbol_step. now rewrite Hdone. Qed.

(** A state becomes terminal only on a completion or symbol-error event,
    and keeps its bars when it does. *)
Lemma symbol_step_completes (this : CandleEventHandler.t) (event : TradingviewEvent)
    (state : SymbolState) :
  completed state = false ->
  completed (symbol_step this event state) = true ->
  String.eqb (name event) "timescale_update" = false /\
  is_series_event event = true /\
  CandleDataProcessor.shouldRequestMoreData
    (length (candles state)) (CandleEventHandler.requestedAmount this) = false /\
  symbol_step this event state =
    mkSymbolState (candles state) true (String.eqb (name event) "symbol_error").
Proof.
  intros Hopen. unfold symbol_step. rewrite Hopen.
  destruct (String.eqb (name event) "timescale_update").
  - destruct (CandleDataProcessor.findSeriesKey _) as [[key|]|];
      try (rewrite Hopen; discriminate).
    destruct (param_at event 1); try (rewrite Hopen; discriminate).
    destruct (lookup_prop key props) as [[|[l|]]|]; simpl; try rewrite Hopen; discriminate.
  - destruct (is_series_event event); [|rewrite Hopen; discriminate].
    destruct (CandleDataProcessor.shouldRequestMoreData _ _); [rewrite Hopen; discriminate|].
    auto.
Qed.

Lemma getProcessedCandles_series (symbol : string) (amount : option Z)
    (states : gmap string SymbolState) (state : SymbolState) :
  states !! symbol = Some state ->
  SymbolStateManager.getProcessedCandles symbol amount states = series_of amount state.
Proof.
  intros Hstate. unfold SymbolStateManager.getProcessedCandles, series_of. now rewrite Hstate.
Qed.

(** The subscriber of the concurrent orchestrator applies the step of the
    state machine to the state of the symbol the event is routed to; when
    that state becomes terminal it writes the series into the slot of the
    symbol, counts it, and resolves when the count reaches the number of
    symbols. *)
Lemma subscriber_spec (params : GetCandlesParams) (event : TradingviewEvent)
    (st : Concurrent.t) :
  let this := Concurrent.eventHandler params in
  let st' := Concurrent.subscriber params this event st in
  match event_symbol (Concurrent.mgr st) event with
  | None =>
      Concurrent.mgr st' = Concurrent.mgr st /\
      Concurrent.results st' = Concurrent.results st /\
      Concurrent.completedCount st' = Concurrent.completedCount st /\
      Concurrent.subscribed st' = Concurrent.subscribed st /\
      Concurrent.promise st' = Concurrent.promise st
  | Some (sym, state) =>
      let state' := symbol_step this event state in
      states (Concurrent.mgr st') = <[sym := state']> (states (Concurrent.mgr st)) /\
      sessionMap (Concurrent.mgr st') = sessionMap (Concurrent.mgr st) /\
      if negb (completed state) && completed state' then
        Concurrent.results st' =
          match indexOf (symbols params) sym with
          | Some k => array_set (Concurrent.results st) k (series_of (amount params) state')
          | None => Concurrent.results st
          end /\
        Concurrent.completedCount st' = S (Concurrent.completedCount st) /\
        if (S (Concurrent.completedCount st) =? length (symbols params))%nat then
          Concurrent.subscribed st' = false /\
          Concurrent.promise st' = resolve (Concurrent.results st') (Concurrent.promise st)
        else
          Concurrent.subscribed st' = Concurrent.subscribed st /\
          Concurrent.promise st' = Concurrent.promise st
      else
        Concurrent.results st' = Concurrent.results st /\
        Concurrent.completedCount st' = Concurrent.completedCount st /\
        Concurrent.subscribed st' = Concurrent.subscribed st /\
        (Concurrent.promise st' = Concurrent.promise st \/
         exists err, Concurrent.promise st' = reject err (Concurrent.promise st))
  end.
Proof.
  intros this st'. subst st'.
  unfold event_symbol, Concurrent.subscriber, CandleEventHandler.handleTimescaleUpdate,
    CandleEventHandler.handleSeriesEvent, no_symbol, SymbolStateManager.getSymbolState.
  destruct (ChartSessionManager.getSymbolForSession _ _) as [sym|] eqn:Hsym.
  2:{ destruct (String.eqb (name event) "timescale_update"); [simpl; auto 10|].
      destruct (is_series_event event); simpl; auto 10. }
  destruct (String.eqb sym "") eqn:Hempty.
  { destruct (String.eqb (name event) "timescale_update"); [simpl; auto 10|].
    destruct (is_series_event event); simpl; auto 10. }
  simpl default.
  destruct (states (Concurrent.mgr st) !! sym) as [state|] eqn:Hstate.
  2:{ destruct (String.eqb (name event) "timescale_update"); [simpl; auto 10|].
      destruct (is_series_event event); simpl; auto 10. }
  cbv zeta. unfold symbol_step.
  destruct (completed state) eqn:Hdone.
  { rewrite insert_id by exact Hstate. rewrite Hdone. simpl negb. simpl andb. cbv iota.
    destruct (String.eqb (name event) "timescale_update"); [simpl; auto 10|].
    destruct (is_series_event event); simpl; auto 10. }
  simpl negb. rewrite andb_true_l.
  destruct (String.eqb (name event) "timescale_update") eqn:Hname.
  - destruct (CandleDataProcessor.findSeriesKey (param_at event 1)) as [[key|]|err] eqn:Hkey;
      simpl bind.
    + destruct (param_at event 1) as [| |text|props] eqn:Hdata;
        try (rewrite insert_id by exact Hstate; rewrite Hdone; simpl; auto 10).
      destruct (lookup_prop key props) as [[|[newCandles|]]|] eqn:Hentry;
        try (rewrite insert_id by exact Hstate; rewrite Hdone; simpl; auto 10).
      simpl. unfold SymbolStateManager.updateSymbolCandles. rewrite Hstate, Hdone.
      auto 10.
    + rewrite insert_id by exact Hstate. rewrite Hdone.
      destruct (param_at event 1); simpl; auto 10.
    + rewrite insert_id by exact Hstate. rewrite Hdone.
      destruct (param_at event 1); simpl; eauto 10.
  - destruct (is_series_event event) eqn:Hseries.
    2:{ rewrite insert_id by exact Hstate. rewrite Hdone. simpl. auto 10. }
    simpl CandleEventHandler.requestedAmount. simpl CandleEventHandler.batchSize.
    destruct (CandleDataProcessor.shouldRequestMoreData _ _) eqn:Hmore.
    + rewrite insert_id by exact Hstate. rewrite Hdone. simpl. auto 10.
    + cbn [completed]. cbv iota.
      set (states' := SymbolStateManager.markSymbolCompleted _ _ _).
      assert (Hstates' : states' =
                <[sym := mkSymbolState (candles state) true
                           (String.eqb (name event) "symbol_error")]>
                  (states (Concurrent.mgr st))).
      { subst states'. unfold SymbolStateManager.markSymbolCompleted. now rewrite Hstate. }
      rewrite (getProcessedCandles_series sym _ states' _
                 ltac:(rewrite Hstates'; apply lookup_insert_eq)).
      unfold Concurrent.onSymbolCompleted. cbn [fst snd andb].
      destruct (_ =? _)%nat; cbn [Concurrent.mgr Concurrent.results Concurrent.completedCount
        Concurrent.promise Concurrent.subscribed states sessionMap]; auto 10.
Qed.

Lemma invariant_ext (params : GetCandlesParams) (sessions : gmap string string)
    (current current' : string -> SymbolState) (st : Concurrent.t) :
  (forall s, s ∈ symbols params -> current' s = current s) ->
  concurrent_invariant params sessions current st ->
  concurrent_invariant params sessions current' st.
Proof.
  intros Hext [Hsess Hstates (finished & Hcount & Hnodup & Hfin) Hres Hlen Hunsub Hresolved
                 Hsubscribed Hsettled].
  split; try assumption.
  - intros s. rewrite Hstates. destruct (decide (s ∈ symbols params)); [|reflexivity].
    now rewrite Hext.
  - exists finished. repeat split; try assumption.
    + now apply Hfin.
    + rewrite Hext by now apply Hfin. now apply Hfin.
    + intros [Hin Hdone]. apply Hfin. rewrite <- Hext by exact Hin. auto.
  - intros s k Hk Hdone.
    assert (Hin : s ∈ symbols params).
    { apply indexOf_Some in Hk. eapply list_elem_of_lookup_2; eauto. }
    rewrite Hext in * by exact Hin. now apply Hres.
Qed.

(** Once the count has reached the number of symbols, the symbols are
    pairwise distinct and each is in a terminal state. *)
Lemma invariant_all_completed (params : GetCandlesParams) (sessions : gmap string string)
    (current : string -> SymbolState) (st : Concurrent.t) :
  concurrent_invariant params sessions current st ->
  Concurrent.completedCount st = length (symbols params) ->
  NoDup (symbols params) /\
  forall s, s ∈ symbols params -> completed (current s) = true.
Proof.
  intros [_ _ (finished & Hcount & Hnodup & Hfin) _ _ _ _ _ _] Hall.
  assert (Hperm : finished ≡ₚ symbols params).
  { apply submseteq_length_Permutation; [|lia].
    apply NoDup_submseteq; [exact Hnodup|]. intros s Hs. now apply Hfin. }
  split.
  - now rewrite <- Hperm.
  - intros s Hs. apply Hfin. now rewrite Hperm.
Qed.

Lemma belongs_to_routed (mgr : Managers) (event : TradingviewEvent) (s : string) :
  s <> "" -> is_Some (states mgr !! s) ->
  belongs_to (sessionMap mgr) s event = true ->
  exists state, event_symbol mgr event = Some (s, state) /\ states mgr !! s = Some state.
Proof.
  intros Hne [state Hstate]. unfold belongs_to, event_symbol.
  destruct (ChartSessionManager.getSymbolForSession _ _) as [sym|]; [|discriminate].
  intros Heq. apply String.eqb_eq in Heq as ->.
  apply String.eqb_neq in Hne. rewrite Hne, Hstate. eauto.
Qed.

Lemma event_symbol_belongs (mgr : Managers) (event : TradingviewEvent)
    (sym : string) (state : SymbolState) :
  event_symbol mgr event = Some (sym, state) ->
  states mgr !! sym = Some state /\
  forall s, belongs_to (sessionMap mgr) s event = String.eqb sym s.
Proof.
  unfold event_symbol, belongs_to.
  destruct (ChartSessionManager.getSymbolForSession _ _) as [sym'|]; [|discriminate].
  destruct (String.eqb sym' ""); [discriminate|].
  destruct (states mgr !! sym') as [state'|] eqn:Hstate; [|discriminate].
  intros [= <- <-]. auto.
Qed.

(** The invariant is kept by every event. *)
Lemma invariant_step (params : GetCandlesParams) (events : list TradingviewEvent)
    (event : TradingviewEvent) (st : Concurrent.t) (sessions : gmap string string) :
  let this := Concurrent.eventHandler params in
  "" ∉ symbols params ->
  concurrent_invariant params sessions (symbol_state this sessions events) st ->
  concurrent_invariant params sessions (symbol_state this sessions (events ++ [event]))
    (Concurrent.dispatch params event st).
Proof.
  intros this Hnonempty Hinv. unfold Concurrent.dispatch.
  subst this. set (this := Concurrent.eventHandler params) in *.
  destruct (Concurrent.subscribed st) eqn:Hsub.
  2:{ (* not subscribed any more: every state is terminal *)
      destruct (invariant_all_completed _ _ _ _ Hinv (inv_unsubscribed _ _ _ _ Hinv Hsub))
        as [_ Hall].
      apply (invariant_ext _ _ (symbol_state this sessions events)); [|exact Hinv].
      intros s Hs. rewrite symbol_state_snoc.
      destruct (belongs_to sessions s event); [|reflexivity].
      apply symbol_step_completed. now apply Hall. }
  pose proof (subscriber_spec params event st) as Hspec. cbv zeta in Hspec.
  fold this in Hspec.
  set (st' := Concurrent.subscriber params this event st) in *. clearbody st'.
  destruct Hinv as [Hsess Hstates (finished & Hcount & Hnodup & Hfin) Hres Hlen Hunsub Hresolved
                    Hsubscribed Hsettled].
  specialize (Hsubscribed Hsub).
  assert (Hne : forall s, s ∈ symbols params -> s <> "").
  { intros s Hs ->. contradiction. }
  destruct (event_symbol (Concurrent.mgr st) event) as [[sym state]|] eqn:Hroute.
  - (* the event is routed to [sym] *)
    apply event_symbol_belongs in Hroute as [Hstate Hbelongs]. rewrite Hsess in Hbelongs.
    assert (Hsym : sym ∈ symbols params).
    { rewrite Hstates in Hstate. destruct (decide (sym ∈ symbols params)); [assumption|discriminate]. }
    assert (Hcur : state = symbol_state this sessions events sym).
    { rewrite Hstates in Hstate. destruct (decide (sym ∈ symbols params)); congruence. }
    assert (Hnew : forall s,
               symbol_state this sessions (events ++ [event]) s =
               if String.eqb sym s then symbol_step this event state
               else symbol_state this sessions events s).
    { intros s. rewrite symbol_state_snoc, Hbelongs.
      destruct (String.eqb_spec sym s) as [<-|]; [now rewrite Hcur|reflexivity]. }
    destruct Hspec as (Hstates' & Hsess' & Hrest).
    destruct (indexOf_elem_of _ _ Hsym) as [k' Hk'].
    destruct (negb (completed state) && completed (symbol_step this event state)) eqn:Hjust.
    + (* [sym] has just become terminal *)
      apply andb_true_iff in Hjust as [Hopen Hdone]. apply negb_true_iff in Hopen.
      destruct Hrest as (Hres' & Hcount' & Hsettle). rewrite Hk' in Hres'.
      split.
      * congruence.
      * intros s. rewrite Hstates', Hnew.
        destruct (String.eqb_spec sym s) as [<-|Hdiff].
        -- rewrite lookup_insert_eq. now destruct (decide (sym ∈ symbols params)).
        -- rewrite lookup_insert_ne by exact Hdiff. apply Hstates.
      * exists (sym :: finished). split; [simpl; lia|]. split.
        -- constructor; [|exact Hnodup]. intros Hin. apply Hfin in Hin as [_ Hin].
           congruence.
        -- intros s. rewrite Hnew, elem_of_cons, Hfin.
           destruct (String.eqb_spec sym s) as [<-|Hdiff]; [tauto|].
           split; [intros [->|?]; [congruence|assumption]|tauto].
      * intros s k Hk. rewrite Hnew, Hres'.
        destruct (String.eqb_spec sym s) as [<-|Hdiff].
        -- intros _. replace k with k' by congruence. apply array_set_lookup.
        -- intros Hdone'. apply array_set_lookup_other; [|now apply Hres].
           intros ->. apply indexOf_Some in Hk, Hk'. congruence.
      * rewrite Hres', array_set_length. apply indexOf_Some, lookup_lt_Some in Hk'. lia.
      * rewrite Hcount'. destruct (_ =? _)%nat eqn:Hfull.
        -- intros _. now apply Nat.eqb_eq.
        -- destruct Hsettle as [-> _]. congruence.
      * intros r. destruct (_ =? _)%nat.
        -- destruct Hsettle as [Hunsub' ->].
           destruct (Concurrent.promise st) as [|r0|err] eqn:Hpromise; simpl.
           ++ intros [= <-]. auto.
           ++ destruct (Hresolved r0 eq_refl). congruence.
           ++ discriminate.
        -- destruct Hsettle as [_ ->]. intros Hr. destruct (Hresolved r Hr). congruence.
      * rewrite Hcount'. destruct (_ =? _)%nat eqn:Hfull.
        -- destruct Hsettle as [-> _]. discriminate.
        -- intros _. apply Nat.eqb_neq in Hfull. lia.
      * destruct (_ =? _)%nat.
        -- destruct Hsettle as [_ ->]. intros _.
           destruct (Concurrent.promise st); discriminate.
        -- destruct Hsettle as [-> _]. congruence.
    + (* no state has become terminal *)
      destruct Hrest as (Hres' & Hcount' & Hsub' & Hpromise').
      assert (Hsame : completed (symbol_step this event state) = completed state).
      { destruct (completed state) eqn:Hdone; [now rewrite symbol_step_completed|].
        simpl in Hjust. exact Hjust. }
      assert (Hkeep : completed state = true -> symbol_step this event state = state).
      { apply symbol_step_completed. }
      split.
      * congruence.
      * intros s. rewrite Hstates', Hnew.
        destruct (String.eqb_spec sym s) as [<-|Hdiff].
        -- rewrite lookup_insert_eq. now destruct (decide (sym ∈ symbols params)).
        -- rewrite lookup_insert_ne by exact Hdiff. apply Hstates.
      * exists finished. split; [congruence|]. split; [exact Hnodup|].
        intros s. rewrite Hnew, Hfin.
        destruct (String.eqb_spec sym s) as [<-|Hdiff]; [|tauto].
        rewrite Hsame, Hcur. tauto.
      * intros s k Hk. rewrite Hnew, Hres'.
        destruct (String.eqb_spec sym s) as [<-|Hdiff]; [|now apply Hres].
        rewrite Hsame. intros Hdone. rewrite (Hkeep Hdone), Hcur. apply Hres; congruence.
      * congruence.
      * congruence.
      * intros r Hr. exfalso.
        destruct Hpromise' as [Heq|[err Heq]]; rewrite Heq in Hr.
        -- destruct (Hresolved r Hr). congruence.
        -- destruct (Concurrent.promise st) as [|r0|err0] eqn:Hpromise; try discriminate.
           destruct (Hresolved r0 eq_refl). congruence.
      * intros _. now rewrite Hcount'.
      * congruence.
  - (* the event is routed nowhere *)
    destruct Hspec as (Hmgr & Hres' & Hcount' & Hsub' & Hpromise').
    apply (invariant_ext _ _ (symbol_state this sessions events)).
    + intros s Hs. rewrite symbol_state_snoc.
      destruct (belongs_to sessions s event) eqn:Hb; [|reflexivity].
      rewrite <- Hsess in Hb.
      destruct (belongs_to_routed (Concurrent.mgr st) event s) as (state & Hr & _);
        [now apply Hne| |exact Hb|congruence].
      rewrite Hstates. destruct (decide (s ∈ symbols params)); [eauto|contradiction].
    + split; rewrite ?Hmgr, ?Hres', ?Hcount', ?Hsub', ?Hpromise'; try assumption;
        try (intros _; assumption).
      exists finished. auto.
Qed.

Lemma initial_states_lookup (symbols : list string) (states : gmap string SymbolState)
    (s : string) :
  foldl (fun states symbol => SymbolStateManager.initializeSymbol symbol states)
        states symbols !! s =
  if decide (s ∈ symbols) then Some (mkSymbolState [] false false) else states !! s.
Proof.
  revert states. induction symbols as [|x symbols IH]; intros states; simpl.
  - destruct (decide (s ∈ [])) as [Hin|]; [inversion Hin|reflexivity].
  - rewrite IH. unfold SymbolStateManager.initializeSymbol.
    destruct (decide (s ∈ symbols)) as [Hin|Hout].
    + rewrite decide_True by now apply list_elem_of_further. reflexivity.
    + destruct (decide (x = s)) as [->|Hne].
      * rewrite lookup_insert_eq. rewrite decide_True by apply list_elem_of_here. reflexivity.
      * rewrite lookup_insert_ne by exact Hne.
        rewrite decide_False; [reflexivity|]. rewrite elem_of_cons. intros [->|?]; tauto.
Qed.

Lemma send_requests_states (params : GetCandlesParams) (batchSize : Z)
    (random : nat -> string) (index : nat) (rest : list string) (mgr : Managers) :
  states (Concurrent.send_requests params batchSize random index rest mgr) = states mgr.
Proof.
  revert index mgr. induction rest as [|symbol rest IH]; intros index mgr; [reflexivity|].
  cbn [Concurrent.send_requests]. unfold ChartSessionManager.createChartSession.
  now rewrite IH.
Qed.

Lemma validate_each_nonempty (index : nat) (symbols : list string) :
  validate_each index symbols = Return tt -> "" ∉ symbols.
Proof.
  revert index. induction symbols as [|x symbols IH]; intros index; simpl.
  - intros _ Hin. inversion Hin.
  - destruct (validateSymbol x) as [[]|e] eqn:Hx; [|discriminate].
    intros Hrest Hin. apply elem_of_cons in Hin as [<-|Hin].
    + discriminate Hx.
    + now apply (IH _ Hrest).
Qed.

Lemma validateParams_nonempty (params : GetCandlesParams) :
  validateParams params = Return tt -> "" ∉ symbols params.
Proof.
  unfold validateParams, validateSymbols.
  destruct (_ =? _)%nat; [discriminate|]. destruct (_ <? _)%nat; [discriminate|].
  destruct (validate_each 0 (symbols params)) as [[]|e] eqn:Heach; [|discriminate].
  intros _. now apply (validate_each_nonempty 0).
Qed.

Lemma invariant_run (params : GetCandlesParams) (events : list TradingviewEvent)
    (st : Concurrent.t) :
  let this := Concurrent.eventHandler params in
  let sessions := sessionMap (Concurrent.mgr st) in
  "" ∉ symbols params ->
  concurrent_invariant params sessions (symbol_state this sessions []) st ->
  concurrent_invariant params sessions (symbol_state this sessions events)
    (Concurrent.run params events st).
Proof.
  intros this sessions Hnonempty Hinit.
  induction events as [|event events IH] using rev_ind; [exact Hinit|].
  rewrite run_snoc. now apply invariant_step.
Qed.

Lemma invariant_resolved (params : GetCandlesParams) (sessions : gmap string string)
    (current : string -> SymbolState) (st : Concurrent.t)
    (results : list (option (list Candle))) :
  concurrent_invariant params sessions current st ->
  Concurrent.promise st = resolved results ->
  results = map (fun s => Some (series_of (amount params) (current s))) (symbols params).
Proof.
  intros Hinv Hpromise.
  destruct (inv_resolved _ _ _ _ Hinv _ Hpromise) as [-> Hunsub].
  destruct (invariant_all_completed _ _ _ _ Hinv (inv_unsubscribed _ _ _ _ Hinv Hunsub))
    as [Hnodup Hall].
  apply list_eq. intros k. rewrite list_lookup_fmap.
  destruct (symbols params !! k) as [s|] eqn:Hk; simpl.
  - apply (inv_results _ _ _ _ Hinv).
    + now apply indexOf_NoDup.
    + apply Hall. eapply list_elem_of_lookup_2; eauto.
  - apply lookup_ge_None. apply lookup_ge_None in Hk.
    pose proof (inv_length _ _ _ _ Hinv). lia.
Qed.

Lemma invariant_reached (params : GetCandlesParams) (random : nat -> string)
    (connection : list Command) (events : list TradingviewEvent) :
  let st := Concurrent.getCandlesConcurrent params random connection in
  validateParams params = Return tt ->
  concurrent_invariant params (sessionMap (Concurrent.mgr st))
    (symbol_state (Concurrent.eventHandler params) (sessionMap (Concurrent.mgr st)) events)
    (Concurrent.run params events st) /\
  Concurrent.promise st = pending.
Proof.
  intros st Hvalid. subst st. unfold Concurrent.getCandlesConcurrent. rewrite Hvalid.
  destruct (length (symbols params) =? 0)%nat eqn:Hlen.
  { exfalso. revert Hvalid. unfold validateParams, validateSymbols. now rewrite Hlen. }
  set (st := Concurrent.mk _ _ _ _ _). split; [|reflexivity].
  apply invariant_run; [now apply validateParams_nonempty|].
  subst st. split; cbn [Concurrent.mgr Concurrent.results Concurrent.completedCount
    Concurrent.promise Concurrent.subscribed].
  - reflexivity.
  - intros s. rewrite send_requests_states. cbn [states].
    rewrite initial_states_lookup, lookup_empty. reflexivity.
  - exists []. split; [reflexivity|]. split; [constructor|].
    intros s. split; [intros Hin; inversion Hin|]. intros [_ Hdone]. discriminate Hdone.
  - intros s k _ Hdone. discriminate Hdone.
  - simpl. lia.
  - discriminate.
  - discriminate.
  - intros _. apply Nat.eqb_neq in Hlen. lia.
  - discriminate.
Qed.

Lemma handleTimescaleUpdate_readable (this : CandleEventHandler.t)
    (event : TradingviewEvent) (mgr : Managers) :
  readable_update event ->
  exists mgr', CandleEventHandler.handleTimescaleUpdate this event mgr = Return mgr'.
Proof.
  intros Hreadable. unfold CandleEventHandler.handleTimescaleUpdate.
  destruct (no_symbol _); [eauto|].
  destruct (SymbolStateManager.getSymbolState _ _) as [state|]; [|eauto].
  destruct (completed state); [eauto|].
  destruct (CandleDataProcessor.findSeriesKey (param_at event 1)) as [key|e] eqn:Hkey;
    [|now destruct (Hreadable e)].
  simpl bind. destruct key as [key|]; [|eauto].
  destruct (param_at event 1); eauto.
  destruct (lookup_prop key props) as [[|[l|]]|]; eauto.
Qed.

Lemma resolve_rejected {A : Type} (a : A) (promise : Promise A) (err : JsError) :
  resolve a promise = rejected err -> promise = rejected err.
Proof. destruct promise; simpl; congruence. Qed.

(** Readable events reject nothing. *)
Lemma run_keeps_unrejected (params : GetCandlesParams) (events : list TradingviewEvent)
    (st : Concurrent.t) (err : JsError) :
  Forall readable_update events ->
  Concurrent.promise (Concurrent.run params events st) = rejected err ->
  Concurrent.promise st = rejected err.
Proof.
  induction events as [|event events IH] using rev_ind; intros Hreadable; [auto|].
  apply Forall_app in Hreadable as [Hevents Hevent].
  rewrite Forall_singleton in Hevent.
  rewrite run_snoc. intros Hrej. apply IH; [exact Hevents|]. revert Hrej.
  generalize (Concurrent.run params events st). intros st'.
  unfold Concurrent.dispatch. destruct (Concurrent.subscribed st'); [|auto].
  unfold Concurrent.subscriber.
  destruct (String.eqb (name event) "timescale_update").
  - destruct (handleTimescaleUpdate_readable (Concurrent.eventHandler params) event
                (Concurrent.mgr st') Hevent) as [mgr' ->]. auto.
  - destruct (is_series_event event); [|auto].
    destruct (no_symbol _); [auto|].
    destruct (CandleEventHandler.handleSeriesEvent _ _ _ _ _) as [[mgr' [res n]] done].
    destruct (done && (n =? length (symbols params))%nat); simpl; [|auto].
    apply resolve_rejected.
Qed.

(** C1: whatever the events and the order in which they arrive, the array
    [getCandlesConcurrent] resolves with holds at each index the bar series
    of the symbol at that index of the request: the series the state of
    that symbol yields, which is determined by the events of the symbol's
    own session, so that the order in which the symbols complete has no
    part in the result.  And the call does resolve once every symbol of a
    request without repeated symbols has reached a terminal state, when no
    update was unreadable. *)
Theorem concurrent_results_follow_input_order
    (params : GetCandlesParams) (random : nat -> string) (connection : list Command)
    (events : list TradingviewEvent) :
  let st := Concurrent.getCandlesConcurrent params random connection in
  let final := Concurrent.run params events st in
  let this := Concurrent.eventHandler params in
  (forall results,
     Concurrent.promise final = resolved results ->
     results =
       map (fun symbol =>
              Some (symbol_series params (sessionMap (Concurrent.mgr st)) events symbol))
           (symbols params) /\
     results =
       map (fun symbol =>
              Some (SymbolStateManager.getProcessedCandles symbol (amount params)
                      (states (Concurrent.mgr final))))
           (symbols params)) /\
  (validateParams params = Return tt ->
   NoDup (symbols params) ->
   Forall readable_update events ->
   (forall symbol, symbol ∈ symbols params ->
      completed (symbol_state this (sessionMap (Concurrent.mgr st)) events symbol) = true) ->
   exists results, Concurrent.promise final = resolved results).
Proof.
  intros st final this.
  destruct (validateParams params) as [[]|e] eqn:Hvalid.
  2:{ split; [|discriminate]. intros results. subst final st.
      unfold Concurrent.getCandlesConcurrent. rewrite Hvalid.
      rewrite run_unsubscribed by reflexivity. discriminate. }
  destruct (invariant_reached params random connection events Hvalid) as [Hinv Hpending].
  fold st in Hinv, Hpending. fold final in Hinv. fold this in Hinv. split.
  - intros results Hpromise.
    pose proof (invariant_resolved _ _ _ _ _ Hinv Hpromise) as Hresults.
    split; [exact Hresults|]. rewrite Hresults. apply map_ext_in. intros s Hs.
    f_equal. symmetry. apply getProcessedCandles_series.
    rewrite (inv_states _ _ _ _ Hinv). apply decide_True. now apply list_elem_of_In.
  - intros _ Hnodup Hreadable Hterminal.
    destruct (inv_count _ _ _ _ Hinv) as (finished & Hcount & _ & Hfin).
    assert (Hall : (length (symbols params) <= Concurrent.completedCount final)%nat).
    { rewrite Hcount. apply submseteq_length, NoDup_submseteq; [exact Hnodup|].
      intros s Hs. apply Hfin. auto. }
    assert (Hunsub : Concurrent.subscribed final = false).
    { destruct (Concurrent.subscribed final) eqn:Hsub; [|reflexivity].
      pose proof (inv_subscribed _ _ _ _ Hinv Hsub). lia. }
    pose proof (inv_settled _ _ _ _ Hinv Hunsub) as Hsettled.
    destruct (Concurrent.promise final) as [|results|err] eqn:Hpromise.
    + contradiction.
    + eauto.
    + apply run_keeps_unrejected in Hpromise; [|exact Hreadable]. congruence.
Qed.

(** Two symbols, three bars each; B's events arrive first and B completes
    first: the result still lists A before B. *)
Lemma concurrent_results_follow_input_order_witness :
  let params := mkParams ["A"; "B"] (Some 3%Z) "60" in
  let events :=
    [update_event "cs_B_3" [bar 13; bar 12; bar 11];
     update_event "cs_A_1" [bar 3; bar 2; bar 1];
     completion_event "cs_B_3";
     completion_event "cs_A_1"] in
  let st := Concurrent.getCandlesConcurrent params string_of_nat [] in
  let results :=
    [Some [bar_candle 3; bar_candle 2; bar_candle 1];
     Some [bar_candle 13; bar_candle 12; bar_candle 11]] in
  Concurrent.promise (Concurrent.run params events st) = resolved results /\
  results =
    map (fun symbol =>
           Some (symbol_series params (sessionMap (Concurrent.mgr st)) events symbol))
        (symbols params).
Proof.
  intros params events st results.
  assert (Hrun : Concurrent.promise (Concurrent.run params events st) = resolved results)
    by (vm_compute; reflexivity).
  split; [exact Hrun|].
  exact (proj1 (proj1 (concurrent_results_follow_input_order params string_of_nat [] events)
                  results Hrun)).
Defined.

(** ** The single-file copy takes the same steps *)

Lemma legacy_batchSize (params : GetCandlesParams) :
  Legacy.batchSize params = CandleDataProcessor.calculateBatchSize (amount params).
Proof. reflexivity. Qed.

(** Testing the multiple of the batch size or of the cap makes no
    difference: below the cap the count would have to be below itself. *)
Lemma legacy_requests_more (n : nat) (amount : option Z) :
  (0 <? Z.of_nat n)%Z
  && (Z.rem (Z.of_nat n) (CandleDataProcessor.calculateBatchSize amount) =? 0)%Z
  && (falsy_amount amount || (Z.of_nat n <? default 0%Z amount)%Z)
  = CandleDataProcessor.shouldRequestMoreData n amount.
Proof.
  unfold CandleDataProcessor.shouldRequestMoreData, CandleDataProcessor.calculateBatchSize.
  destruct amount as [a|]; [|reflexivity].
  change (default 0%Z (Some a)) with a. cbn [falsy_amount].
  destruct (Z.eqb_spec a 0) as [->|Hnz]; [reflexivity|].
  destruct (Z.ltb_spec a MAX_BATCH_SIZE) as [Hsmall|Hbig]; [|reflexivity].
  cbn [negb andb orb].
  destruct (Z.ltb_spec 0 (Z.of_nat n)) as [Hpos|]; [|reflexivity].
  destruct (Z.ltb_spec (Z.of_nat n) a) as [Hlt|]; [|now rewrite !andb_false_r].
  rewrite !Z.rem_small by lia.
  destruct (Z.eqb_spec (Z.of_nat n) 0); [lia|reflexivity].
Qed.

Lemma legacy_filter (newCandles existingCandles : list RawCandle) (batchSize : Z) :
  (if (batchSize <? Z.of_nat (length newCandles))%Z
   then slice newCandles 0 (- Z.of_nat (length existingCandles))
   else newCandles)
  = CandleDataProcessor.filterNewCandles newCandles existingCandles batchSize.
Proof.
  unfold CandleDataProcessor.filterNewCandles.
  destruct (Z.ltb_spec batchSize (Z.of_nat (length newCandles)));
    destruct (Z.leb_spec (Z.of_nat (length newCandles)) batchSize); (reflexivity || lia).
Qed.

Lemma same_outcome_refl (st : Concurrent.t) : same_outcome st st.
Proof. unfold same_outcome. auto 6. Qed.

Lemma same_outcome_mk (mgr : Managers) (results : list (option (list Candle)))
    (count : nat) (p q : Promise (list (option (list Candle)))) (subscribed : bool) :
  (p = q \/ exists e1 e2, p = rejected e1 /\ q = rejected e2) ->
  same_outcome (Concurrent.mk mgr results count p subscribed)
               (Concurrent.mk mgr results count q subscribed).
Proof. unfold same_outcome. simpl. auto 6. Qed.

Lemma same_promise_reject {A : Type} (p q : Promise A) (e1 e2 : JsError) :
  (p = q \/ exists e1 e2, p = rejected e1 /\ q = rejected e2) ->
  reject e1 p = reject e2 q \/
  exists e1' e2', reject e1 p = rejected e1' /\ reject e2 q = rejected e2'.
Proof.
  intros [<-|(a & b & -> & ->)].
  - destruct p; simpl; eauto.
  - simpl. eauto.
Qed.

Lemma same_promise_resolve {A : Type} (p q : Promise A) (a : A) :
  (p = q \/ exists e1 e2, p = rejected e1 /\ q = rejected e2) ->
  resolve a p = resolve a q \/
  exists e1 e2, resolve a p = rejected e1 /\ resolve a q = rejected e2.
Proof.
  intros [<-|(e1 & e2 & -> & ->)].
  - auto.
  - simpl. eauto.
Qed.

(** On the same variables the two subscribers take the same step; only the
    reason of a rejection differs, which the class wraps. *)
Lemma legacy_subscriber_agrees (params : GetCandlesParams) (event : TradingviewEvent)
    (a b : Concurrent.t) :
  unflagged (states (Concurrent.mgr a)) ->
  same_outcome a b ->
  same_outcome (Legacy.subscriber params (Legacy.batchSize params) event a)
               (Concurrent.subscriber params (Concurrent.eventHandler params) event b).
Proof.
  intros Hfresh (Hmgr & Hresults & Hcount & Hsub & Hpromise).
  destruct a as [mgr results count p sub], b as [mgr' results' count' q sub'].
  simpl in Hfresh, Hmgr, Hresults, Hcount, Hsub, Hpromise. subst mgr' results' count' sub'.
  unfold Legacy.subscriber, Concurrent.subscriber.
  cbn [Concurrent.mgr Concurrent.results Concurrent.completedCount Concurrent.promise
       Concurrent.subscribed].
  destruct (String.eqb (name event) "timescale_update").
  - unfold CandleEventHandler.handleTimescaleUpdate, SymbolStateManager.getSymbolState.
    destruct (no_symbol _); [now apply same_outcome_mk|].
    destruct (states mgr !! _) as [state|] eqn:Hstate; [|now apply same_outcome_mk].
    destruct (completed state) eqn:Hopen; [now apply same_outcome_mk|].
    destruct (CandleDataProcessor.findSeriesKey (param_at event 1)) as [key|e]; simpl bind.
    + destruct key as [key|]; [|now apply same_outcome_mk].
      destruct (param_at event 1) as [| | |props]; try now apply same_outcome_mk.
      destruct (lookup_prop key props) as [[|[newCandles|]]|]; try now apply same_outcome_mk.
      rewrite legacy_batchSize, legacy_filter.
      unfold SymbolStateManager.updateSymbolCandles. rewrite Hstate, Hopen.
      now apply same_outcome_mk.
    + apply same_outcome_mk. now apply same_promise_reject.
  - destruct (is_series_event event); [|now apply same_outcome_mk].
    destruct (no_symbol _) eqn:Hno; [now apply same_outcome_mk|].
    unfold CandleEventHandler.handleSeriesEvent, SymbolStateManager.getSymbolState.
    rewrite Hno.
    destruct (states mgr !! _) as [state|] eqn:Hstate; [|now apply same_outcome_mk].
    destruct (completed state) eqn:Hopen; [now apply same_outcome_mk|].
    rewrite legacy_batchSize, legacy_requests_more.
    cbn [CandleEventHandler.requestedAmount CandleEventHandler.batchSize
         Concurrent.eventHandler].
    destruct (CandleDataProcessor.shouldRequestMoreData _ _); [now apply same_outcome_mk|].
    unfold SymbolStateManager.markSymbolCompleted, SymbolStateManager.getProcessedCandles,
      Concurrent.onSymbolCompleted.
    rewrite Hstate, lookup_insert_eq, (Hfresh _ _ Hstate Hopen), orb_false_r.
    cbn [fst snd andb candles].
    destruct (_ =? _)%nat; apply same_outcome_mk; [now apply same_promise_resolve|exact Hpromise].
Qed.

Lemma legacy_subscriber_unflagged (params : GetCandlesParams) (batchSize : Z)
    (event : TradingviewEvent) (st : Concurrent.t) :
  unflagged (states (Concurrent.mgr st)) ->
  unflagged (states (Concurrent.mgr (Legacy.subscriber params batchSize event st))).
Proof.
  intros Hfresh. unfold Legacy.subscriber.
  destruct (String.eqb (name event) "timescale_update").
  - destruct (no_symbol _); [exact Hfresh|].
    destruct (states (Concurrent.mgr st) !! _) as [state|] eqn:Hstate; [|exact Hfresh].
    destruct (completed state) eqn:Hopen; [exact Hfresh|].
    destruct (CandleDataProcessor.findSeriesKey _) as [[key|]|e]; try exact Hfresh.
    destruct (param_at event 1) as [| | |props]; try exact Hfresh.
    destruct (lookup_prop key props) as [[|[newCandles|]]|]; try exact Hfresh.
    cbn [Concurrent.mgr states]. intros s state' Hlookup Hopen'.
    apply lookup_insert_Some in Hlookup as [[_ <-]|[_ Hlookup]]; [|eauto].
    simpl. eauto.
  - destruct (is_series_event event); [|exact Hfresh].
    destruct (no_symbol _); [exact Hfresh|].
    destruct (states (Concurrent.mgr st) !! _) as [state|] eqn:Hstate; [|exact Hfresh].
    destruct (completed state) eqn:Hopen; [exact Hfresh|].
    destruct (_ && _); [exact Hfresh|].
    assert (Hnext : unflagged
              (<[default "" (ChartSessionManager.getSymbolForSession (param_at event 0)
                               (sessionMap (Concurrent.mgr st))) :=
                   mkSymbolState (candles state) true
                     (String.eqb (name event) "symbol_error" || error state)]>
                 (states (Concurrent.mgr st)))).
    { intros s state' Hlookup Hopen'.
      apply lookup_insert_Some in Hlookup as [[_ <-]|[_ Hlookup]]; [discriminate|eauto]. }
    destruct (_ =? _)%nat; exact Hnext.
Qed.

Lemma legacy_run_agrees (params : GetCandlesParams) (events : list TradingviewEvent)
    (a b : Concurrent.t) :
  unflagged (states (Concurrent.mgr a)) ->
  same_outcome a b ->
  same_outcome (Legacy.run params events a) (Concurrent.run params events b).
Proof.
  revert a b. induction events as [|event events IH]; intros a b Hfresh Hsame; [exact Hsame|].
  cbn [Legacy.run Concurrent.run foldl]. apply IH.
  - unfold Legacy.dispatch. destruct (Concurrent.subscribed a); [|exact Hfresh].
    now apply legacy_subscriber_unflagged.
  - unfold Legacy.dispatch, Concurrent.dispatch.
    rewrite <- (proj1 (proj2 (proj2 (proj2 Hsame)))).
    destruct (Concurrent.subscribed a); [|exact Hsame].
    now apply legacy_subscriber_agrees.
Qed.

Lemma legacy_send_requests_states (params : GetCandlesParams) (batchSize : Z)
    (random : nat -> string) (i : nat) (rest : list string) (mgr : Managers) :
  states (Legacy.send_requests params batchSize random i rest mgr) = states mgr.
Proof.
  revert i mgr. induction rest as [|symbol rest IH]; intros i mgr; [reflexivity|].
  cbn [Legacy.send_requests]. now rewrite IH.
Qed.

(** X27: the single-file [getCandlesConcurrent] resolves with
    the series in the order of the request as well: whenever it resolves,
    the array holds at each index the series of the symbol at that index. *)
Lemma legacy_results_follow_input_order (params : GetCandlesParams)
    (random : nat -> string) (connection : list Command)
    (events : list TradingviewEvent) (results : list (option (list Candle))) :
  let st := Legacy.getCandlesConcurrent params random connection in
  "" ∉ symbols params ->
  Concurrent.promise (Legacy.run params events st) = resolved results ->
  results =
    map (fun symbol =>
           Some (symbol_series params (sessionMap (Concurrent.mgr st)) events symbol))
        (symbols params).
Proof.
  intros st Hnonempty Hlegacy.
  assert (Hstates : forall s,
            states (Concurrent.mgr st) !! s =
              if decide (s ∈ symbols params) then Some (mkSymbolState [] false false)
              else None).
  { intros s. subst st. unfold Legacy.getCandlesConcurrent.
    destruct (length (symbols params) =? 0)%nat eqn:Hlen.
    - apply Nat.eqb_eq, nil_length_inv in Hlen. rewrite Hlen.
      rewrite decide_False by (intros Hin; inversion Hin). apply lookup_empty.
    - cbn [Concurrent.mgr]. rewrite legacy_send_requests_states. cbn [states].
      pose proof (initial_states_lookup (symbols params) ∅ s) as Hinit.
      rewrite lookup_empty in Hinit. exact Hinit. }
  assert (Hfresh : unflagged (states (Concurrent.mgr st))).
  { intros s state Hlookup _. rewrite Hstates in Hlookup.
    destruct (decide _); [|discriminate]. now injection Hlookup as <-. }
  destruct (legacy_run_agrees params events st st Hfresh (same_outcome_refl st))
    as (_ & _ & _ & _ & Hpromise).
  assert (Hmodern : Concurrent.promise (Concurrent.run params events st) = resolved results).
  { destruct Hpromise as [<-|(e1 & e2 & He1 & _)]; [exact Hlegacy|congruence]. }
  clear Hlegacy Hpromise.
  apply (invariant_resolved params (sessionMap (Concurrent.mgr st))
           (symbol_state (Concurrent.eventHandler params) (sessionMap (Concurrent.mgr st))
              events) (Concurrent.run params events st)); [|exact Hmodern].
  apply invariant_run; [exact Hnonempty|].
  split.
  - reflexivity.
  - exact Hstates.
  - exists []. subst st. unfold Legacy.getCandlesConcurrent.
    destruct (_ =? _)%nat; (split; [reflexivity|]); (split; [constructor|]);
      intros s; (split; [intros Hin; inversion Hin|]); intros [_ Hdone]; discriminate Hdone.
  - intros s k _ Hdone. discriminate Hdone.
  - subst st. unfold Legacy.getCandlesConcurrent. destruct (_ =? _)%nat; simpl; lia.
  - subst st. unfold Legacy.getCandlesConcurrent.
    destruct (length (symbols params) =? 0)%nat eqn:Hlen; [|discriminate].
    intros _. apply Nat.eqb_eq in Hlen. now rewrite Hlen.
  - subst st. unfold Legacy.getCandlesConcurrent.
    destruct (length (symbols params) =? 0)%nat eqn:Hlen; [|discriminate].
    intros r [= <-]. split; reflexivity.
  - subst st. unfold Legacy.getCandlesConcurrent.
    destruct (length (symbols params) =? 0)%nat eqn:Hlen; [discriminate|].
    intros _. apply Nat.eqb_neq in Hlen. simpl. lia.
  - subst st. unfold Legacy.getCandlesConcurrent.
    destruct (length (symbols params) =? 0)%nat eqn:Hlen; [discriminate|discriminate].
Qed.

(** ** Streaming delivery: a failure discards the pending queue *)

Lemma find_series_throws (props : list (string * SeriesEntry)) (keys : list string)
    (e : JsError) :
  CandleDataProcessor.find_series props keys = Throw e -> message e <> "".
Proof.
  induction keys as [|key keys IH]; simpl; [discriminate|].
  destruct (startsWith key "sds_"); [|exact IH].
  destruct (lookup_prop key props) as [[|[l|]]|]; try exact IH; try discriminate;
    intros [= <-]; discriminate.
Qed.

Lemma handleTimescaleUpdate_throws (this : CandleEventHandler.t) (event : TradingviewEvent)
    (mgr : Managers) (e : JsError) :
  CandleEventHandler.handleTimescaleUpdate this event mgr = Throw e -> message e <> "".
Proof.
  unfold CandleEventHandler.handleTimescaleUpdate.
  destruct (no_symbol _); [discriminate|].
  destruct (SymbolStateManager.getSymbolState _ _) as [state|]; [|discriminate].
  destruct (completed state); [discriminate|].
  destruct (CandleDataProcessor.findSeriesKey (param_at event 1)) as [key|e'] eqn:Hkey;
    simpl bind.
  - destruct key as [key|]; [|discriminate].
    destruct (param_at event 1); try discriminate.
    destruct (lookup_prop key props) as [[|[l|]]|]; discriminate.
  - intros [= <-]. unfold CandleDataProcessor.findSeriesKey in Hkey.
    destruct (param_at event 1) as [| | |props]; try discriminate.
    + injection Hkey as <-. discriminate.
    + injection Hkey as <-. discriminate.
    + now apply find_series_throws in Hkey.
Qed.

Lemma stream_dispatch_invariant (params : GetCandlesParams) (event : TradingviewEvent)
    (st : CandleStream.t) :
  stream_invariant st -> stream_invariant (CandleStream.dispatch params event st).
Proof.
  intros Hinv. unfold CandleStream.dispatch.
  destruct (CandleStream.subscribed st) eqn:Hsub; [|exact Hinv].
  destruct (si_subscribed _ Hinv Hsub) as [Hactive Hpos].
  assert (Hclean : CandleStream.hasError st = false).
  { destruct (CandleStream.hasError st) eqn:Herr; [|reflexivity].
    destruct (si_error _ Hinv Herr). congruence. }
  unfold CandleStream.subscriber.
  destruct (String.eqb (name event) "timescale_update").
  - destruct (CandleEventHandler.handleTimescaleUpdate _ _ _) as [mgr'|e] eqn:Hupdate.
    + split; simpl; rewrite ?Hclean, ?Hsub, ?Hpos; auto; try discriminate.
    + split; simpl; rewrite ?Hpos; try discriminate.
      intros _. split; [reflexivity|].
      apply handleTimescaleUpdate_throws in Hupdate.
      apply negb_true_iff. now apply String.eqb_neq.
  - destruct (is_series_event event); [|exact Hinv].
    destruct (CandleEventHandler.handleSeriesEvent _ _ _ _ _) as [[mgr' pending'] done].
    destruct done.
    + simpl CandleStream.activeCount.
      destruct (Z.eqb_spec (CandleStream.activeCount st - 1) 0) as [Hzero|Hmore].
      * split; simpl; rewrite ?Hclean, ?Hpos; auto; discriminate.
      * split; simpl; rewrite ?Hclean, ?Hsub, ?Hpos; auto; try discriminate.
        intros _. split; [lia|reflexivity].
    + split; simpl; rewrite ?Hclean, ?Hsub, ?Hpos; auto; discriminate.
Qed.

Lemma stream_drain_invariant (st : CandleStream.t) :
  CandleStream.hasError st = false -> CandleStream.subscribed st = false ->
  stream_invariant (snd (CandleStream.drain st)).
Proof.
  intros Herr Hsub. unfold CandleStream.drain.
  destruct (CandleStream.pendingYields st); split; simpl; rewrite ?Herr, ?Hsub;
    auto; discriminate.
Qed.

Lemma stream_loop_invariant (st : CandleStream.t) :
  (CandleStream.hasError st = true ->
   CandleStream.subscribed st = false /\
   CandleStream.truthy_message (CandleStream.errorMessage st) = true) ->
  (CandleStream.subscribed st = true -> (0 < CandleStream.activeCount st)%Z) ->
  stream_invariant (snd (CandleStream.loop st)).
Proof.
  intros Herror Hsubscribed. unfold CandleStream.loop.
  destruct ((0 <? CandleStream.activeCount st)%Z && negb (CandleStream.hasError st)) eqn:Hcond.
  - apply andb_true_iff in Hcond as [Hactive Herr]. apply negb_true_iff in Herr.
    apply Z.ltb_lt in Hactive.
    destruct (CandleStream.pendingYields st); split; simpl; rewrite ?Herr;
      try discriminate; auto.
  - destruct (CandleStream.hasError st) eqn:Herr.
    + destruct (Herror eq_refl) as [Hsub Hmsg]. rewrite Hmsg. simpl.
      split; simpl; rewrite ?Herr; auto; discriminate.
    + simpl. rewrite andb_true_r in Hcond. apply Z.ltb_ge in Hcond.
      apply stream_drain_invariant; [exact Herr|].
      destruct (CandleStream.subscribed st) eqn:Hsub; [|reflexivity].
      specialize (Hsubscribed eq_refl). lia.
Qed.

Lemma stream_resume_invariant (params : GetCandlesParams) (random : nat -> string)
    (st : CandleStream.t) :
  stream_invariant st -> stream_invariant (snd (CandleStream.resume params random st)).
Proof.
  intros Hinv. unfold CandleStream.resume.
  destruct (CandleStream.position st) eqn:Hpos.
  - destruct (si_start _ Hinv Hpos) as [Herr Hsub].
    destruct (validateParams params) as [[]|e].
    + destruct (length (symbols params) =? 0)%nat eqn:Hlen.
      * split; simpl; rewrite ?Herr, ?Hsub; auto; discriminate.
      * apply Nat.eqb_neq in Hlen.
        apply stream_loop_invariant; simpl; rewrite ?Herr; [discriminate|lia].
    + split; simpl; rewrite ?Herr, ?Hsub; auto; discriminate.
  - apply stream_loop_invariant; [apply (si_error _ Hinv)|].
    intros Hsub. now apply (si_subscribed _ Hinv).
  - destruct (si_drain _ Hinv Hpos) as [Herr Hsub]. now apply stream_drain_invariant.
  - exact Hinv.
Qed.

Lemma stream_run_invariant (params : GetCandlesParams) (random : nat -> string)
    (schedule : list CandleStream.Action) (st : CandleStream.t) :
  stream_invariant st -> stream_invariant (snd (CandleStream.run params random schedule st)).
Proof.
  revert st. induction schedule as [|[event|] schedule IH]; intros st Hinv; simpl.
  - exact Hinv.
  - now apply IH, stream_dispatch_invariant.
  - destruct (CandleStream.position st) eqn:Hpos; try (now apply IH);
      pose proof (stream_resume_invariant params random st Hinv) as Hnext;
      destruct (CandleStream.resume params random st) as [step st'];
      specialize (IH st' Hnext);
      destruct (CandleStream.run params random schedule st') as [steps st''];
      exact IH.
Qed.

Lemma stream_new_invariant (connection : list Command) :
  stream_invariant (CandleStream.new connection).
Proof. split; simpl; auto; discriminate. Qed.

(** A finished, unsubscribed stream delivers nothing more. *)
Lemma stream_run_finished (params : GetCandlesParams) (random : nat -> string)
    (schedule : list CandleStream.Action) (st : CandleStream.t) :
  CandleStream.position st = CandleStream.finished ->
  CandleStream.subscribed st = false ->
  CandleStream.run params random schedule st = ([], st).
Proof.
  intros Hpos Hsub. induction schedule as [|[event|] schedule IH]; simpl.
  - reflexivity.
  - unfold CandleStream.dispatch. rewrite Hsub. exact IH.
  - rewrite Hpos. exact IH.
Qed.

(** C5, as the code has it: once an error is recorded before the generator
    has finished, whatever happens next the consumer receives the failure
    and nothing else: at its next resumption the generator throws, and the
    results that were waiting in the pending queue stay there. *)
Theorem stream_failure_discards_pending_results
    (params : GetCandlesParams) (random : nat -> string) (connection : list Command)
    (before after : list CandleStream.Action) :
  let st := snd (CandleStream.run params random before (CandleStream.new connection)) in
  CandleStream.hasError st = true ->
  CandleStream.position st <> CandleStream.finished ->
  exists msg,
    CandleStream.errorMessage st = Some msg /\ msg <> "" /\
    fst (CandleStream.run params random after st) =
      (if has_resume after
       then [CandleStream.thrown (ErrorFactory.generic msg None)]
       else []) /\
    CandleStream.pendingYields (snd (CandleStream.run params random after st)) =
      CandleStream.pendingYields st.
Proof.
  intros st Herr Hpos.
  assert (Hinv : stream_invariant st).
  { apply stream_run_invariant, stream_new_invariant. }
  clearbody st.
  destruct (si_error _ Hinv Herr) as [Hsub Hmsg].
  destruct (CandleStream.errorMessage st) as [msg|] eqn:Hmessage; [|discriminate].
  exists msg. split; [reflexivity|]. split.
  { intros ->. discriminate. }
  assert (Hloop : CandleStream.position st = CandleStream.in_loop).
  { destruct (CandleStream.position st) eqn:Hp; try reflexivity; try contradiction.
    - destruct (si_start _ Hinv Hp). congruence.
    - destruct (si_drain _ Hinv Hp). congruence. }
  induction after as [|[event|] after IH]; simpl.
  - auto.
  - unfold CandleStream.dispatch. rewrite Hsub. exact IH.
  - rewrite Hloop. unfold CandleStream.resume, CandleStream.loop.
    rewrite Hloop, Herr, Hmessage. simpl CandleStream.truthy_message in *.
    rewrite andb_false_r, Hmsg. cbn [andb default].
    rewrite stream_run_finished by reflexivity. simpl. auto.
Qed.

(** After [failing_schedule] the consumer resumes twice. *)
Lemma stream_failure_discards_pending_results_witness :
  let params := mkParams ["A"; "B"] None "60" in
  let st := snd (CandleStream.run params string_of_nat failing_schedule (CandleStream.new [])) in
  let after := [CandleStream.resumes; CandleStream.resumes] in
  exists msg,
    CandleStream.errorMessage st = Some msg /\ msg <> "" /\
    fst (CandleStream.run params string_of_nat after st) =
      (if has_resume after
       then [CandleStream.thrown (ErrorFactory.generic msg None)]
       else []) /\
    CandleStream.pendingYields (snd (CandleStream.run params string_of_nat after st)) =
      CandleStream.pendingYields st.
Proof.
  intros params st after.
  refine (stream_failure_discards_pending_results
            params string_of_nat [] failing_schedule after _ _).
  - vm_compute. reflexivity.
  - vm_compute. discriminate.
Defined.

(** C5 as stated fails: the result of A is in the pending queue when the
    failure is recorded, and the consumer is handed the failure without
    ever being handed that result. *)
Lemma queued_result_is_not_delivered_before_failure :
  let params := mkParams ["A"; "B"] None "60" in
  let st := snd (CandleStream.run params string_of_nat failing_schedule (CandleStream.new [])) in
  let delivered :=
    fst (CandleStream.run params string_of_nat
           [CandleStream.resumes; CandleStream.resumes] st) in
  CandleStream.hasError st = true /\
  map py_candles (CandleStream.pendingYields st) = [[bar_candle 1]] /\
  delivered =
    [CandleStream.thrown
       (ErrorFactory.generic "Cannot convert undefined or null to object" None)] /\
  ~ (exists rest, delivered = CandleStream.yielded [bar_candle 1] :: rest).
Proof.
  intros params st delivered.
  assert (Hdelivered : delivered =
            [CandleStream.thrown
               (ErrorFactory.generic "Cannot convert undefined or null to object" None)])
    by (vm_compute; reflexivity).
  split; [|split; [|split]].
  - vm_compute. reflexivity.
  - vm_compute. reflexivity.
  - exact Hdelivered.
  - intros [rest Hrest]. pose proof (eq_trans (eq_sym Hrest) Hdelivered) as Habsurd.
    discriminate Habsurd.
Qed.

(** ** The single-file generator fails the same way *)

Lemma findSeriesKey_throws (sessionData : Param) (e : JsError) :
  CandleDataProcessor.findSeriesKey sessionData = Throw e -> message e <> "".
Proof.
  unfold CandleDataProcessor.findSeriesKey. destruct sessionData as [| | |props].
  - intros [= <-]. discriminate.
  - intros [= <-]. discriminate.
  - discriminate.
  - apply find_series_throws.
Qed.

Lemma legacy_stream_dispatch_invariant (params : GetCandlesParams)
    (event : TradingviewEvent) (st : CandleStream.t) :
  stream_invariant st -> stream_invariant (LegacyStream.dispatch params event st).
Proof.
  intros Hinv. unfold LegacyStream.dispatch.
  destruct (CandleStream.subscribed st) eqn:Hsub; [|exact Hinv].
  destruct (si_subscribed _ Hinv Hsub) as [Hactive Hpos].
  assert (Hclean : CandleStream.hasError st = false).
  { destruct (CandleStream.hasError st) eqn:Herr; [|reflexivity].
    destruct (si_error _ Hinv Herr). congruence. }
  unfold LegacyStream.subscriber.
  destruct (String.eqb (name event) "timescale_update").
  - destruct (no_symbol _); [exact Hinv|].
    destruct (states (CandleStream.mgr st) !! _) as [state|]; [|exact Hinv].
    destruct (completed state); [exact Hinv|].
    destruct (CandleDataProcessor.findSeriesKey _) as [[key|]|e] eqn:Hkey; try exact Hinv.
    + destruct (param_at event 1) as [| | |props]; try exact Hinv.
      destruct (lookup_prop key props) as [[|[newCandles|]]|]; try exact Hinv.
      split; simpl; rewrite ?Hclean, ?Hsub, ?Hpos; auto; discriminate.
    + split; simpl; rewrite ?Hpos; try discriminate.
      intros _. split; [reflexivity|].
      apply findSeriesKey_throws in Hkey.
      apply negb_true_iff. now apply String.eqb_neq.
  - destruct (is_series_event event); [|exact Hinv].
    destruct (no_symbol _); [exact Hinv|].
    destruct (states (CandleStream.mgr st) !! _) as [state|]; [|exact Hinv].
    destruct (completed state); [exact Hinv|].
    destruct (_ && _).
    + split; simpl; rewrite ?Hclean, ?Hsub, ?Hpos; auto; discriminate.
    + destruct (Z.eqb_spec (CandleStream.activeCount st - 1) 0) as [Hzero|Hmore].
      * split; simpl; rewrite ?Hclean, ?Hpos; auto; discriminate.
      * split; simpl; rewrite ?Hclean, ?Hsub, ?Hpos; auto; try discriminate.
        intros _. split; [lia|reflexivity].
Qed.

Lemma legacy_stream_drain_invariant (st : CandleStream.t) :
  CandleStream.hasError st = false -> CandleStream.subscribed st = false ->
  stream_invariant (snd (LegacyStream.drain st)).
Proof.
  intros Herr Hsub. unfold LegacyStream.drain.
  destruct (CandleStream.pendingYields st); split; simpl; rewrite ?Herr, ?Hsub;
    auto; discriminate.
Qed.

Lemma legacy_stream_loop_invariant (st : CandleStream.t) :
  (CandleStream.hasError st = true ->
   CandleStream.subscribed st = false /\
   CandleStream.truthy_message (CandleStream.errorMessage st) = true) ->
  (CandleStream.subscribed st = true -> (0 < CandleStream.activeCount st)%Z) ->
  stream_invariant (snd (LegacyStream.loop st)).
Proof.
  intros Herror Hsubscribed. unfold LegacyStream.loop.
  destruct ((0 <? CandleStream.activeCount st)%Z && negb (CandleStream.hasError st)) eqn:Hcond.
  - apply andb_true_iff in Hcond as [Hactive Herr]. apply negb_true_iff in Herr.
    apply Z.ltb_lt in Hactive.
    destruct (CandleStream.pendingYields st); split; simpl; rewrite ?Herr;
      try discriminate; auto.
  - destruct (CandleStream.hasError st) eqn:Herr.
    + destruct (Herror eq_refl) as [Hsub Hmsg]. rewrite Hmsg. simpl.
      split; simpl; rewrite ?Herr, ?Hsub; auto; discriminate.
    + simpl. rewrite andb_true_r in Hcond. apply Z.ltb_ge in Hcond.
      apply legacy_stream_drain_invariant; [exact Herr|].
      destruct (CandleStream.subscribed st) eqn:Hsub; [|reflexivity].
      specialize (Hsubscribed eq_refl). lia.
Qed.

Lemma legacy_stream_resume_invariant (params : GetCandlesParams) (random : nat -> string)
    (st : CandleStream.t) :
  stream_invariant st -> stream_invariant (snd (LegacyStream.resume params random st)).
Proof.
  intros Hinv. unfold LegacyStream.resume.
  destruct (CandleStream.position st) eqn:Hpos.
  - destruct (si_start _ Hinv Hpos) as [Herr Hsub].
    destruct (length (symbols params) =? 0)%nat eqn:Hlen.
    + split; simpl; rewrite ?Herr, ?Hsub; auto; discriminate.
    + apply Nat.eqb_neq in Hlen.
      apply legacy_stream_loop_invariant; simpl; [discriminate|lia].
  - apply legacy_stream_loop_invariant; [apply (si_error _ Hinv)|].
    intros Hsub. now apply (si_subscribed _ Hinv).
  - destruct (si_drain _ Hinv Hpos) as [Herr Hsub]. now apply legacy_stream_drain_invariant.
  - exact Hinv.
Qed.

Lemma legacy_stream_run_invariant (params : GetCandlesParams) (random : nat -> string)
    (schedule : list CandleStream.Action) (st : CandleStream.t) :
  stream_invariant st -> stream_invariant (snd (LegacyStream.run params random schedule st)).
Proof.
  revert st. induction schedule as [|[event|] schedule IH]; intros st Hinv; simpl.
  - exact Hinv.
  - now apply IH, legacy_stream_dispatch_invariant.
  - destruct (CandleStream.position st) eqn:Hpos; try (now apply IH);
      pose proof (legacy_stream_resume_invariant params random st Hinv) as Hnext;
      destruct (LegacyStream.resume params random st) as [step st'];
      specialize (IH st' Hnext);
      destruct (LegacyStream.run params random schedule st') as [steps st''];
      exact IH.
Qed.

Lemma legacy_stream_run_finished (params : GetCandlesParams) (random : nat -> string)
    (schedule : list CandleStream.Action) (st : CandleStream.t) :
  CandleStream.position st = CandleStream.finished ->
  CandleStream.subscribed st = false ->
  LegacyStream.run params random schedule st = ([], st).
Proof.
  intros Hpos Hsub. induction schedule as [|[event|] schedule IH]; simpl.
  - reflexivity.
  - unfold LegacyStream.dispatch. rewrite Hsub. exact IH.
  - rewrite Hpos. exact IH.
Qed.

(** X29: once an error is recorded, the single-file generator
    hands its consumer the failure, a plain [Error], and nothing else, and
    the pending queue stays as it was. *)
Lemma legacy_stream_failure_discards_pending_results
    (params : GetCandlesParams) (random : nat -> string) (connection : list Command)
    (before after : list CandleStream.Action) :
  let st := snd (LegacyStream.run params random before (CandleStream.new connection)) in
  CandleStream.hasError st = true ->
  CandleStream.position st <> CandleStream.finished ->
  exists msg,
    CandleStream.errorMessage st = Some msg /\ msg <> "" /\
    fst (LegacyStream.run params random after st) =
      (if has_resume after then [CandleStream.thrown (new_Error msg)] else []) /\
    CandleStream.pendingYields (snd (LegacyStream.run params random after st)) =
      CandleStream.pendingYields st.
Proof.
  intros st Herr Hpos.
  assert (Hinv : stream_invariant st).
  { apply legacy_stream_run_invariant, stream_new_invariant. }
  clearbody st.
  destruct (si_error _ Hinv Herr) as [Hsub Hmsg].
  destruct (CandleStream.errorMessage st) as [msg|] eqn:Hmessage; [|discriminate].
  exists msg. split; [reflexivity|]. split.
  { intros ->. discriminate. }
  assert (Hloop : CandleStream.position st = CandleStream.in_loop).
  { destruct (CandleStream.position st) eqn:Hp; try reflexivity; try contradiction.
    - destruct (si_start _ Hinv Hp). congruence.
    - destruct (si_drain _ Hinv Hp). congruence. }
  induction after as [|[event|] after IH]; simpl.
  - auto.
  - unfold LegacyStream.dispatch. rewrite Hsub. exact IH.
  - rewrite Hloop. unfold LegacyStream.resume, LegacyStream.loop.
    rewrite Hloop, Herr, Hmessage. simpl CandleStream.truthy_message in *.
    rewrite andb_false_r, Hmsg. cbn [andb default].
    rewrite legacy_stream_run_finished by (try reflexivity; exact Hsub). simpl. auto.
Qed.

(** The events of [failing_schedule] under the session names the copy
    draws: the result of A is in the queue when the failure is raised. *)
Lemma legacy_stream_queued_result_is_lost :
  let params := mkParams ["A"; "B"] None "60" in
  let schedule :=
    [CandleStream.resumes;
     CandleStream.arrives (update_event "cs_A_0" [bar 1]);
     CandleStream.arrives (completion_event "cs_A_0");
     CandleStream.arrives (mkEvent "timescale_update" [p_string "cs_B_1"])] in
  let st := snd (LegacyStream.run params string_of_nat schedule (CandleStream.new [])) in
  map py_candles (CandleStream.pendingYields st) = [[bar_candle 1]] /\
  fst (LegacyStream.run params string_of_nat [CandleStream.resumes; CandleStream.resumes] st)
    = [CandleStream.thrown (new_Error "Cannot convert undefined or null to object")].
Proof. split; vm_compute; reflexivity. Qed.

(** * Further properties of the library *)

(** ** Validation of symbols *)

Lemma trim_ws_not_symbol_char (c : ascii) : is_trim_ws c = true -> is_symbol_char c = false.
Proof.
  destruct c as [[] [] [] [] [] [] [] []]; intros H; try discriminate H; reflexivity.
Qed.

Lemma last_char_not_symbol (s : string) (d : ascii) :
  last_char s = Some d -> is_symbol_char d = false -> all_symbol_chars s = false.
Proof.
  induction s as [|c s IH]; [discriminate|]. cbn [last_char all_symbol_chars].
  destruct s as [|c' s'].
  - intros [= ->] ->. reflexivity.
  - intros Hlast Hd. rewrite (IH Hlast Hd). apply andb_false_r.
Qed.

Lemma trim_changes_not_symbol (s : string) :
  trim_changes s = true -> all_symbol_chars s = false.
Proof.
  destruct s as [|c s]; [discriminate|]. unfold trim_changes.
  intros H. apply orb_true_iff in H as [Hfirst|Hlast].
  - cbn [all_symbol_chars]. now rewrite (trim_ws_not_symbol_char c Hfirst).
  - destruct (last_char (String c s)) as [d|] eqn:Hd; [|discriminate].
    apply (last_char_not_symbol _ d Hd). now apply trim_ws_not_symbol_char.
Qed.

(** X1: [validateSymbol] accepts exactly the non-empty strings over
    letters, digits, [:], [_], [.] and [-]; the test for surrounding white
    space changes the message of a rejection, never the verdict, and a
    rejection is a plain [Error], not the library's [ValidationError]. *)
Theorem validateSymbol_accepts_exactly (symbol : string) :
  (validateSymbol symbol = Return tt <-> symbol <> "" /\ all_symbol_chars symbol = true) /\
  (forall e, validateSymbol symbol = Throw e -> cls e = Error_).
Proof.
  unfold validateSymbol. destruct (String.eqb_spec symbol "") as [->|Hne].
  { split; [|intros e [= <-]; reflexivity]. split; [discriminate|]. intros [H _]. congruence. }
  destruct (trim_changes symbol) eqn:Htrim.
  { split; [|intros e [= <-]; reflexivity]. split; [discriminate|].
    intros [_ H]. rewrite (trim_changes_not_symbol _ Htrim) in H. discriminate. }
  destruct (all_symbol_chars symbol); simpl.
  - split; [|discriminate]. split; auto.
  - split; [|intros e [= <-]; reflexivity]. split; [discriminate|]. intros [_ H]. discriminate.
Qed.

Lemma validate_each_spec (index : nat) (symbols : list string) :
  (validate_each index symbols = Return tt <->
   Forall (fun s => validateSymbol s = Return tt) symbols) /\
  (forall k symbol cause,
     symbols !! k = Some symbol -> validateSymbol symbol = Throw cause ->
     (forall j s, (j < k)%nat -> symbols !! j = Some s -> validateSymbol s = Return tt) ->
     validate_each index symbols =
       Throw (new_Error ("Invalid symbol at index " +:+ string_of_nat (index + k) +:+ ": "
                         +:+ message cause))).
Proof.
  revert index. induction symbols as [|x symbols IH]; intros index.
  - split; [split; [constructor|reflexivity]|]. intros k symbol cause Hk. discriminate Hk.
  - cbn [validate_each]. destruct (IH (S index)) as [IHok IHbad]. split.
    + destruct (validateSymbol x) as [[]|e] eqn:Hx.
      * rewrite IHok. split; [now constructor|]. intros H. now inversion H.
      * split; [discriminate|]. intros H. inversion H; congruence.
    + intros [|k] symbol cause Hk Hcause Hbefore.
      * injection Hk as ->. rewrite Hcause. now rewrite Nat.add_0_r.
      * rewrite (Hbefore 0%nat x (Nat.lt_0_succ k) eq_refl).
        rewrite (IHbad k symbol cause Hk Hcause).
        -- now replace (S index + k)%nat with (index + S k)%nat by lia.
        -- intros j s Hj Hs. apply (Hbefore (S j) s); [lia|exact Hs].
Qed.

(** X2: [validateSymbols] accepts exactly the lists of one to a
    hundred symbols that [validateSymbol] accepts one by one; for a list of
    admissible length it reports the first symbol that is rejected, with
    its index and the reason. *)
Theorem validateSymbols_reports_first_invalid (symbols : list string) :
  (validateSymbols symbols = Return tt <->
   (1 <= length symbols <= 100)%nat /\
   Forall (fun s => validateSymbol s = Return tt) symbols) /\
  (forall k symbol cause,
     (1 <= length symbols <= 100)%nat ->
     symbols !! k = Some symbol -> validateSymbol symbol = Throw cause ->
     (forall j s, (j < k)%nat -> symbols !! j = Some s -> validateSymbol s = Return tt) ->
     validateSymbols symbols =
       Throw (new_Error ("Invalid symbol at index " +:+ string_of_nat k +:+ ": "
                         +:+ message cause))).
Proof.
  unfold validateSymbols. destruct (validate_each_spec 0 symbols) as [Hok Hbad].
  destruct (Nat.eqb_spec (length symbols) 0) as [Hzero|Hpos].
  { split; [|intros; lia]. split; [discriminate|]. intros [? _]. lia. }
  destruct (Nat.ltb_spec 100 (length symbols)) as [Hmany|Hfew].
  { split; [|intros; lia]. split; [discriminate|]. intros [? _]. lia. }
  split.
  - rewrite Hok. split; [intros H; split; [lia|exact H]|now intros [_ H]].
  - intros k symbol cause _. apply Hbad.
Qed.

(** ** The frame codec on what is not a frame *)

Lemma match_delimiter_tilde (c : ascii) (s : string) :
  match_delimiter (String c s) <> None -> c = "~"%char.
Proof.
  cbn [match_delimiter]. intros H.
  destruct (Ascii.eqb_spec c "~") as [->|Hne]; [reflexivity|].
  exfalso. apply H. clear H.
  destruct c as [[] [] [] [] [] [] [] []]; try reflexivity. now elim Hne.
Qed.

Lemma split_from_leading_text (fuel : nat) (text message : string) :
  free_of "~" text = true ->
  drop 1 (split_from (String.length text + fuel) (text +:+ message)) =
  drop 1 (split_from fuel message).
Proof.
  induction text as [|c text IH]; intros Hfree; [reflexivity|].
  cbn [free_of] in Hfree. apply andb_true_iff in Hfree as [Hc Hfree].
  rewrite append_cons. cbn [String.length Nat.add split_from].
  destruct (match_delimiter (String c (text +:+ message))) eqn:Hmatch.
  { assert (c = "~"%char) as -> by (apply (match_delimiter_tilde c (text +:+ message));
      congruence). discriminate Hc. }
  specialize (IH Hfree).
  destruct (split_from (String.length text + fuel) (text +:+ message)) as [|seg segs];
    destruct (split_from fuel message) as [|seg' segs']; simpl in *; congruence.
Qed.

Lemma split_from_nonempty (fuel : nat) (s : string) : split_from fuel s <> [].
Proof.
  revert s. induction fuel as [|fuel IH]; intros s; [discriminate|].
  cbn [split_from]. destruct (match_delimiter s); [discriminate|].
  destruct s as [|c s]; [discriminate|].
  specialize (IH s). destruct (split_from fuel s); [contradiction|discriminate].
Qed.

(** X5: text in which no delimiter occurs yields no payload and no
    error, and text without a tilde in front of a message is dropped
    without a trace: the codec reports neither. *)
Theorem parseMessage_drops_what_precedes_the_first_delimiter (text message : string) :
  (contains_delimiter text = false -> parseMessage text = Return []) /\
  (free_of "~" text = true -> parseMessage (text +:+ message) = parseMessage message).
Proof.
  split.
  - intros Hclean. unfold parseMessage, split_delimiter.
    destruct (String.length text =? 0)%nat; [reflexivity|].
    now rewrite split_from_no_delimiter.
  - intros Hfree. unfold parseMessage, split_delimiter. rewrite length_append.
    pose proof (split_from_leading_text (String.length message) text message Hfree) as Hdrop.
    rewrite Hdrop.
    destruct (Nat.eqb_spec (String.length text + String.length message) 0) as [Hzero|_];
      destruct (Nat.eqb_spec (String.length message) 0) as [Hempty|Hmore];
      try reflexivity; try lia.
    destruct message; [|discriminate Hempty]. reflexivity.
Qed.

Lemma parseMessage_drops_what_precedes_the_first_delimiter_witness :
  parseMessage "HTTP/1.1 101" = Return [] /\
  parseMessage ("noise" +:+ createMessage "du" [JNum 1%Z]) =
    parseMessage (createMessage "du" [JNum 1%Z]).
Proof.
  split.
  - apply (proj1 (parseMessage_drops_what_precedes_the_first_delimiter "HTTP/1.1 101" "")).
    reflexivity.
  - apply (proj2 (parseMessage_drops_what_precedes_the_first_delimiter
                    "noise" (createMessage "du" [JNum 1%Z]))). reflexivity.
Defined.

(** A keepalive is re-framed: whatever length the server declared, the
    datum of the ping is the body under a delimiter that carries the body's
    own length. *)
Lemma parseMessage_keepalive (n : nat) (body : string) :
  is_keepalive body -> contains_delimiter body = false ->
  parseMessage ("~m~" +:+ string_of_nat n +:+ "~m~" +:+ body) =
    Return [mkPayload type_ping
              (JStr (units ("~m~" +:+ string_of_nat (String.length body) +:+ "~m~"
                            +:+ body)))].
Proof.
  intros Hkeep Hclean. unfold parseMessage.
  rewrite split_delimiter_frame by exact Hclean.
  rewrite !append_cons. cbn [String.length Nat.eqb drop map_throwing].
  unfold parse_event. rewrite substring0_keepalive, Hkeep. reflexivity.
Qed.

(** ** The candidates of the connector *)

Ltac in_list := repeat first [apply list_elem_of_here | apply list_elem_of_further].

Lemma requested_endpoint_cases (options : ConnectionOptions) :
  requested_endpoint options ∈
    map (fun entry => mkEndpoint (fst entry) (snd entry)) ENDPOINTS \/
  exists url, requested_endpoint options = mkEndpoint "custom" url.
Proof.
  unfold requested_endpoint. destruct (endpoint options) as [e|]; [|left; cbn; in_list].
  destruct (negb (String.eqb e "") && bool_decide (e ∈ map fst ENDPOINTS)) eqn:Hnamed.
  - apply andb_true_iff in Hnamed as [_ Hin]. apply bool_decide_eq_true in Hin.
    left. apply list_elem_of_In in Hin. simpl in Hin.
    destruct Hin as [<-|[<-|[<-|[<-|[]]]]]; cbn; in_list.
  - destruct (negb (String.eqb e "") && startsWith e "wss://"); [right; eauto|left; cbn; in_list].
Qed.

(** X10: the list of candidates starts with the endpoint the
    options ask for, names no endpoint twice, and holds every endpoint of
    the table: four candidates, or five when the first is a custom URL. *)
Theorem endpointsToTry_tries_every_endpoint_once (options : ConnectionOptions) :
  head (endpointsToTry options) = Some (requested_endpoint options) /\
  NoDup (map ep_name (endpointsToTry options)) /\
  Forall (fun entry => mkEndpoint (fst entry) (snd entry) ∈ endpointsToTry options)
         ENDPOINTS /\
  length (endpointsToTry options) =
    (if String.eqb (ep_name (requested_endpoint options)) "custom" then 5 else 4)%nat.
Proof.
  unfold endpointsToTry.
  destruct (requested_endpoint_cases options) as [Hnamed|[url ->]].
  - apply list_elem_of_In in Hnamed. simpl in Hnamed.
    destruct Hnamed as [<-|[<-|[<-|[<-|[]]]]]; cbn;
      (split; [reflexivity|]);
      (split; [apply (bool_decide_unpack _); vm_compute; exact I|]);
      (split; [|reflexivity]); repeat (constructor; [cbn; in_list|]); constructor.
  - cbn. split; [reflexivity|].
    split; [apply (bool_decide_unpack _); vm_compute; exact I|].
    split; [|reflexivity]. repeat (constructor; [cbn; in_list|]). constructor.
Qed.

Lemma try_endpoints_returns {C : Type}
    (attempt : ConnectionOptions -> string -> string -> result C)
    (options : ConnectionOptions) (endpoints : list Endpoint)
    (lastError : option JsError) (c : C) :
  try_endpoints attempt options endpoints lastError = Return c <->
  exists before ep after,
    endpoints = before ++ ep :: after /\
    Forall (endpoint_fails attempt options) before /\
    attempt options (ep_name ep) (ep_url ep) = Return c.
Proof.
  revert lastError. induction endpoints as [|ep rest IH]; intros lastError.
  - simpl. split; [discriminate|]. intros (before & ep & after & Heq & _).
    destruct before; discriminate Heq.
  - cbn [try_endpoints].
    destruct (attempt options (ep_name ep) (ep_url ep)) as [c'|e] eqn:Hep.
    + split.
      * intros [= ->]. exists [], ep, rest. split; [reflexivity|]. split; [constructor|exact Hep].
      * intros (before & ep' & after & Heq & Hfail & Hok).
        destruct before as [|b before]; simpl in Heq; injection Heq as <- ->.
        -- congruence.
        -- inversion Hfail as [|? ? [e He] _]; subst. congruence.
    + rewrite IH. split.
      * intros (before & ep' & after & -> & Hfail & Hok).
        exists (ep :: before), ep', after. split; [reflexivity|].
        split; [constructor; [now exists e|exact Hfail]|exact Hok].
      * intros (before & ep' & after & Heq & Hfail & Hok).
        destruct before as [|b before]; simpl in Heq; injection Heq as <- ->.
        -- congruence.
        -- exists before, ep', after. split; [reflexivity|].
           split; [now inversion Hfail|exact Hok].
Qed.

(** X11: [connect] returns the connection of the first candidate,
    in the order of the list, that connects: every candidate before it has
    failed, and its failure is not reported. *)
Theorem connect_returns_first_success {C : Type}
    (attempt : ConnectionOptions -> string -> string -> result C)
    (options : ConnectionOptions) (c : C) :
  connect attempt options = Return c <->
  exists before ep after,
    endpointsToTry options = before ++ ep :: after /\
    Forall (endpoint_fails attempt options) before /\
    attempt options (ep_name ep) (ep_url ep) = Return c.
Proof. apply try_endpoints_returns. Qed.

(** ** The orchestrators at the edges of a request *)

(** X23: a request that lists a symbol twice is never answered:
    the symbol has one state and completes once, so the count of
    completions stays below the length of the list and
    [getCandlesConcurrent] never resolves, whatever events arrive. *)
Theorem duplicated_symbol_never_resolves
    (params : GetCandlesParams) (random : nat -> string) (connection : list Command)
    (events : list TradingviewEvent) (results : list (option (list Candle))) :
  ~ NoDup (symbols params) ->
  Concurrent.promise
    (Concurrent.run params events
       (Concurrent.getCandlesConcurrent params random connection)) <> resolved results.
Proof.
  intros Hdup Hresolved.
  destruct (validateParams params) as [[]|e] eqn:Hvalid.
  - destruct (invariant_reached params random connection events Hvalid) as [Hinv _].
    destruct (inv_resolved _ _ _ _ Hinv _ Hresolved) as [_ Hunsub].
    pose proof (inv_unsubscribed _ _ _ _ Hinv Hunsub) as Hcount.
    destruct (invariant_all_completed _ _ _ _ Hinv Hcount) as [Hnodup _]. contradiction.
  - revert Hresolved. unfold Concurrent.getCandlesConcurrent. rewrite Hvalid.
    rewrite run_unsubscribed by reflexivity. discriminate.
Qed.

(** The symbol A twice: both of its sessions complete, nothing resolves. *)
Lemma duplicated_symbol_never_resolves_witness :
  let params := mkParams ["A"; "A"] None "60" in
  let events := [completion_event "cs_A_1"; completion_event "cs_A_3"] in
  Concurrent.promise
    (Concurrent.run params events (Concurrent.getCandlesConcurrent params string_of_nat []))
  <> resolved [Some []; Some []].
Proof.
  intros params events.
  apply (duplicated_symbol_never_resolves params string_of_nat [] events).
  intros Hnodup. inversion Hnodup as [|? ? Hnotin _]. apply Hnotin. apply list_elem_of_here.
Defined.

(** X18: for an empty list of symbols the class-based calls fail in
    validation, before anything is sent: the branch that would answer with
    an empty array is never reached, whereas the single-file copies answer
    at once.  The failure is the same whatever time frame the caller gave,
    valid or not: the symbols are validated first. *)
Theorem empty_request_fails_validation
    (params : GetCandlesParams) (random : nat -> string) (randomId : string)
    (connection : list Command) :
  symbols params = [] ->
  let e := new_Error "At least one symbol must be provided" in
  Concurrent.getCandlesConcurrent params random connection =
    Concurrent.mk (mkManagers ∅ ∅ connection) [] 0 (rejected e) false /\
  Sequential.getCandles params randomId connection =
    Sequential.mk [] 0 [] connection (rejected e) false /\
  CandleStream.resume params random (CandleStream.new connection) =
    (CandleStream.thrown e,
     CandleStream.at_position CandleStream.finished (CandleStream.new connection)) /\
  Legacy.getCandlesConcurrent params random connection =
    Concurrent.mk (mkManagers ∅ ∅ connection) [] 0 (resolved []) false /\
  LegacyStream.resume params random (CandleStream.new connection) =
    (CandleStream.returned,
     CandleStream.at_position CandleStream.finished (CandleStream.new connection)) /\
  (forall given, validateParams_as_called true given params = Throw e).
Proof.
  intros Hempty e.
  assert (Hvalid : validateParams params = Throw e).
  { unfold validateParams, validateSymbols. rewrite Hempty. reflexivity. }
  unfold Concurrent.getCandlesConcurrent, Sequential.getCandles, CandleStream.resume,
    Legacy.getCandlesConcurrent, LegacyStream.resume, validateParams_as_called.
  rewrite Hvalid, Hempty. cbn. auto 10.
Qed.

Lemma empty_request_fails_validation_witness :
  Concurrent.promise (Concurrent.getCandlesConcurrent (mkParams [] (Some 10%Z) "1D")
                        string_of_nat []) =
    rejected (new_Error "At least one symbol must be provided").
Proof.
  destruct (empty_request_fails_validation (mkParams [] (Some 10%Z) "1D") string_of_nat
              "r" [] eq_refl) as [-> _].
  reflexivity.
Defined.

(** ** Sequential retrieval *)

Lemma param_at_retag (sessionId : string) (event : TradingviewEvent) :
  param_at (retag sessionId event) 1 = param_at event 1.
Proof.
  unfold param_at, retag. cbn [params]. destruct (params event) as [|p [|q rest]]; reflexivity.
Qed.

Lemma sequential_dispatch_retag (params : GetCandlesParams) (randomId sessionId : string)
    (event : TradingviewEvent) (st : Sequential.t) :
  Sequential.dispatch params randomId (retag sessionId event) st =
  Sequential.dispatch params randomId event st.
Proof.
  unfold Sequential.dispatch, Sequential.subscriber, Sequential.read_series, is_series_event.
  rewrite param_at_retag. reflexivity.
Qed.

(** X19: the subscriber of [getCandles] never looks at the session
    an event is tagged with: whatever session ids the events carry, the
    bars go to the symbol being loaded and a completion closes it. *)
Theorem sequential_retrieval_ignores_session_ids
    (params : GetCandlesParams) (randomId : string) (relabel : TradingviewEvent -> string)
    (events : list TradingviewEvent) (st : Sequential.t) :
  Sequential.run params randomId (map (fun event => retag (relabel event) event) events) st =
  Sequential.run params randomId events st.
Proof.
  unfold Sequential.run. revert st.
  induction events as [|event events IH]; intros st; [reflexivity|].
  cbn [map foldl]. now rewrite sequential_dispatch_retag, IH.
Qed.

Lemma sequential_dispatch_settled (params : GetCandlesParams) (randomId : string)
    (event : TradingviewEvent) (st : Sequential.t) :
  Sequential.promise st <> pending ->
  Sequential.promise (Sequential.dispatch params randomId event st) = Sequential.promise st.
Proof.
  intros Hsettled. unfold Sequential.dispatch, Sequential.subscriber.
  destruct (Sequential.subscribed st); [|reflexivity].
  destruct (String.eqb (name event) "timescale_update").
  - destruct (Sequential.read_series event); cbn [Sequential.promise]; [reflexivity|].
    destruct (Sequential.promise st); [contradiction|reflexivity..].
  - destruct (is_series_event event); [|reflexivity].
    destruct (CandleDataProcessor.shouldRequestMoreData _ _); [reflexivity|].
    destruct (_ <? _)%nat; cbn [Sequential.promise]; [reflexivity|].
    destruct (Sequential.promise st); [contradiction|reflexivity..].
Qed.

Lemma sequential_run_settled (params : GetCandlesParams) (randomId : string)
    (events : list TradingviewEvent) (st : Sequential.t) :
  Sequential.promise st <> pending ->
  Sequential.promise (Sequential.run params randomId events st) = Sequential.promise st.
Proof.
  unfold Sequential.run. revert st.
  induction events as [|event events IH]; intros st Hsettled; [reflexivity|].
  cbn [foldl]. rewrite IH.
  - now apply sequential_dispatch_settled.
  - now rewrite sequential_dispatch_settled.
Qed.

(** X20: an update whose payload has no readable [sds_1.s]
    rejects the sequential call with a [DataError] that names the symbol
    being loaded and quotes the cause.  The subscriber stays subscribed and
    its accumulator is untouched, and no later event changes the
    rejection. *)
Theorem unreadable_update_rejects_sequential_call
    (params : GetCandlesParams) (randomId : string) (event : TradingviewEvent)
    (st : Sequential.t) (cause : JsError) (later : list TradingviewEvent) :
  name event = "timescale_update" ->
  Sequential.subscribed st = true ->
  Sequential.promise st = pending ->
  Sequential.read_series event = Throw cause ->
  let symbol := default "" (symbols params !! Sequential.currentSymIndex st) in
  let failure :=
    mkError DataError
      ("Failed to parse data for symbol: " +:+ symbol +:+ " (" +:+ message cause +:+ ")")
      (Some "DATA_ERROR") (Some symbol) in
  let st' := Sequential.dispatch params randomId event st in
  st' = Sequential.mk (Sequential.allCandles st) (Sequential.currentSymIndex st)
          (Sequential.currentSymCandles st) (Sequential.connection st)
          (rejected failure) true /\
  Sequential.promise (Sequential.run params randomId later st') = rejected failure.
Proof.
  intros Hname Hsub Hpending Hread symbol failure st'.
  assert (Hstep : st' = Sequential.mk (Sequential.allCandles st) (Sequential.currentSymIndex st)
                          (Sequential.currentSymCandles st) (Sequential.connection st)
                          (rejected failure) true).
  { subst st'. unfold Sequential.dispatch, Sequential.subscriber.
    rewrite Hsub, Hname, Hread, Hpending. reflexivity. }
  split; [exact Hstep|].
  rewrite sequential_run_settled; rewrite Hstep; [reflexivity|discriminate].
Qed.

(** The second symbol is being loaded when an update without payload
    arrives; the completion that follows does not resolve the call. *)
Lemma unreadable_update_rejects_sequential_call_witness :
  let params := mkParams ["A"; "B"] None "60" in
  let st :=
    Sequential.run params "r" [completion_event "cs_r"] (Sequential.getCandles params "r" []) in
  let event := mkEvent "timescale_update" [p_string "cs_r"] in
  Sequential.promise
    (Sequential.run params "r" [completion_event "cs_r"]
       (Sequential.dispatch params "r" event st)) =
  rejected
    (mkError DataError
       "Failed to parse data for symbol: B (Cannot read properties of undefined (reading 'sds_1'))"
       (Some "DATA_ERROR") (Some "B")).
Proof.
  intros params st event.
  exact (proj2 (unreadable_update_rejects_sequential_call params "r" event st
                  (undefined_read_error "sds_1") [completion_event "cs_r"]
                  eq_refl eq_refl eq_refl eq_refl)).
Defined.

(** ** Concurrent retrieval *)

Lemma concurrent_dispatch_settled (params : GetCandlesParams) (event : TradingviewEvent)
    (st : Concurrent.t) :
  Concurrent.promise st <> pending ->
  Concurrent.promise (Concurrent.dispatch params event st) = Concurrent.promise st.
Proof.
  intros Hsettled. unfold Concurrent.dispatch, Concurrent.subscriber.
  destruct (Concurrent.subscribed st); [|reflexivity].
  destruct (String.eqb (name event) "timescale_update").
  - destruct (CandleEventHandler.handleTimescaleUpdate _ _ _); cbn [Concurrent.promise];
      [reflexivity|].
    destruct (Concurrent.promise st); [contradiction|reflexivity..].
  - destruct (is_series_event event); [|reflexivity].
    destruct (no_symbol _); [reflexivity|].
    destruct (CandleEventHandler.handleSeriesEvent _ _ _ _ _) as [[mgr' [res n]] done].
    destruct (done && (n =? length (symbols params))%nat); cbn [Concurrent.promise];
      [|reflexivity].
    destruct (Concurrent.promise st); [contradiction|reflexivity..].
Qed.

Lemma concurrent_run_settled (params : GetCandlesParams) (events : list TradingviewEvent)
    (st : Concurrent.t) :
  Concurrent.promise st <> pending ->
  Concurrent.promise (Concurrent.run params events st) = Concurrent.promise st.
Proof.
  unfold Concurrent.run. revert st.
  induction events as [|event events IH]; intros st Hsettled; [reflexivity|].
  cbn [foldl]. rewrite IH.
  - now apply concurrent_dispatch_settled.
  - now rewrite concurrent_dispatch_settled.
Qed.

(** X22: when the update handler throws, the concurrent call is
    rejected with a [DataError] that names the symbol [unknown], whichever
    symbol the update was for, and quotes the cause.  The managers are left
    as they were, the subscriber stays subscribed, and no later event
    changes the rejection. *)
Theorem unreadable_update_rejects_concurrent_call
    (params : GetCandlesParams) (event : TradingviewEvent) (st : Concurrent.t)
    (cause : JsError) (later : list TradingviewEvent) :
  name event = "timescale_update" ->
  Concurrent.subscribed st = true ->
  Concurrent.promise st = pending ->
  CandleEventHandler.handleTimescaleUpdate (Concurrent.eventHandler params) event
    (Concurrent.mgr st) = Throw cause ->
  let failure :=
    mkError DataError
      ("Failed to parse data for symbol: unknown (" +:+ message cause +:+ ")")
      (Some "DATA_ERROR") (Some "unknown") in
  let st' := Concurrent.dispatch params event st in
  st' = Concurrent.mk (Concurrent.mgr st) (Concurrent.results st)
          (Concurrent.completedCount st) (rejected failure) true /\
  Concurrent.promise (Concurrent.run params later st') = rejected failure.
Proof.
  intros Hname Hsub Hpending Hthrow failure st'.
  assert (Hstep : st' = Concurrent.mk (Concurrent.mgr st) (Concurrent.results st)
                          (Concurrent.completedCount st) (rejected failure) true).
  { subst st'. unfold Concurrent.dispatch, Concurrent.subscriber.
    rewrite Hsub, Hname, Hthrow, Hpending. reflexivity. }
  split; [exact Hstep|].
  rewrite concurrent_run_settled; rewrite Hstep; [reflexivity|discriminate].
Qed.

(** An update for A whose series entry is [null]; the completion of A that
    follows does not resolve the call. *)
Lemma unreadable_update_rejects_concurrent_call_witness :
  let params := mkParams ["A"] None "60" in
  let st := Concurrent.getCandlesConcurrent params string_of_nat [] in
  let event :=
    mkEvent "timescale_update" [p_string "cs_A_1"; p_object [("sds_1", entry_null)]] in
  Concurrent.promise
    (Concurrent.run params [completion_event "cs_A_1"] (Concurrent.dispatch params event st)) =
  rejected
    (mkError DataError
       "Failed to parse data for symbol: unknown (Cannot read properties of null (reading 's'))"
       (Some "DATA_ERROR") (Some "unknown")).
Proof.
  intros params st event.
  exact (proj2 (unreadable_update_rejects_concurrent_call params event st
                  (null_read_error "s") [completion_event "cs_A_1"]
                  eq_refl eq_refl eq_refl eq_refl)).
Defined.

Lemma free_of_append (c : ascii) (s t : string) :
  free_of c (s +:+ String c t) = false.
Proof.
  induction s as [|d s IH].
  - rewrite append_empty. cbn [free_of]. now rewrite Ascii.eqb_refl.
  - rewrite append_cons. cbn [free_of]. rewrite IH. apply andb_false_r.
Qed.

(** A session id is read back unambiguously when the random part holds no
    underscore. *)
Lemma session_id_injective (s s' r r' : string) :
  free_of "_" r = true -> free_of "_" r' = true ->
  s +:+ String "_" r = s' +:+ String "_" r' -> s = s' /\ r = r'.
Proof.
  intros Hr Hr'. revert s'. induction s as [|c s IH]; intros [|c' s'];
    rewrite ?append_empty, ?append_cons.
  - intros [= ->]. auto.
  - intros [= <- ->]. now rewrite free_of_append in Hr.
  - intros [= -> <-]. now rewrite free_of_append in Hr'.
  - intros [= -> Heq]. destruct (IH s' Heq) as [-> ->]. auto.
Qed.

Lemma generateChartSession_injective (symbol symbol' r r' : string) :
  symbol <> "" -> symbol' <> "" ->
  free_of "_" r = true -> free_of "_" r' = true ->
  CandleDataProcessor.generateChartSession (Some symbol) r =
  CandleDataProcessor.generateChartSession (Some symbol') r' ->
  symbol = symbol' /\ r = r'.
Proof.
  intros Hs Hs' Hr Hr'. unfold CandleDataProcessor.generateChartSession.
  apply String.eqb_neq in Hs, Hs'. rewrite Hs, Hs'.
  change ("_" +:+ r) with (String "_" r). change ("_" +:+ r') with (String "_" r').
  rewrite !append_cons, !append_empty. intros [= Heq].
  now apply session_id_injective.
Qed.

Lemma send_requests_sessions (params : GetCandlesParams) (batchSize : Z)
    (random : nat -> string) (index : nat) (rest : list string) (mgr : Managers)
    (session symbol : string) :
  sessionMap (Concurrent.send_requests params batchSize random index rest mgr) !! session
    = Some symbol ->
  sessionMap mgr !! session = Some symbol \/
  exists j,
    rest !! j = Some symbol /\
    session =
      CandleDataProcessor.generateChartSession (Some symbol) (random (2 * (index + j) + 1)%nat).
Proof.
  revert index mgr. induction rest as [|x rest IH]; intros index mgr; [auto|].
  cbn [Concurrent.send_requests]. unfold ChartSessionManager.createChartSession.
  intros Hlookup. apply IH in Hlookup as [Hlookup|(j & Hj & ->)].
  - cbn [sessionMap] in Hlookup. apply lookup_insert_Some in Hlookup as [[<- <-]|[_ Hold]].
    + right. exists 0%nat. split; [reflexivity|]. now rewrite Nat.add_0_r.
    + now left.
  - right. exists (S j). split; [exact Hj|]. now replace (index + S j)%nat with (S index + j)%nat by lia.
Qed.

Lemma send_requests_commands (params : GetCandlesParams) (random : nat -> string)
    (index : nat) (rest : list string) (mgr : Managers) (j : nat) (symbol : string) :
  rest !! j = Some symbol ->
  create_series_command params random (index + j) symbol ∈
    connection (Concurrent.send_requests params
                  (CandleDataProcessor.calculateBatchSize (amount params))
                  random index rest mgr).
Proof.
  assert (Hkeeps : forall rest index mgr c,
            c ∈ connection mgr ->
            c ∈ connection (Concurrent.send_requests params
                              (CandleDataProcessor.calculateBatchSize (amount params))
                              random index rest mgr)).
  { clear. induction rest as [|x rest IH]; intros index mgr c Hc; [exact Hc|].
    cbn [Concurrent.send_requests]. unfold ChartSessionManager.createChartSession.
    apply IH. cbn [connection].
    unfold ChartSessionManager.createSeries, ChartSessionManager.resolveSymbol, send.
    rewrite !elem_of_app. auto. }
  revert index mgr j. induction rest as [|x rest IH]; intros index mgr j Hj; [discriminate Hj|].
  cbn [Concurrent.send_requests]. unfold ChartSessionManager.createChartSession.
  destruct j as [|j].
  - injection Hj as ->. apply Hkeeps. cbn [connection].
    unfold ChartSessionManager.createSeries, send. rewrite elem_of_app. right.
    rewrite Nat.add_0_r. apply list_elem_of_here.
  - replace (index + S j)%nat with (S index + j)%nat by lia. now apply IH.
Qed.

Lemma concurrent_dispatch_unrouted (params : GetCandlesParams) (event : TradingviewEvent)
    (st : Concurrent.t) :
  ChartSessionManager.getSymbolForSession (param_at event 0)
    (sessionMap (Concurrent.mgr st)) = None ->
  Concurrent.dispatch params event st = st.
Proof.
  intros Hnone. unfold Concurrent.dispatch, Concurrent.subscriber,
    CandleEventHandler.handleTimescaleUpdate.
  rewrite Hnone. cbn [no_symbol].
  destruct st as [mgr results count promise [|]]; [|reflexivity].
  destruct (String.eqb _ _); [reflexivity|].
  now destruct (is_series_event event).
Qed.

Lemma stream_send_requests_concurrent (params : GetCandlesParams) (batchSize : Z)
    (random : nat -> string) (index : nat) (rest : list string) (mgr : Managers) :
  CandleStream.send_requests params batchSize random index rest mgr =
  Concurrent.send_requests params batchSize random index rest mgr.
Proof.
  revert index mgr. induction rest as [|x rest IH]; intros index mgr; [reflexivity|].
  cbn [CandleStream.send_requests Concurrent.send_requests].
  destruct (ChartSessionManager.createChartSession _ _ _ _) as [[session map'] connection1].
  apply IH.
Qed.

Lemma stream_dispatch_unrouted (params : GetCandlesParams) (event : TradingviewEvent)
    (st : CandleStream.t) :
  ChartSessionManager.getSymbolForSession (param_at event 0)
    (sessionMap (CandleStream.mgr st)) = None ->
  CandleStream.dispatch params event st = st.
Proof.
  intros Hnone. unfold CandleStream.dispatch, CandleStream.subscriber,
    CandleEventHandler.handleTimescaleUpdate, CandleEventHandler.handleSeriesEvent.
  rewrite Hnone. cbn [no_symbol].
  destruct st as [mgr pending active err msg [|] pos]; [|reflexivity].
  destruct (String.eqb _ _); [reflexivity|].
  now destruct (is_series_event event).
Qed.

Lemma series_sessions_unregistered_after_requests
    (params : GetCandlesParams) (random : nat -> string) (mgr : Managers) :
  validateParams params = Return tt ->
  (forall k, free_of "_" (random k) = true) ->
  (forall i j, random (2 * i)%nat <> random (2 * j + 1)%nat) ->
  sessionMap mgr = ∅ ->
  forall index symbol,
    symbols params !! index = Some symbol ->
    sessionMap (Concurrent.send_requests params
                  (CandleDataProcessor.calculateBatchSize (amount params)) random 0
                  (symbols params) mgr)
      !! series_session random index symbol = None.
Proof.
  intros Hvalid Hfree Hdiffer Hempty index symbol Hindex.
  pose proof (validateParams_nonempty params Hvalid) as Hnonempty.
  destruct (sessionMap _ !! _) as [symbol'|] eqn:Hlookup; [|reflexivity]. exfalso.
  apply send_requests_sessions in Hlookup as [Hold|(j & Hj & Heq)].
  - now rewrite Hempty, lookup_empty in Hold.
  - unfold series_session in Heq.
    apply generateChartSession_injective in Heq as [_ Heq]; auto.
    + now apply (Hdiffer index (0 + j)%nat).
    + intros ->. apply Hnonempty. eapply list_elem_of_lookup_2; eauto.
    + intros ->. apply Hnonempty. eapply list_elem_of_lookup_2; eauto.
Qed.

(** X24: [getCandlesConcurrent] and the stream draw two session
    ids per symbol: they create and register one, and resolve the symbol
    and create the series on the other.  When the draws are base-36 texts
    that differ, no session a series was created on is registered, so
    every event tagged with such a session is ignored: the concurrent call
    stays pending as it is, and the stream hands its consumer nothing and
    does not finish. *)
Theorem series_sessions_are_not_registered
    (params : GetCandlesParams) (random : nat -> string) (sent : list Command) :
  validateParams params = Return tt ->
  (forall k, free_of "_" (random k) = true) ->
  (forall i j, random (2 * i)%nat <> random (2 * j + 1)%nat) ->
  let st := Concurrent.getCandlesConcurrent params random sent in
  (forall index symbol,
     symbols params !! index = Some symbol ->
     create_series_command params random index symbol ∈ connection (Concurrent.mgr st) /\
     sessionMap (Concurrent.mgr st) !! series_session random index symbol = None) /\
  (forall events,
     Forall (on_series_session params random) events ->
     Concurrent.run params events st = st /\ Concurrent.promise st = pending) /\
  (forall schedule,
     schedule_on_series_sessions params random schedule ->
     let result := CandleStream.run params random schedule (CandleStream.new sent) in
     fst result = [] /\
     CandleStream.position (snd result) <> CandleStream.finished).
Proof.
  intros Hvalid Hfree Hdiffer st.
  assert (Hlen : (length (symbols params) =? 0)%nat = false).
  { destruct (length (symbols params) =? 0)%nat eqn:Hzero; [|reflexivity].
    revert Hvalid. unfold validateParams, validateSymbols. now rewrite Hzero. }
  assert (Hst : st = Concurrent.mk
            (Concurrent.send_requests params
               (CandleDataProcessor.calculateBatchSize (amount params)) random 0
               (symbols params)
               (mkManagers
                  (foldl (fun states symbol =>
                            SymbolStateManager.initializeSymbol symbol states)
                         ∅ (symbols params)) ∅ sent))
            [] 0 pending true).
  { subst st. unfold Concurrent.getCandlesConcurrent. now rewrite Hvalid, Hlen. }
  assert (Hunregistered : forall index symbol,
            symbols params !! index = Some symbol ->
            sessionMap (Concurrent.mgr st) !! series_session random index symbol = None).
  { intros index symbol Hindex. rewrite Hst. cbn [Concurrent.mgr].
    now apply series_sessions_unregistered_after_requests. }
  split; [|split].
  - intros index symbol Hindex. split; [|now apply Hunregistered].
    rewrite Hst. cbn [Concurrent.mgr].
    apply (send_requests_commands params random 0 (symbols params) _ index symbol Hindex).
  - intros events Hevents. split; [|now rewrite Hst].
    induction events as [|event events IH] using rev_ind; [reflexivity|].
    apply Forall_app in Hevents as [Hevents Hevent]. rewrite Forall_singleton in Hevent.
    rewrite run_snoc, (IH Hevents).
    apply concurrent_dispatch_unrouted.
    destruct Hevent as (index & symbol & Hindex & ->).
    cbn [ChartSessionManager.getSymbolForSession]. now apply Hunregistered.
  - set (started := CandleStream.at_position CandleStream.in_loop
                      (CandleStream.initializeRequests params random (CandleStream.new sent))).
    assert (Hwaits : forall schedule,
              schedule_on_series_sessions params random schedule ->
              CandleStream.run params random schedule started = ([], started)).
    { induction schedule as [|[event|] schedule IH]; intros Hschedule; [reflexivity| |];
        inversion Hschedule as [|? ? Hevent Hrest]; subst; cbn [CandleStream.run].
      - rewrite stream_dispatch_unrouted; [now apply IH|].
        destruct Hevent as (index & symbol & Hindex & ->).
        cbn [ChartSessionManager.getSymbolForSession]. subst started.
        cbn [CandleStream.mgr CandleStream.at_position CandleStream.initializeRequests].
        rewrite stream_send_requests_concurrent.
        now apply series_sessions_unregistered_after_requests.
      - assert (Hresume : CandleStream.resume params random started
                          = (CandleStream.awaiting, started)).
        { subst started. unfold CandleStream.resume, CandleStream.loop. cbn.
          apply Nat.eqb_neq in Hlen.
          destruct (Z.ltb_spec 0 (Z.of_nat (length (symbols params)))) as [_|]; [|lia].
          reflexivity. }
        replace (CandleStream.position started) with CandleStream.in_loop by reflexivity.
        rewrite Hresume, (IH Hrest). reflexivity. }
    induction schedule as [|[event|] schedule IH]; intros Hschedule result.
    + split; [reflexivity|discriminate].
    + inversion Hschedule; subst. now apply IH.
    + inversion Hschedule as [|? ? _ Hrest]; subst. subst result.
      cbn [CandleStream.run CandleStream.position CandleStream.new].
      unfold CandleStream.resume. cbn [CandleStream.position CandleStream.new].
      rewrite Hvalid, Hlen. unfold CandleStream.loop.
      cbn [CandleStream.activeCount CandleStream.hasError CandleStream.pendingYields
           CandleStream.initializeRequests CandleStream.new negb].
      apply Nat.eqb_neq in Hlen.
      destruct (Z.ltb_spec 0 (Z.of_nat (length (symbols params)))) as [_|]; [|lia].
      cbn [andb]. fold started. rewrite (Hwaits schedule Hrest).
      split; [reflexivity|discriminate].
Qed.

(** Two symbols and draws that alternate between two texts: the updates
    and completions of both series leave the call pending. *)
Lemma series_sessions_are_not_registered_witness :
  let params := mkParams ["A"; "B"] None "60" in
  let random := fun k : nat => if Nat.even k then "x7" else "q2" in
  let st := Concurrent.getCandlesConcurrent params random [] in
  let events :=
    [update_event "cs_A_x7" [bar 1]; completion_event "cs_A_x7";
     update_event "cs_B_x7" [bar 2]; completion_event "cs_B_x7"] in
  Concurrent.run params events st = st /\ Concurrent.promise st = pending.
Proof.
  intros params random st events.
  refine (proj1 (proj2 (series_sessions_are_not_registered params random [] eq_refl _ _))
            events _).
  - intros k. unfold random. destruct (Nat.even k); reflexivity.
  - intros i j. unfold random.
    rewrite Nat.even_mul, Nat.even_add, Nat.even_mul. simpl. discriminate.
  - repeat constructor.
    + exists 0%nat, "A". split; reflexivity.
    + exists 0%nat, "A". split; reflexivity.
    + exists 1%nat, "B". split; reflexivity.
    + exists 1%nat, "B". split; reflexivity.
Defined.

(** ** The single-file copy and the classes *)

(** X26: fed the same events from the same state, the subscriber of
    the single-file [getCandlesConcurrent] and the one built from the
    classes end with the same states, sessions, commands, results and
    count, and settle the promise alike; only the reason of a rejection
    differs, which the class-based one wraps in a [DataError]. *)
Theorem single_file_subscriber_agrees_with_classes
    (params : GetCandlesParams) (events : list TradingviewEvent) (st : Concurrent.t) :
  unflagged (states (Concurrent.mgr st)) ->
  same_outcome (Legacy.run params events st) (Concurrent.run params events st).
Proof. intros Hfresh. apply legacy_run_agrees; [exact Hfresh|apply same_outcome_refl]. Qed.

Lemma single_file_subscriber_agrees_with_classes_witness :
  let params := mkParams ["A"; "B"] (Some 3%Z) "60" in
  let st := Legacy.getCandlesConcurrent params string_of_nat [] in
  let events :=
    [update_event "cs_B_1" [bar 13; bar 12; bar 11];
     mkEvent "timescale_update" [p_string "cs_A_0"];
     completion_event "cs_B_1"] in
  same_outcome (Legacy.run params events st) (Concurrent.run params events st).
Proof.
  intros params st events.
  apply (single_file_subscriber_agrees_with_classes params events st).
  intros symbol state Hstate _. subst st. cbn in Hstate.
  apply lookup_insert_Some in Hstate as [[_ <-]|[_ Hstate]]; [reflexivity|].
  apply lookup_insert_Some in Hstate as [[_ <-]|[_ Hstate]]; [reflexivity|].
  now rewrite lookup_empty in Hstate.
Defined.

Lemma legacy_results_follow_input_order_witness :
  let params := mkParams ["A"; "B"] (Some 3%Z) "60" in
  let st := Legacy.getCandlesConcurrent params string_of_nat [] in
  let events :=
    [update_event "cs_B_1" [bar 13; bar 12; bar 11];
     update_event "cs_A_0" [bar 3; bar 2; bar 1];
     completion_event "cs_B_1";
     completion_event "cs_A_0"] in
  let results :=
    [Some [bar_candle 3; bar_candle 2; bar_candle 1];
     Some [bar_candle 13; bar_candle 12; bar_candle 11]] in
  Concurrent.promise (Legacy.run params events st) = resolved results /\
  results =
    map (fun symbol =>
           Some (symbol_series params (sessionMap (Concurrent.mgr st)) events symbol))
        (symbols params).
Proof.
  intros params st events results.
  assert (Hrun : Concurrent.promise (Legacy.run params events st) = resolved results)
    by (vm_compute; reflexivity).
  split; [exact Hrun|].
  refine (legacy_results_follow_input_order params string_of_nat [] events results _ Hrun).
  intros Hin. apply list_elem_of_In in Hin. simpl in Hin.
  destruct Hin as [H|[H|[]]]; discriminate H.
Defined.

Lemma legacy_stream_failure_discards_pending_results_witness :
  let params := mkParams ["A"; "B"] None "60" in
  let before :=
    [CandleStream.resumes;
     CandleStream.arrives (update_event "cs_A_0" [bar 1]);
     CandleStream.arrives (completion_event "cs_A_0");
     CandleStream.arrives (mkEvent "timescale_update" [p_string "cs_B_1"])] in
  let after := [CandleStream.resumes; CandleStream.resumes] in
  let st := snd (LegacyStream.run params string_of_nat before (CandleStream.new [])) in
  exists msg,
    CandleStream.errorMessage st = Some msg /\ msg <> "" /\
    fst (LegacyStream.run params string_of_nat after st) =
      (if has_resume after then [CandleStream.thrown (new_Error msg)] else []) /\
    CandleStream.pendingYields (snd (LegacyStream.run params string_of_nat after st)) =
      CandleStream.pendingYields st.
Proof.
  intros params before after.
  refine (legacy_stream_failure_discards_pending_results
            params string_of_nat [] before after _ _).
  - vm_compute. reflexivity.
  - vm_compute. discriminate.
Defined.

(** ** Time frames *)

Lemma toLowerCase_char_no_capital (c : ascii) :
  negb ((65 <=? N_of_ascii (toLowerCase_char c)) && (N_of_ascii (toLowerCase_char c) <=? 90))%N
  = true.
Proof. destruct c as [[] [] [] [] [] [] [] []]; reflexivity. Qed.

Lemma toLowerCase_no_capital (s : string) : no_capital (toLowerCase s) = true.
Proof.
  induction s as [|c s IH]; [reflexivity|]. cbn [toLowerCase no_capital].
  now rewrite toLowerCase_char_no_capital, IH.
Qed.

(** A key that holds a capital letter is never looked up. *)
Lemma capital_key_unreachable (key : string) (s : string) :
  no_capital key = false -> String.eqb key (toLowerCase s) = false.
Proof.
  intros Hkey. apply String.eqb_neq. intros ->. now rewrite toLowerCase_no_capital in Hkey.
Qed.

Lemma timeframeMap_lowercase (s : string) :
  lookup_prop (toLowerCase s) timeframeMap = lookup_prop (toLowerCase s) lowercase_aliases.
Proof.
  unfold timeframeMap, lowercase_aliases. cbn [lookup_prop].
  repeat (destruct (String.eqb _ (toLowerCase s)) eqn:?; [reflexivity|]);
  rewrite ?(capital_key_unreachable "1M"), ?(capital_key_unreachable "D"),
    ?(capital_key_unreachable "W"), ?(capital_key_unreachable "M") by reflexivity.
  reflexivity.
Qed.

Lemma inherited_lowercase (s : string) :
  toLowerCase s ∈ Object_prototype <->
  toLowerCase s = "constructor" \/ toLowerCase s = "__proto__".
Proof.
  split.
  - intros Hin. apply list_elem_of_In in Hin. simpl in Hin.
    destruct Hin as [H|[H|[H|[H|[H|[H|[H|[H|[H|[H|[H|[H|[]]]]]]]]]]]]]; auto;
      exfalso; pose proof (toLowerCase_no_capital s) as Hlow; rewrite <- H in Hlow;
      vm_compute in Hlow; discriminate Hlow.
  - intros [->| ->]; unfold Object_prototype; in_list.
Qed.

Lemma lowercase_aliases_not_inherited (key r : string) :
  lookup_prop key lowercase_aliases = Some r ->
  r ∈ validTimeframes /\ key <> "constructor" /\ key <> "__proto__".
Proof.
  unfold lowercase_aliases. cbn [lookup_prop].
  repeat match goal with
         | |- context [String.eqb ?k key] =>
             destruct (String.eqb_spec k key) as [<-|_];
             [intros [= <-]; split; [unfold validTimeframes; in_list|split; discriminate]|]
         end.
  discriminate.
Qed.

Lemma string_of_Z_injective (n m : Z) : string_of_Z n = string_of_Z m -> n = m.
Proof.
  intros Heq.
  pose proof (parse_number_string_of_Z n "" eq_refl) as Hn.
  pose proof (parse_number_string_of_Z m "" eq_refl) as Hm.
  rewrite Heq in Hn. congruence.
Qed.

Lemma string_of_Z_valid (n : Z) :
  string_of_Z n ∈ validTimeframes <-> n ∈ numeric_timeframes.
Proof.
  split.
  - intros Hin. apply list_elem_of_In in Hin. simpl in Hin.
    pose proof (parse_number_string_of_Z n "" eq_refl) as Hparse.
    rewrite append_empty_r in Hparse.
    destruct Hin as [H|[H|[H|[H|[H|[H|[H|[H|[H|[H|[H|[H|[H|[]]]]]]]]]]]]]];
      rewrite <- H in Hparse; vm_compute in Hparse; injection Hparse as <-;
      try discriminate; unfold numeric_timeframes; in_list.
  - intros Hin. apply list_elem_of_In in Hin. simpl in Hin.
    destruct Hin as [<-|[<-|[<-|[<-|[<-|[<-|[<-|[<-|[<-|[<-|[]]]]]]]]]]];
      vm_compute; in_list.
Qed.

(** X3: [validateTimeframe] accepts exactly: the thirteen time
    frames as they are; the ten minute counts as numbers; the twelve
    lower-case spellings of its table, in any mix of cases; and, through
    the prototype of the table, the names [constructor] and [__proto__],
    for which it returns an object instead of a time frame.  The entries
    [1M], [D], [W] and [M] of the table are never reached, since the key
    is lowered before the lookup. *)
Theorem validateTimeframe_accepts_exactly
    (timeframe : FlexibleTimeframe) (value : TimeframeValue) :
  validateTimeframe timeframe = Return value <-> normalises_to timeframe value.
Proof.
  destruct timeframe as [n|s]; cbn [validateTimeframe].
  - destruct (bool_decide (string_of_Z n ∈ validTimeframes)) eqn:Hvalid.
    + apply bool_decide_eq_true in Hvalid. split.
      * intros [= <-]. constructor. now apply string_of_Z_valid.
      * intros Hnorm. now inversion Hnorm.
    + apply bool_decide_eq_false in Hvalid. split; [discriminate|].
      intros Hnorm. inversion Hnorm; subst. exfalso. now apply Hvalid, string_of_Z_valid.
  - destruct (bool_decide (s ∈ validTimeframes)) eqn:Hvalid.
    + apply bool_decide_eq_true in Hvalid. split.
      * intros [= <-]. now constructor.
      * intros Hnorm. inversion Hnorm as [| |? r Hnot|? Hinherited]; subst;
          [reflexivity|contradiction|].
        exfalso. apply list_elem_of_In in Hvalid. simpl in Hvalid.
        destruct Hvalid as [H|[H|[H|[H|[H|[H|[H|[H|[H|[H|[H|[H|[H|[]]]]]]]]]]]]]];
          rewrite <- H in Hinherited; destruct Hinherited as [Hi|Hi];
          vm_compute in Hi; discriminate Hi.
    + apply bool_decide_eq_false in Hvalid. unfold timeframeMap_get.
      rewrite timeframeMap_lowercase.
      destruct (lookup_prop (toLowerCase s) lowercase_aliases) as [r|] eqn:Halias.
      * destruct (lowercase_aliases_not_inherited _ _ Halias) as (_ & Hc & Hp). split.
        -- intros [= <-]. now constructor.
        -- intros Hnorm. inversion Hnorm as [| |? r' _ Hr'|? Hinherited]; subst;
             [contradiction|congruence|tauto].
      * destruct (bool_decide (toLowerCase s ∈ Object_prototype)) eqn:Hproto.
        -- apply bool_decide_eq_true, inherited_lowercase in Hproto. split.
           ++ intros [= <-]. now constructor.
           ++ intros Hnorm. inversion Hnorm; subst; [contradiction|congruence|reflexivity].
        -- apply bool_decide_eq_false in Hproto. split; [discriminate|].
           intros Hnorm. inversion Hnorm; subst; [contradiction|congruence|].
           exfalso. now apply Hproto, inherited_lowercase.
Qed.

(** X4: a time frame [validateTimeframe] returns is one of the
    thirteen, and validating it again returns it unchanged. *)
Theorem validateTimeframe_returns_a_fixed_point
    (timeframe : FlexibleTimeframe) (r : string) :
  validateTimeframe timeframe = Return (tv_string r) ->
  r ∈ validTimeframes /\ validateTimeframe (tf_string r) = Return (tv_string r).
Proof.
  intros Hreturn.
  assert (Hvalid : r ∈ validTimeframes).
  { destruct timeframe as [n|s]; cbn [validateTimeframe] in Hreturn.
    - destruct (bool_decide (string_of_Z n ∈ validTimeframes)) eqn:Hn; [|discriminate].
      injection Hreturn as <-. now apply bool_decide_eq_true in Hn.
    - destruct (bool_decide (s ∈ validTimeframes)) eqn:Hs.
      + injection Hreturn as <-. now apply bool_decide_eq_true in Hs.
      + unfold timeframeMap_get in Hreturn. rewrite timeframeMap_lowercase in Hreturn.
        destruct (lookup_prop (toLowerCase s) lowercase_aliases) as [r'|] eqn:Halias.
        * injection Hreturn as <-. now apply (lowercase_aliases_not_inherited _ _ Halias).
        * destruct (bool_decide (toLowerCase s ∈ Object_prototype)); discriminate Hreturn. }
  split; [exact Hvalid|]. cbn [validateTimeframe]. now rewrite bool_decide_eq_true_2.
Qed.

(** An hour in capitals. *)
Lemma validateTimeframe_returns_a_fixed_point_witness :
  validateTimeframe (tf_string "1H") = Return (tv_string "60") /\
  "60" ∈ validTimeframes /\
  validateTimeframe (tf_string "60") = Return (tv_string "60").
Proof.
  assert (H : validateTimeframe (tf_string "1H") = Return (tv_string "60"))
    by (vm_compute; reflexivity).
  split; [exact H|].
  exact (validateTimeframe_returns_a_fixed_point (tf_string "1H") "60" H).
Defined.

(** ** Batches of frames and the message listener *)

Lemma parse_digits_length (s : string) :
  (String.length (snd (parse_digits s)) <= String.length s)%nat.
Proof.
  induction s as [|c s IH]; [reflexivity|]. cbn [parse_digits].
  destruct (digit_of_char c); [|reflexivity].
  destruct (parse_digits s) as [d rest]. simpl in *. lia.
Qed.

Lemma match_delimiter_length (s rest : string) :
  match_delimiter s = Some rest -> (String.length rest < String.length s)%nat.
Proof.
  unfold match_delimiter.
  destruct s as [|a [|b [|c r]]]; try discriminate;
    try (destruct a as [[] [] [] [] [] [] [] []]; discriminate);
    try (destruct a as [[] [] [] [] [] [] [] []]; try discriminate;
         destruct b as [[] [] [] [] [] [] [] []]; discriminate).
  destruct a as [[] [] [] [] [] [] [] []]; try discriminate.
  destruct b as [[] [] [] [] [] [] [] []]; try discriminate.
  destruct c as [[] [] [] [] [] [] [] []]; try discriminate.
  pose proof (parse_digits_length r) as Hlen.
  destruct (parse_digits r) as [d tail]. cbn [snd] in Hlen.
  destruct d; try discriminate;
    destruct tail as [|x [|y [|z rest']]]; try discriminate;
    destruct x as [[] [] [] [] [] [] [] []]; try discriminate;
    destruct y as [[] [] [] [] [] [] [] []]; try discriminate;
    destruct z as [[] [] [] [] [] [] [] []]; try discriminate;
    intros [= <-]; cbn [String.length] in *; lia.
Qed.

(** Fuel beyond the length of the text changes nothing. *)
Lemma split_from_enough (fuel1 fuel2 : nat) (s : string) :
  (String.length s <= fuel1)%nat -> (String.length s <= fuel2)%nat ->
  split_from fuel1 s = split_from fuel2 s.
Proof.
  revert fuel2 s. induction fuel1 as [|fuel1 IH]; intros fuel2 s H1 H2.
  - destruct s; [|simpl in H1; lia]. destruct fuel2; reflexivity.
  - destruct fuel2 as [|fuel2].
    { destruct s; [reflexivity|simpl in H2; lia]. }
    cbn [split_from]. destruct (match_delimiter s) as [rest|] eqn:Hmatch.
    + apply match_delimiter_length in Hmatch. f_equal. apply IH; lia.
    + destruct s as [|c s]; [reflexivity|]. simpl in H1, H2.
      rewrite (IH fuel2 s) by lia. reflexivity.
Qed.

Lemma split_from_after_text (fuel : nat) (text message seg : string) (segs : list string) :
  free_of "~" text = true ->
  split_from fuel message = seg :: segs ->
  split_from (String.length text + fuel) (text +:+ message) = (text +:+ seg) :: segs.
Proof.
  intros Hfree Hsplit. induction text as [|c text IH]; [exact Hsplit|].
  cbn [free_of] in Hfree. apply andb_true_iff in Hfree as [Hc Hfree].
  rewrite !append_cons. cbn [String.length Nat.add split_from].
  destruct (match_delimiter (String c (text +:+ message))) eqn:Hmatch.
  { assert (c = "~"%char) as -> by (apply (match_delimiter_tilde c (text +:+ message));
      congruence). discriminate Hc. }
  now rewrite (IH Hfree).
Qed.

Lemma split_frames (commands : list (string * list value)) (fuel : nat) :
  Forall (fun command => free_of "~" (command_text command) = true) commands ->
  (String.length (frames commands) <= fuel)%nat ->
  split_from fuel (frames commands) = "" :: map command_text commands.
Proof.
  intros Hfree. revert fuel. induction Hfree as [|command commands Hcommand _ IH];
    intros fuel Hfuel.
  - destruct fuel; reflexivity.
  - cbn [frames map] in *. unfold createMessage in *. cbv zeta in *.
    fold (command_text command) in *.
    set (data := command_text command) in *. clearbody data.
    repeat rewrite append_assoc in *.
    pose proof (match_delimiter_frame (String.length data) (data +:+ frames commands))
      as Hmatch.
    destruct fuel as [|fuel].
    { rewrite !append_cons in Hfuel. simpl in Hfuel. lia. }
    cbn [split_from]. rewrite Hmatch. f_equal.
    assert (Hrest : (String.length data + String.length (frames commands) <= fuel)%nat).
    { rewrite !append_cons, append_empty in Hfuel. cbn [String.length] in Hfuel.
      rewrite !length_append in Hfuel. cbn [String.length] in Hfuel.
      rewrite ?length_append in Hfuel. cbn [String.length] in Hfuel. lia. }
    rewrite (split_from_enough fuel (String.length data + String.length (frames commands)))
      by (rewrite ?length_append; lia).
    rewrite (split_from_after_text _ data _ "" (map command_text commands) Hcommand).
    + now rewrite append_empty_r.
    + now apply IH.
Qed.

Lemma parse_commands (commands : list (string * list value)) :
  map_throwing parse_event (map command_text commands) =
  Return (map (fun command =>
                 mkPayload type_event
                   (of_value (JObj [("m", JStr (fst command)); ("p", JArr (snd command))])))
              commands).
Proof.
  induction commands as [|command commands IH]; [reflexivity|].
  cbn [map map_throwing]. unfold command_text at 1.
  rewrite parse_event_command. cbn [bind]. rewrite IH. reflexivity.
Qed.

Lemma createTradingEvent_command (command : string * list value) :
  createTradingEvent
    (mkPayload type_event
       (of_value (JObj [("m", JStr (fst command)); ("p", JArr (snd command))]))) =
  Return (command_event command).
Proof. reflexivity. Qed.

Lemma deliver_commands (token : string) (commands : list (string * list value))
    (socket : Socket) :
  foldl (handle_payload token) socket
    (map (fun command =>
            mkPayload type_event
              (of_value (JObj [("m", JStr (fst command)); ("p", JArr (snd command))])))
         commands) =
  mkSocket (outbox socket) (opened socket)
           (delivered socket ++ map command_event commands).
Proof.
  revert socket. induction commands as [|command commands IH]; intros socket.
  - cbn. rewrite app_nil_r. now destruct socket.
  - cbn [map foldl]. rewrite IH. unfold handle_payload. cbn [type].
    rewrite createTradingEvent_command. cbn [outbox opened delivered].
    now rewrite <- app_assoc.
Qed.

(** X6: a message in which the server batches several command
    frames, none with a tilde in its JSON text, hands their events to the
    subscribers in the order of the frames, each with the name and the
    parameters that were encoded; nothing is written to the socket. *)
Theorem batched_frames_are_delivered_in_order
    (token : string) (commands : list (string * list value)) (socket : Socket) :
  Forall (fun command => free_of "~" (command_text command) = true) commands ->
  on_message token (frames commands) socket =
    Return (mkSocket (outbox socket) (opened socket)
                     (delivered socket ++ map command_event commands)).
Proof.
  intros Hfree. unfold on_message, parseMessage.
  destruct (Nat.eqb_spec (String.length (frames commands)) 0) as [Hzero|_].
  - destruct commands as [|command commands].
    + cbn. rewrite app_nil_r. now destruct socket.
    + cbn [frames] in Hzero. unfold createMessage in Hzero.
      rewrite !append_cons in Hzero. discriminate Hzero.
  - unfold split_delimiter. rewrite (split_frames commands _ Hfree) by lia.
    cbn [drop]. rewrite drop_0, parse_commands. cbn [bind]. now rewrite deliver_commands.
Qed.

Lemma batched_frames_are_delivered_in_order_witness :
  on_message "t" (frames [("du", [JStr "cs_1"]); ("series_completed", [JStr "cs_1"])])
    (mkSocket [] true []) =
  Return (mkSocket [] true
            [mkTradingEvent (Some (JStr (units "du")))
                            (Some (JArr [JStr (units "cs_1")]));
             mkTradingEvent (Some (JStr (units "series_completed")))
                            (Some (JArr [JStr (units "cs_1")]))]).
Proof.
  apply (batched_frames_are_delivered_in_order "t"
           [("du", [JStr "cs_1"]); ("series_completed", [JStr "cs_1"])] (mkSocket [] true [])).
  repeat constructor.
Defined.

(** X7: the listener answers a keepalive with the frame it received:
    the echo is the body under a delimiter with the body's own length, so a
    well-formed keepalive comes back character for character, and one
    whose declared length is wrong comes back corrected.  Nothing reaches
    the subscribers. *)
Theorem keepalive_is_echoed
    (token : string) (n : nat) (body : string) (socket : Socket) :
  is_keepalive body -> contains_delimiter body = false ->
  on_message token ("~m~" +:+ string_of_nat n +:+ "~m~" +:+ body) socket =
    Return (mkSocket
              (outbox socket ++
               ["~m~" +:+ string_of_nat (String.length body) +:+ "~m~" +:+ body])
              (opened socket) (delivered socket)).
Proof.
  intros Hkeep Hclean. unfold on_message.
  rewrite (parseMessage_keepalive n body Hkeep Hclean).
  cbn [bind foldl handle_payload type ping_text data]. now rewrite text_of_units.
Qed.

Lemma keepalive_is_echoed_witness :
  on_message "t" "~m~4~m~~h~7" (mkSocket [] true []) =
    Return (mkSocket ["~m~4~m~~h~7"] true []) /\
  on_message "t" "~m~9~m~~h~7" (mkSocket [] true []) =
    Return (mkSocket ["~m~4~m~~h~7"] true []).
Proof.
  split.
  - exact (keepalive_is_echoed "t" 4 "~h~7" (mkSocket [] true []) eq_refl eq_refl).
  - exact (keepalive_is_echoed "t" 9 "~h~7" (mkSocket [] true []) eq_refl eq_refl).
Defined.

Lemma parse_event_object (props : list (string * value)) :
  parse_event (JSON_stringify (JObj props)) =
  Return (mkPayload
            (if truthy (assoc_last "session_id" props) then type_session else type_event)
            (of_value (JObj props))).
Proof.
  unfold parse_event. rewrite substring0_keepalive, JSON_parse_stringify.
  unfold JSON_stringify. rewrite stringify_JObj. cbn [startsWith Ascii.eqb Bool.eqb].
  rewrite get_prop_of_value, truthy_of_value. cbn [get_prop of_value].
  now destruct (truthy _).
Qed.

(** X8: a frame whose JSON object has a truthy [session_id]
    makes the listener send [set_auth_token] with the token and resolve the
    connection, whatever else the object holds; [extractSessionId] reads
    that id off the payload. *)
Theorem handshake_sends_the_token
    (token : string) (n : nat) (props : list (string * value)) (id : value)
    (socket : Socket) :
  assoc_last "session_id" props = Some id ->
  truthy (Some id) = true ->
  contains_delimiter (JSON_stringify (JObj props)) = false ->
  let frame := "~m~" +:+ string_of_nat n +:+ "~m~" +:+ JSON_stringify (JObj props) in
  on_message token frame socket =
    Return (mkSocket (outbox socket ++ [createMessage "set_auth_token" [JStr token]])
                     true (delivered socket)) /\
  exists payload,
    parseMessage frame = Return [payload] /\
    extractSessionId payload = Return (Some (of_value id)).
Proof.
  intros Hid Htruthy Hclean frame.
  assert (Hparse : parseMessage frame =
                   Return [mkPayload type_session (of_value (JObj props))]).
  { subst frame. unfold parseMessage.
    rewrite split_delimiter_frame by exact Hclean.
    rewrite !append_cons. cbn [String.length Nat.eqb drop map_throwing].
    rewrite parse_event_object, Hid, Htruthy. reflexivity. }
  split.
  - unfold on_message. rewrite Hparse. reflexivity.
  - eexists. split; [exact Hparse|].
    unfold extractSessionId. cbn [isSessionMessage type data of_value].
    change (JObj (map ?f props)) with (of_value (JObj props)).
    rewrite get_prop_of_value, truthy_of_value. cbn [get_prop].
    now rewrite Hid, Htruthy.
Qed.

Lemma handshake_sends_the_token_witness :
  let props := [("session_id", JStr "abc"); ("timestamp", JNum 1%Z)] in
  on_message "token" ("~m~0~m~" +:+ JSON_stringify (JObj props)) (mkSocket [] false []) =
    Return (mkSocket [createMessage "set_auth_token" [JStr "token"]] true []).
Proof.
  intros props.
  exact (proj1 (handshake_sends_the_token "token" 0 props (JStr "abc")
                  (mkSocket [] false []) eq_refl eq_refl eq_refl)).
Defined.

(** X9: on every payload the codec produces, [extractSessionId]
    returns without throwing, and it returns an id exactly when the payload
    is classified as a session message: the id is then the truthy
    [session_id] of the datum. *)
Theorem extractSessionId_agrees_with_the_codec (sub : string) (payload : MessagePayload) :
  parse_event sub = Return payload ->
  (isSessionMessage payload = true ->
   exists id,
     extractSessionId payload = Return (Some id) /\
     get_prop (data payload) "session_id" = Some id /\ truthy (Some id) = true) /\
  (isSessionMessage payload = false -> extractSessionId payload = Return None).
Proof.
  unfold parse_event. destruct (String.eqb _ _).
  { intros [= <-]. split; [discriminate|reflexivity]. }
  destruct (JSON_parse sub) as [parsed|]; [|discriminate].
  destruct (truthy (get_prop parsed "session_id")) eqn:Htruthy.
  - destruct parsed; try discriminate Htruthy; intros [= <-];
      (split; [|discriminate]); intros _;
      unfold extractSessionId; cbn [isSessionMessage type data]; rewrite Htruthy;
      destruct (get_prop _ _) as [id|] eqn:Hid; try discriminate Htruthy; eauto.
  - destruct parsed; try discriminate; intros [= <-]; (split; [discriminate|reflexivity]).
Qed.

Lemma extractSessionId_agrees_with_the_codec_witness :
  extractSessionId
    (mkPayload type_event (of_value (JObj [("m", JStr "du"); ("p", JArr [])]))) =
    Return None.
Proof.
  apply (proj2 (extractSessionId_agrees_with_the_codec
                  (JSON_stringify (JObj [("m", JStr "du"); ("p", JArr [])]))
                  (mkPayload type_event (of_value (JObj [("m", JStr "du"); ("p", JArr [])])))
                  eq_refl)).
  reflexivity.
Defined.

(** ** The managers and the event handler *)

(** X13: the series of a symbol is the same whether the raw bars are
    cut to the amount before they are converted, as [getProcessedCandles]
    does, or converted first and then cut by [trimToAmount]; for a positive
    amount it is the conversion of the first [amount] accumulated bars, the
    newest ones, and never longer than the amount. *)
Theorem processed_candles_are_trimmed
    (symbol : string) (amount : option Z) (states : gmap string SymbolState)
    (state : SymbolState) :
  states !! symbol = Some state ->
  SymbolStateManager.getProcessedCandles symbol amount states =
    CandleDataProcessor.trimToAmount
      (CandleDataProcessor.processCandles (candles state)) amount /\
  (forall a, amount = Some a -> (0 < a)%Z ->
     SymbolStateManager.getProcessedCandles symbol amount states =
       CandleDataProcessor.processCandles (take (Z.to_nat a) (candles state)) /\
     length (SymbolStateManager.getProcessedCandles symbol amount states) =
       Nat.min (Z.to_nat a) (length (candles state))).
Proof.
  intros Hstate. unfold SymbolStateManager.getProcessedCandles,
    CandleDataProcessor.trimToAmount, CandleDataProcessor.processCandles.
  rewrite Hstate. split.
  - destruct amount as [a|]; [|reflexivity]. cbn [falsy_amount default].
    destruct (a =? 0)%Z; [reflexivity|].
    unfold slice. rewrite length_map. now rewrite <- fmap_drop, <- fmap_take.
  - intros a -> Ha. cbn [falsy_amount default].
    destruct (Z.eqb_spec a 0) as [|_]; [lia|]. rewrite slice_0_pos by exact Ha.
    split; [reflexivity|]. now rewrite length_map, length_take.
Qed.

Lemma processed_candles_are_trimmed_witness :
  let states : gmap string SymbolState :=
    {["A" := mkSymbolState [bar 3; bar 2; bar 1] true false]} in
  SymbolStateManager.getProcessedCandles "A" (Some 2%Z) states =
    CandleDataProcessor.trimToAmount
      (CandleDataProcessor.processCandles [bar 3; bar 2; bar 1]) (Some 2%Z).
Proof.
  intros states.
  exact (proj1 (processed_candles_are_trimmed "A" (Some 2%Z) states
                  (mkSymbolState [bar 3; bar 2; bar 1] true false)
                  (lookup_singleton_eq _ _))).
Defined.

(** X14: the two ways the state manager has of telling that a request
    is done agree: every symbol of a list is completed exactly when the
    count of completed symbols is the length of the list. *)
Theorem allSymbolsCompleted_iff_all_counted
    (symbols : list string) (states : gmap string SymbolState) :
  SymbolStateManager.allSymbolsCompleted symbols states = true <->
  SymbolStateManager.getCompletedCount symbols states = length symbols.
Proof.
  unfold SymbolStateManager.allSymbolsCompleted, SymbolStateManager.getCompletedCount.
  induction symbols as [|symbol symbols IH]; [split; reflexivity|].
  cbn [forallb length].
  destruct (SymbolStateManager.is_completed states symbol) eqn:Hdone.
  - rewrite filter_cons_True by exact Hdone. cbn [andb length]. rewrite IH. lia.
  - rewrite filter_cons_False by congruence. cbn [andb]. split; [discriminate|].
    intros Hlen.
    pose proof (length_filter (fun symbol => SymbolStateManager.is_completed states symbol = true)
                  symbols). lia.
Qed.

Lemma handlers_ignore_completed {S : Type} (this : CandleEventHandler.t)
    (event : TradingviewEvent) (callback : option (string -> list Candle -> S -> S))
    (mgr : Managers) (caller : S) (symbol : string) (state : SymbolState) :
  ChartSessionManager.getSymbolForSession (param_at event 0) (sessionMap mgr) = Some symbol ->
  states mgr !! symbol = Some state -> completed state = true ->
  CandleEventHandler.handleTimescaleUpdate this event mgr = Return mgr /\
  CandleEventHandler.handleSeriesEvent this event callback mgr caller = (mgr, caller, false).
Proof.
  intros Hroute Hstate Hdone.
  unfold CandleEventHandler.handleTimescaleUpdate, CandleEventHandler.handleSeriesEvent,
    SymbolStateManager.getSymbolState.
  rewrite Hroute. simpl default. destruct (no_symbol (Some symbol)); [auto|].
  rewrite Hstate, Hdone. auto.
Qed.

(** X16: a symbol completes once.  After the completion or
    symbol-error event that closes it, every later event tagged with one of
    its sessions, update or completion, leaves the managers as they are and
    does not call the completion callback again. *)
Theorem completed_symbol_ignores_later_events
    {S : Type} (this : CandleEventHandler.t) (closing later : TradingviewEvent)
    (callback : option (string -> list Candle -> S -> S))
    (mgr mgr' : Managers) (caller caller' : S) :
  CandleEventHandler.handleSeriesEvent this closing callback mgr caller = (mgr', caller', true) ->
  ChartSessionManager.getSymbolForSession (param_at later 0) (sessionMap mgr) =
  ChartSessionManager.getSymbolForSession (param_at closing 0) (sessionMap mgr) ->
  CandleEventHandler.handleTimescaleUpdate this later mgr' = Return mgr' /\
  CandleEventHandler.handleSeriesEvent this later callback mgr' caller' = (mgr', caller', false).
Proof.
  unfold CandleEventHandler.handleSeriesEvent at 1. unfold SymbolStateManager.getSymbolState.
  destruct (ChartSessionManager.getSymbolForSession (param_at closing 0) (sessionMap mgr))
    as [symbol|] eqn:Hroute; [|discriminate].
  destruct (no_symbol (Some symbol)); [discriminate|]. simpl default.
  destruct (states mgr !! symbol) as [state|] eqn:Hstate; [|discriminate].
  destruct (completed state); [discriminate|].
  destruct (CandleDataProcessor.shouldRequestMoreData _ _); [discriminate|].
  intros [= <- _] Hlater.
  apply (handlers_ignore_completed this later callback _ caller' symbol
           (mkSymbolState (candles state) true (String.eqb (name closing) "symbol_error"))).
  - exact Hlater.
  - cbn [states]. unfold SymbolStateManager.markSymbolCompleted. rewrite Hstate.
    apply lookup_insert_eq.
  - reflexivity.
Qed.

Lemma completed_symbol_ignores_later_events_witness :
  let this := CandleEventHandler.new 5000 None in
  let mgr := mkManagers {["A" := mkSymbolState [bar 1] false false]} {["cs_A_1" := "A"]} [] in
  let mgr' := mkManagers {["A" := mkSymbolState [bar 1] true false]} {["cs_A_1" := "A"]} [] in
  let count := Some (fun (_ : string) (_ : list Candle) (n : nat) => Datatypes.S n) in
  CandleEventHandler.handleTimescaleUpdate this (update_event "cs_A_1" [bar 2]) mgr' =
    Return mgr' /\
  CandleEventHandler.handleSeriesEvent this (update_event "cs_A_1" [bar 2]) count mgr' 1%nat =
    (mgr', 1%nat, false).
Proof.
  intros this mgr mgr' count.
  refine (completed_symbol_ignores_later_events this (completion_event "cs_A_1")
            (update_event "cs_A_1" [bar 2]) count mgr mgr' 0%nat 1%nat _ eq_refl).
  unfold CandleEventHandler.handleSeriesEvent, SymbolStateManager.getSymbolState,
    SymbolStateManager.markSymbolCompleted. subst mgr mgr'.
  cbn [param_at completion_event params nth ChartSessionManager.getSymbolForSession sessionMap
       states].
  rewrite !lookup_singleton_eq. cbn. now rewrite insert_singleton_eq.
Defined.

(** X17: an event changes the state of the symbol its session is
    registered for and of no other; the update handler sends nothing, and
    neither handler touches the session map. *)
Theorem events_change_only_their_symbol
    {S : Type} (this : CandleEventHandler.t) (event : TradingviewEvent)
    (callback : option (string -> list Candle -> S -> S))
    (mgr : Managers) (caller : S) (other : string) :
  ChartSessionManager.getSymbolForSession (param_at event 0) (sessionMap mgr) <> Some other ->
  (forall mgr',
     CandleEventHandler.handleTimescaleUpdate this event mgr = Return mgr' ->
     states mgr' !! other = states mgr !! other /\
     sessionMap mgr' = sessionMap mgr /\ connection mgr' = connection mgr) /\
  (let mgr' := fst (fst (CandleEventHandler.handleSeriesEvent this event callback mgr caller)) in
   states mgr' !! other = states mgr !! other /\ sessionMap mgr' = sessionMap mgr).
Proof.
  intros Hother.
  unfold CandleEventHandler.handleTimescaleUpdate, CandleEventHandler.handleSeriesEvent,
    SymbolStateManager.getSymbolState.
  destruct (ChartSessionManager.getSymbolForSession (param_at event 0) (sessionMap mgr))
    as [symbol|]; [|split; [intros mgr' [= <-]|]; auto].
  assert (Hne : symbol <> other) by congruence.
  destruct (no_symbol (Some symbol)); [split; [intros mgr' [= <-]|]; auto|]. simpl default.
  destruct (states mgr !! symbol) as [state|] eqn:Hstate; [|split; [intros mgr' [= <-]|]; auto].
  destruct (completed state) eqn:Hopen; [split; [intros mgr' [= <-]|]; auto|].
  split.
  - intros mgr'.
    destruct (CandleDataProcessor.findSeriesKey (param_at event 1)) as [key|e]; cbn [bind];
      [|discriminate].
    destruct key as [key|]; [|intros [= <-]; auto].
    destruct (param_at event 1) as [| | |props]; try (intros [= <-]; auto).
    destruct (lookup_prop key props) as [[|[newCandles|]]|]; intros [= <-]; auto.
    cbn [states sessionMap connection]. split; [|auto].
    unfold SymbolStateManager.updateSymbolCandles. rewrite Hstate, Hopen.
    now apply lookup_insert_ne.
  - destruct (CandleDataProcessor.shouldRequestMoreData _ _); cbn [fst states sessionMap];
      [auto|]. split; [|reflexivity].
    unfold SymbolStateManager.markSymbolCompleted. rewrite Hstate. now apply lookup_insert_ne.
Qed.

Lemma events_change_only_their_symbol_witness :
  let this := CandleEventHandler.new 5000 None in
  let mgr :=
    mkManagers {["A" := mkSymbolState [] false false; "B" := mkSymbolState [] false false]}
               {["cs_A_1" := "A"; "cs_B_3" := "B"]} [] in
  exists mgr',
    CandleEventHandler.handleTimescaleUpdate this (update_event "cs_A_1" [bar 1]) mgr
      = Return mgr' /\
    candles <$> (states mgr' !! "A") = Some [bar 1] /\
    states mgr' !! "B" = states mgr !! "B" /\
    sessionMap mgr' = sessionMap mgr /\ connection mgr' = connection mgr.
Proof.
  intros this mgr. eexists. split; [vm_compute; reflexivity|].
  split; [vm_compute; reflexivity|].
  apply (proj1 (events_change_only_their_symbol (S := unit) this
                  (update_event "cs_A_1" [bar 1]) None mgr tt "B"
                  ltac:(vm_compute; discriminate))).
  vm_compute. reflexivity.
Defined.

Lemma find_series_spec (props : list (string * SeriesEntry)) (keys : list string) :
  match CandleDataProcessor.find_series props keys with
  | Return (Some key) =>
      exists before after,
        keys = before ++ key :: after /\
        startsWith key "sds_" = true /\
        (exists bars, lookup_prop key props = Some (entry_object (Some bars))) /\
        Forall (fun k => startsWith k "sds_" = true ->
                         lookup_prop k props = Some (entry_object None)) before
  | Return None =>
      Forall (fun k => startsWith k "sds_" = true ->
                       lookup_prop k props = Some (entry_object None)) keys
  | Throw e =>
      e = null_read_error "s" /\
      exists k, k ∈ keys /\ startsWith k "sds_" = true /\
                (lookup_prop k props = Some entry_null \/ lookup_prop k props = None)
  end.
Proof.
  induction keys as [|key keys IH]; cbn [CandleDataProcessor.find_series]; [constructor|].
  destruct (startsWith key "sds_") eqn:Hprefix.
  - destruct (lookup_prop key props) as [[|[bars|]]|] eqn:Hentry.
    + split; [reflexivity|]. exists key. split; [apply list_elem_of_here|auto].
    + exists [], keys. split; [reflexivity|]. split; [exact Hprefix|].
      split; [eauto|constructor].
    + destruct (CandleDataProcessor.find_series props keys) as [[found|]|e].
      * destruct IH as (before & after & -> & Hfound & Hbars & Hbefore).
        exists (key :: before), after. split; [reflexivity|]. split; [exact Hfound|].
        split; [exact Hbars|]. constructor; auto.
      * constructor; auto.
      * destruct IH as (-> & k & Hin & Hk). split; [reflexivity|].
        exists k. split; [now apply list_elem_of_further|exact Hk].
    + split; [reflexivity|]. exists key. split; [apply list_elem_of_here|auto].
  - destruct (CandleDataProcessor.find_series props keys) as [[found|]|e].
    + destruct IH as (before & after & -> & Hfound & Hbars & Hbefore).
      exists (key :: before), after. split; [reflexivity|]. split; [exact Hfound|].
      split; [exact Hbars|]. constructor; [congruence|exact Hbefore].
    + constructor; [congruence|exact IH].
    + destruct IH as (-> & k & Hin & Hk). split; [reflexivity|].
      exists k. split; [now apply list_elem_of_further|exact Hk].
Qed.

(** X12: [findSeriesKey] returns the first key of the session data,
    in the order of its keys, that starts with [sds_] and holds bars; the
    [sds_] keys before it hold an object without bars.  It returns [null]
    when every [sds_] key holds such an object, and it throws a [TypeError]
    when it meets an [sds_] key whose value is [null] before it finds
    bars, or when the session data is missing. *)
Theorem findSeriesKey_finds_the_first_series (props : list (string * SeriesEntry)) :
  match CandleDataProcessor.findSeriesKey (p_object props) with
  | Return (Some key) =>
      exists before after,
        map fst props = before ++ key :: after /\
        startsWith key "sds_" = true /\
        (exists bars, lookup_prop key props = Some (entry_object (Some bars))) /\
        Forall (fun k => startsWith k "sds_" = true ->
                         lookup_prop k props = Some (entry_object None)) before
  | Return None =>
      Forall (fun k => startsWith k "sds_" = true ->
                       lookup_prop k props = Some (entry_object None)) (map fst props)
  | Throw e =>
      cls e = TypeError /\
      exists k, k ∈ map fst props /\ startsWith k "sds_" = true /\
                lookup_prop k props = Some entry_null
  end /\
  CandleDataProcessor.findSeriesKey p_undefined = Throw keys_error.
Proof.
  split; [|reflexivity]. cbn [CandleDataProcessor.findSeriesKey].
  pose proof (find_series_spec props (map fst props)) as Hspec.
  destruct (CandleDataProcessor.find_series props (map fst props)) as [[key|]|e];
    [exact Hspec|exact Hspec|].
  destruct Hspec as (-> & k & Hin & Hprefix & [Hnull|Hnone]).
  - split; [reflexivity|]. eauto.
  - exfalso. clear Hprefix. induction props as [|[k' x] props IH]; [inversion Hin|].
    cbn [map fst] in Hin. cbn [lookup_prop] in Hnone.
    destruct (String.eqb_spec k' k) as [|Hne]; [discriminate|].
    apply elem_of_cons in Hin as [->|Hin]; [congruence|auto].
Qed.

(** X15: pagination as intended.  When a payload longer than the
    batch size re-sends the bars already accumulated behind the new ones,
    and some are accumulated, the update keeps the new bars only: the
    accumulator becomes the new bars followed by the old ones, each bar
    once. *)
Theorem resent_bars_are_not_duplicated
    (this : CandleEventHandler.t) (event : TradingviewEvent) (mgr : Managers)
    (sessionId symbol key : string) (props : list (string * SeriesEntry))
    (fresh : list RawCandle) (state : SymbolState) :
  param_at event 0 = p_string sessionId ->
  param_at event 1 = p_object props ->
  sessionMap mgr !! sessionId = Some symbol ->
  symbol <> "" ->
  states mgr !! symbol = Some state ->
  completed state = false ->
  candles state <> [] ->
  CandleDataProcessor.findSeriesKey (p_object props) = Return (Some key) ->
  lookup_prop key props = Some (entry_object (Some (fresh ++ candles state))) ->
  (CandleEventHandler.batchSize this < Z.of_nat (length (fresh ++ candles state)))%Z ->
  exists mgr',
    CandleEventHandler.handleTimescaleUpdate this event mgr = Return mgr' /\
    candles <$> (states mgr' !! symbol) = Some (fresh ++ candles state).
Proof.
  intros Hid Hdata Hsession Hsym Hstate Hopen Hsome Hkey Hentry Hlong.
  assert (Hno : no_symbol (Some symbol) = false) by (simpl; now apply String.eqb_neq).
  unfold CandleEventHandler.handleTimescaleUpdate.
  rewrite Hid, Hdata. simpl ChartSessionManager.getSymbolForSession. rewrite Hsession.
  rewrite Hno. simpl default. unfold SymbolStateManager.getSymbolState.
  rewrite Hstate, Hopen, Hkey. simpl bind. rewrite Hentry.
  rewrite (proj2 (filterNewCandles_trims_tail _ _ _) Hlong Hsome).
  rewrite length_app, Nat.add_sub, take_app_length.
  eexists. split; [reflexivity|]. cbn [states].
  unfold SymbolStateManager.updateSymbolCandles. rewrite Hstate, Hopen.
  rewrite lookup_insert_eq. reflexivity.
Qed.

(** Two bars are accumulated for a batch size of two; the next page
    arrives as four bars, the last two being the accumulated ones. *)
Lemma resent_bars_are_not_duplicated_witness :
  let this := CandleEventHandler.new 2 (Some 6%Z) in
  let mgr :=
    mkManagers {["A" := mkSymbolState [bar 2; bar 1] false false]} {["cs_A_1" := "A"]} [] in
  let event := update_event "cs_A_1" [bar 4; bar 3; bar 2; bar 1] in
  exists mgr',
    CandleEventHandler.handleTimescaleUpdate this event mgr = Return mgr' /\
    candles <$> (states mgr' !! "A") = Some [bar 4; bar 3; bar 2; bar 1].
Proof.
  intros this mgr event.
  refine (resent_bars_are_not_duplicated this event mgr "cs_A_1" "A" "sds_1"
            [("sds_1", entry_object (Some [bar 4; bar 3; bar 2; bar 1]))]
            [bar 4; bar 3] (mkSymbolState [bar 2; bar 1] false false)
            eq_refl eq_refl _ _ _ eq_refl _ eq_refl eq_refl _).
  - apply lookup_singleton_eq.
  - discriminate.
  - apply lookup_singleton_eq.
  - discriminate.
  - simpl. lia.
Defined.

(** ** Sequential retrieval: one series per symbol *)

Lemma sequential_dispatch_invariant (params : GetCandlesParams) (randomId : string)
    (event : TradingviewEvent) (st : Sequential.t) :
  sequential_invariant params st ->
  sequential_invariant params (Sequential.dispatch params randomId event st).
Proof.
  intros Hinv. unfold Sequential.dispatch.
  destruct (Sequential.subscribed st) eqn:Hsub; [|exact Hinv].
  destruct (sq_subscribed _ _ Hinv Hsub) as (Hindex & Hlen & Hpending).
  unfold Sequential.subscriber.
  destruct (String.eqb (name event) "timescale_update").
  - destruct (Sequential.read_series event) as [newCandles|e].
    + split; cbn; [intros _; auto|]. intros r Hr. now destruct (Hpending r).
    + split; cbn.
      * intros _. split; [exact Hindex|]. split; [exact Hlen|].
        intros r. destruct (Sequential.promise st) eqn:Hp; cbn; try discriminate.
        now destruct (Hpending a).
      * intros r. destruct (Sequential.promise st) eqn:Hp; cbn; try discriminate.
        intros _. now destruct (Hpending a).
  - destruct (is_series_event event); [|exact Hinv].
    destruct (CandleDataProcessor.shouldRequestMoreData _ _).
    + split; cbn; [intros _; auto|]. intros r Hr. now destruct (Hpending r).
    + destruct (Nat.ltb_spec (Sequential.currentSymIndex st) (length (symbols params) - 1))
        as [Hmore|Hlast].
      * split; cbn.
        -- intros _. split; [lia|]. split; [rewrite length_app; simpl; lia|exact Hpending].
        -- intros r Hr. now destruct (Hpending r).
      * split; cbn; [discriminate|].
        intros r. destruct (Sequential.promise st) eqn:Hp; cbn.
        -- intros [= <-]. split; [reflexivity|]. split; [|reflexivity].
           rewrite length_app. simpl. lia.
        -- now destruct (Hpending a).
        -- discriminate.
Qed.

(** X21: whenever [getCandles] resolves, whatever events arrived
    and in whatever order, the array has exactly one series for each symbol
    of the request, and it is the array the subscriber accumulated. *)
Theorem sequential_call_resolves_with_one_series_per_symbol
    (params : GetCandlesParams) (randomId : string) (sent : list Command)
    (events : list TradingviewEvent) (results : list (list Candle)) :
  let final := Sequential.run params randomId events
                 (Sequential.getCandles params randomId sent) in
  Sequential.promise final = resolved results ->
  length results = length (symbols params) /\
  results = Sequential.allCandles final /\
  Sequential.subscribed final = false.
Proof.
  intros final Hresolved.
  assert (Hinv : sequential_invariant params final).
  { subst final. unfold Sequential.run.
    set (st := Sequential.getCandles params randomId sent).
    assert (Hinit : sequential_invariant params st).
    { subst st. unfold Sequential.getCandles.
      destruct (validateParams params) as [[]|e]; [|split; cbn; discriminate].
      destruct (Nat.eqb_spec (length (symbols params)) 0) as [Hzero|Hpos].
      - split; cbn; [discriminate|]. intros r [= <-]. now rewrite Hzero.
      - split; cbn; [|discriminate]. intros _. split; [lia|]. split; [reflexivity|discriminate]. }
    clearbody st. revert st Hinit. clear Hresolved.
    induction events as [|event events IH]; intros st Hinit; [exact Hinit|].
    cbn [foldl]. now apply IH, sequential_dispatch_invariant. }
  destruct (sq_resolved _ _ Hinv _ Hresolved) as (-> & Hlen & Hsub). auto.
Qed.

(** Two symbols: three bars, a completion, one bar, a completion. *)
Lemma sequential_call_resolves_with_one_series_per_symbol_witness :
  let params := mkParams ["A"; "B"] None "60" in
  let events :=
    [update_event "cs_r" [bar 3; bar 2; bar 1]; completion_event "cs_r";
     update_event "cs_r" [bar 9]; completion_event "cs_r"] in
  let results := [[bar_candle 3; bar_candle 2; bar_candle 1]; [bar_candle 9]] in
  Sequential.promise
    (Sequential.run params "r" events (Sequential.getCandles params "r" [])) =
    resolved results /\
  length results = length (symbols params).
Proof.
  intros params events results.
  assert (Hrun : Sequential.promise
                   (Sequential.run params "r" events (Sequential.getCandles params "r" [])) =
                 resolved results) by (vm_compute; reflexivity).
  split; [exact Hrun|].
  exact (proj1 (sequential_call_resolves_with_one_series_per_symbol
                  params "r" [] events results Hrun)).
Defined.

(** ** Streaming delivery: the pending queue is first in, first out *)

(** The handler's result does not depend on what the callback acts on. *)
Lemma handleSeriesEvent_callback {S : Type} (this : CandleEventHandler.t)
    (event : TradingviewEvent) (callback : string -> list Candle -> S -> S)
    (mgr : Managers) (caller : S) :
  exists mgr' done (pushed : option (string * list Candle)),
    (forall caller,
       CandleEventHandler.handleSeriesEvent this event (Some callback) mgr caller =
       (mgr',
        match pushed with
        | Some (symbol, series) => callback symbol series caller
        | None => caller
        end, done)).
Proof.
  unfold CandleEventHandler.handleSeriesEvent.
  destruct (no_symbol _); [exists mgr, false, None; auto|].
  destruct (SymbolStateManager.getSymbolState _ _) as [state|];
    [|exists mgr, false, None; auto].
  destruct (completed state); [exists mgr, false, None; auto|].
  destruct (CandleDataProcessor.shouldRequestMoreData _ _).
  - eexists _, false, None. intros; reflexivity.
  - eexists _, true, (Some (_, _)). intros; reflexivity.
Qed.

Lemma consumed_dispatch (params : GetCandlesParams) (event : TradingviewEvent)
    (taken : list (list Candle)) (st quiet : CandleStream.t) :
  consumed taken st quiet ->
  consumed taken (CandleStream.dispatch params event st)
                 (CandleStream.dispatch params event quiet).
Proof.
  intros [Hactive Herror Hsub Hmgr Hqueue]. unfold CandleStream.dispatch.
  rewrite <- Hsub. destruct (CandleStream.subscribed st) eqn:Hs;
    [|split; auto; congruence].
  specialize (Hmgr eq_refl). unfold CandleStream.subscriber.
  rewrite <- Hmgr, <- Hactive, <- Herror.
  destruct (String.eqb (name event) "timescale_update").
  - destruct (CandleEventHandler.handleTimescaleUpdate _ _ _) as [mgr'|e].
    + split; cbn; auto; congruence.
    + split; cbn; auto; try congruence; discriminate.
  - destruct (is_series_event event); [|split; auto; congruence].
    destruct (handleSeriesEvent_callback (CandleStream.eventHandler params) event
                (CandleStream.onSymbolCompleted (CandleStream.hasError st))
                (CandleStream.mgr st) (CandleStream.pendingYields st))
      as (mgr' & done & pushed & Hcall).
    rewrite (Hcall (CandleStream.pendingYields st)), (Hcall (CandleStream.pendingYields quiet)).
    assert (Hpushed :
      taken ++ map py_candles
                 (match pushed with
                  | Some (symbol, series) =>
                      CandleStream.onSymbolCompleted (CandleStream.hasError st) symbol series
                        (CandleStream.pendingYields st)
                  | None => CandleStream.pendingYields st
                  end) =
      map py_candles
        (match pushed with
         | Some (symbol, series) =>
             CandleStream.onSymbolCompleted (CandleStream.hasError st) symbol series
               (CandleStream.pendingYields quiet)
         | None => CandleStream.pendingYields quiet
         end)).
    { destruct pushed as [[symbol series]|]; [|exact Hqueue].
      unfold CandleStream.onSymbolCompleted. destruct (_ || _); [|exact Hqueue].
      rewrite !map_app, app_assoc. now rewrite Hqueue. }
    destruct done.
    + cbn [CandleStream.activeCount].
      destruct (CandleStream.activeCount st - 1 =? 0)%Z; split; cbn; auto;
        try congruence; try discriminate.
    + split; cbn; auto; congruence.
Qed.

Lemma consumed_run (params : GetCandlesParams) (random : nat -> string)
    (schedule : list CandleStream.Action) (taken : list (list Candle))
    (st quiet : CandleStream.t) :
  consumed taken st quiet ->
  stream_invariant st ->
  finished_clean st ->
  CandleStream.position st <> CandleStream.at_start ->
  let result := CandleStream.run params random schedule st in
  consumed (taken ++ yields (fst result)) (snd result)
    (foldl (fun st event => CandleStream.dispatch params event st) quiet
           (events_only schedule)) /\
  finished_clean (snd result).
Proof.
  revert taken st quiet.
  induction schedule as [|[event|] schedule IH]; intros taken st quiet Hcons Hinv Hclean Hpos.
  - cbn. rewrite app_nil_r. auto.
  - cbn [CandleStream.run events_only foldl].
    apply IH.
    + now apply consumed_dispatch.
    + now apply stream_dispatch_invariant.
    + unfold finished_clean, CandleStream.dispatch.
      destruct (CandleStream.subscribed st) eqn:Hsub; [|exact Hclean].
      destruct (si_subscribed _ Hinv Hsub) as [_ Hloop].
      pose proof (stream_dispatch_invariant params event st Hinv) as Hnext.
      unfold CandleStream.dispatch in Hnext. rewrite Hsub in Hnext.
      intros Hfin. exfalso. revert Hfin. unfold CandleStream.subscriber.
      destruct (String.eqb _ _).
      * destruct (CandleEventHandler.handleTimescaleUpdate _ _ _); cbn; congruence.
      * destruct (is_series_event event); [|congruence].
        destruct (CandleEventHandler.handleSeriesEvent _ _ _ _ _) as [[mgr' pend] done].
        destruct done; [|cbn; congruence]. cbn [CandleStream.activeCount].
        destruct (_ =? 0)%Z; cbn; congruence.
    + unfold CandleStream.dispatch.
      destruct (CandleStream.subscribed st) eqn:Hsub; [|exact Hpos].
      destruct (si_subscribed _ Hinv Hsub) as [_ Hloop]. unfold CandleStream.subscriber.
      destruct (String.eqb _ _).
      * destruct (CandleEventHandler.handleTimescaleUpdate _ _ _); cbn; congruence.
      * destruct (is_series_event event); [|congruence].
        destruct (CandleEventHandler.handleSeriesEvent _ _ _ _ _) as [[mgr' pend] done].
        destruct done; [|cbn; congruence]. cbn [CandleStream.activeCount].
        destruct (_ =? 0)%Z; cbn; congruence.
  - cbn [CandleStream.run events_only].
    assert (Hquiet : CandleStream.subscribed st = false ->
              forall es,
                foldl (fun st event => CandleStream.dispatch params event st) quiet es = quiet).
    { intros Hsub. destruct Hcons as [_ _ Hs _ _]. rewrite Hsub in Hs. clear -Hs.
      induction es as [|e es IHes]; [reflexivity|].
      cbn [foldl]. unfold CandleStream.dispatch at 2. rewrite <- Hs. exact IHes. }
    pose proof (stream_resume_invariant params random st Hinv) as Hnext.
    destruct (CandleStream.position st) eqn:Hposition; [contradiction| | |].
    + (* in the first loop *)
      unfold CandleStream.resume in *. rewrite Hposition in *. unfold CandleStream.loop in *.
      destruct ((0 <? CandleStream.activeCount st)%Z && negb (CandleStream.hasError st))
        eqn:Hcond.
      * destruct (CandleStream.pendingYields st) as [|item pend] eqn:Hpend;
          cbn [snd] in Hnext.
        -- specialize (IH taken (CandleStream.at_position CandleStream.in_loop st) quiet).
           destruct (CandleStream.run params random schedule
                       (CandleStream.at_position CandleStream.in_loop st)) as [steps final].
           cbn [fst snd yields] in *. apply IH.
           ++ destruct Hcons as [? ? ? ? Hq]. rewrite Hpend in Hq. split; cbn; auto;
                try (now rewrite Hpend).
           ++ exact Hnext.
           ++ unfold finished_clean. cbn. discriminate.
           ++ cbn. discriminate.
        -- specialize (IH (taken ++ [py_candles item])
                          (CandleStream.at_position CandleStream.in_loop
                             (CandleStream.shift st)) quiet).
           destruct (CandleStream.run params random schedule
                       (CandleStream.at_position CandleStream.in_loop
                          (CandleStream.shift st))) as [steps final].
           cbn [fst snd yields] in *.
           replace (taken ++ py_candles item :: yields steps)
             with ((taken ++ [py_candles item]) ++ yields steps)
             by now rewrite <- app_assoc.
           apply IH.
           ++ destruct Hcons as [? ? ? ? Hq]. rewrite Hpend in Hq. split; cbn; auto.
              rewrite Hpend. cbn. rewrite drop_0, <- app_assoc. exact Hq.
           ++ exact Hnext.
           ++ unfold finished_clean. cbn. discriminate.
           ++ cbn. discriminate.
      * destruct (CandleStream.hasError st) eqn:Herr.
        -- destruct (si_error _ Hinv Herr) as [Hsub Hmsg]. rewrite Hmsg in *. cbn [andb] in *.
           rewrite stream_run_finished by reflexivity. cbn [fst snd yields].
           rewrite app_nil_r, (Hquiet Hsub). split.
           ++ destruct Hcons as [? ? ? ? Hq]. split; cbn; auto; congruence.
           ++ unfold finished_clean. cbn. intros _. split; [reflexivity|congruence].
        -- cbn [andb] in *. rewrite andb_true_r in Hcond. apply Z.ltb_ge in Hcond.
           assert (Hsub : CandleStream.subscribed st = false).
           { destruct (CandleStream.subscribed st) eqn:Hs; [|reflexivity].
             destruct (si_subscribed _ Hinv Hs). lia. }
           unfold CandleStream.drain in *.
           destruct (CandleStream.pendingYields st) as [|item pend] eqn:Hpend;
             cbn [snd] in Hnext.
           ++ rewrite stream_run_finished by reflexivity. cbn [fst snd yields].
              rewrite app_nil_r, (Hquiet Hsub). split.
              ** destruct Hcons as [? ? ? ? Hq]. rewrite Hpend in Hq.
                 split; cbn; auto; try congruence; try (now rewrite Hpend).
              ** unfold finished_clean. cbn. intros _. split; [reflexivity|].
                 intros _. exact Hpend.
           ++ specialize (IH (taken ++ [py_candles item])
                             (CandleStream.at_position CandleStream.in_drain
                                (CandleStream.shift st)) quiet).
              destruct (CandleStream.run params random schedule
                          (CandleStream.at_position CandleStream.in_drain
                             (CandleStream.shift st))) as [steps final].
              cbn [fst snd yields] in *.
              replace (taken ++ py_candles item :: yields steps)
                with ((taken ++ [py_candles item]) ++ yields steps)
                by now rewrite <- app_assoc.
              apply IH.
              ** destruct Hcons as [? ? ? ? Hq]. rewrite Hpend in Hq. split; cbn; auto.
                 rewrite Hpend. cbn. rewrite drop_0, <- app_assoc. exact Hq.
              ** exact Hnext.
              ** unfold finished_clean. cbn. discriminate.
              ** cbn. discriminate.
    + (* in the second loop *)
      destruct (si_drain _ Hinv Hposition) as [Herr Hsub].
      unfold CandleStream.resume in *. rewrite Hposition in *. unfold CandleStream.drain in *.
      destruct (CandleStream.pendingYields st) as [|item pend] eqn:Hpend; cbn [snd] in Hnext.
      * rewrite stream_run_finished by reflexivity. cbn [fst snd yields].
        rewrite app_nil_r, (Hquiet Hsub). split.
        -- destruct Hcons as [? ? ? ? Hq]. rewrite Hpend in Hq.
           split; cbn; auto; try congruence; try (now rewrite Hpend).
        -- unfold finished_clean. cbn. intros _. split; [reflexivity|]. intros _. exact Hpend.
      * specialize (IH (taken ++ [py_candles item])
                       (CandleStream.at_position CandleStream.in_drain
                          (CandleStream.shift st)) quiet).
        destruct (CandleStream.run params random schedule
                    (CandleStream.at_position CandleStream.in_drain
                       (CandleStream.shift st))) as [steps final].
        cbn [fst snd yields] in *.
        replace (taken ++ py_candles item :: yields steps)
          with ((taken ++ [py_candles item]) ++ yields steps)
          by now rewrite <- app_assoc.
        apply IH.
        -- destruct Hcons as [? ? ? ? Hq]. rewrite Hpend in Hq. split; cbn; auto.
           rewrite Hpend. cbn. rewrite drop_0, <- app_assoc. exact Hq.
        -- exact Hnext.
        -- unfold finished_clean. cbn. discriminate.
        -- cbn. discriminate.
    + (* finished *)
      destruct (Hclean Hposition) as [Hsub _].
      rewrite stream_run_finished by assumption. cbn [fst snd yields]. rewrite app_nil_r.
      rewrite (Hquiet Hsub). auto.
Qed.

(** X25: the stream loses no series and invents none.  At any moment
    the series the consumer has been handed, followed by those still in
    the pending queue, are the series the subscriber queued for the events
    that arrived since the generator was started, in the order of their
    completion; when the generator has finished without an error, the
    consumer has been handed all of them. *)
Theorem stream_delivers_queued_series_in_order
    (params : GetCandlesParams) (random : nat -> string) (sent : list Command)
    (schedule : list CandleStream.Action) :
  validateParams params = Return tt ->
  let result := CandleStream.run params random schedule (CandleStream.new sent) in
  let final := snd result in
  yields (fst result) ++ map py_candles (CandleStream.pendingYields final) =
    queued params random sent (after_start schedule) /\
  (CandleStream.position final = CandleStream.finished ->
   CandleStream.hasError final = false ->
   yields (fst result) = queued params random sent (after_start schedule)).
Proof.
  intros Hvalid.
  assert (Hlen : (length (symbols params) =? 0)%nat = false).
  { destruct (length (symbols params) =? 0)%nat eqn:Hzero; [|reflexivity].
    revert Hvalid. unfold validateParams, validateSymbols. now rewrite Hzero. }
  induction schedule as [|[event|] schedule IH].
  - cbn. split; [reflexivity|discriminate].
  - exact IH.
  - clear IH. cbn [CandleStream.run after_start]. cbn [CandleStream.position CandleStream.new].
    pose proof (stream_resume_invariant params random (CandleStream.new sent)
                  (stream_new_invariant sent)) as Hnext.
    unfold CandleStream.resume in *. cbn [CandleStream.position CandleStream.new] in *.
    rewrite Hvalid, Hlen in *.
    set (st := CandleStream.initializeRequests params random _) in *.
    unfold CandleStream.loop in *.
    assert (Hactive : (0 <? CandleStream.activeCount st)%Z = true).
    { subst st. cbn. apply Z.ltb_lt. apply Nat.eqb_neq in Hlen. lia. }
    rewrite Hactive in *. cbn [CandleStream.hasError CandleStream.pendingYields
      CandleStream.initializeRequests CandleStream.new negb andb st] in *.
    cbn [snd] in Hnext.
    destruct (consumed_run params random schedule []
                (CandleStream.at_position CandleStream.in_loop st) st) as [Hcons Hclean].
    + split; cbn; auto.
    + exact Hnext.
    + unfold finished_clean. cbn. discriminate.
    + cbn. discriminate.
    + destruct (CandleStream.run params random schedule
                  (CandleStream.at_position CandleStream.in_loop st)) as [steps final].
      cbn [fst snd app] in *. unfold queued. fold st. split.
      * exact (cs_queue _ _ _ Hcons).
      * intros Hfin Herr. destruct (Hclean Hfin) as [_ Hempty].
        rewrite <- (cs_queue _ _ _ Hcons), (Hempty Herr). cbn. now rewrite app_nil_r.
Qed.

(** A completes, the consumer takes its series, B completes, the consumer
    takes it and the generator returns. *)
Lemma stream_delivers_queued_series_in_order_witness :
  let params := mkParams ["A"; "B"] None "60" in
  let schedule :=
    [CandleStream.resumes;
     CandleStream.arrives (update_event "cs_A_1" [bar 1]);
     CandleStream.arrives (completion_event "cs_A_1");
     CandleStream.resumes;
     CandleStream.arrives (update_event "cs_B_3" [bar 2]);
     CandleStream.arrives (completion_event "cs_B_3");
     CandleStream.resumes;
     CandleStream.resumes] in
  let result := CandleStream.run params string_of_nat schedule (CandleStream.new []) in
  yields (fst result) = [[bar_candle 1]; [bar_candle 2]] /\
  yields (fst result) = queued params string_of_nat [] (after_start schedule).
Proof.
  intros params schedule result.
  split; [vm_compute; reflexivity|].
  apply (proj2 (stream_delivers_queued_series_in_order params string_of_nat [] schedule
                  eq_refl)).
  - vm_compute. reflexivity.
  - vm_compute. reflexivity.
Defined.

(** ** The sessions of the single-file copy *)

Lemma legacy_send_requests_other (params : GetCandlesParams) (batchSize : Z)
    (random : nat -> string) (i : nat) (rest : list string) (mgr : Managers) (key : string) :
  (forall j symbol, rest !! j = Some symbol ->
     "cs_" +:+ symbol +:+ "_" +:+ random (i + j)%nat <> key) ->
  sessionMap (Legacy.send_requests params batchSize random i rest mgr) !! key =
  sessionMap mgr !! key.
Proof.
  revert i mgr. induction rest as [|x rest IH]; intros i mgr Hother; [reflexivity|].
  cbn [Legacy.send_requests]. rewrite IH.
  - cbn [sessionMap]. apply lookup_insert_ne.
    specialize (Hother 0%nat x eq_refl). now rewrite Nat.add_0_r in Hother.
  - intros j symbol Hj. specialize (Hother (S j) symbol Hj).
    now replace (S i + j)%nat with (i + S j)%nat by lia.
Qed.

Lemma legacy_send_requests_commands (params : GetCandlesParams) (batchSize : Z)
    (random : nat -> string) (i : nat) (rest : list string) (mgr : Managers)
    (j : nat) (symbol : string) :
  rest !! j = Some symbol ->
  mkCommand "create_series"
    [JStr ("cs_" +:+ symbol +:+ "_" +:+ random (i + j)%nat); JStr "sds_1";
     JStr ("s" +:+ string_of_nat (i + j)); JStr ("sds_sym_" +:+ string_of_nat (i + j));
     JStr (timeframe params); JNum batchSize; JStr ""]
  ∈ connection (Legacy.send_requests params batchSize random i rest mgr).
Proof.
  assert (Hkeeps : forall rest i mgr c,
            c ∈ connection mgr ->
            c ∈ connection (Legacy.send_requests params batchSize random i rest mgr)).
  { clear. induction rest as [|x rest IH]; intros i mgr c Hc; [exact Hc|].
    cbn [Legacy.send_requests]. apply IH. cbn [connection]. unfold send.
    rewrite !elem_of_app. auto. }
  revert i mgr j. induction rest as [|x rest IH]; intros i mgr j Hj; [discriminate Hj|].
  cbn [Legacy.send_requests]. destruct j as [|j].
  - injection Hj as ->. apply Hkeeps. cbn [connection]. unfold send.
    rewrite elem_of_app. right. rewrite Nat.add_0_r. apply list_elem_of_here.
  - replace (i + S j)%nat with (S i + j)%nat by lia. now apply IH.
Qed.

(** X28: the single-file [getCandlesConcurrent] draws one
    session id per symbol and uses it throughout: when the draws are
    base-36 texts that differ, the session on which the series of a symbol
    is created is registered for that symbol, so its events are routed to
    it. *)
Theorem single_file_series_sessions_are_registered
    (params : GetCandlesParams) (random : nat -> string) (sent : list Command) :
  (forall k, free_of "_" (random k) = true) ->
  (forall i j, i <> j -> random i <> random j) ->
  let st := Legacy.getCandlesConcurrent params random sent in
  forall index symbol,
    symbols params !! index = Some symbol ->
    let session := "cs_" +:+ symbol +:+ "_" +:+ random index in
    ChartSessionManager.getSymbolForSession (p_string session)
      (sessionMap (Concurrent.mgr st)) = Some symbol /\
    mkCommand "create_series"
      [JStr session; JStr "sds_1"; JStr ("s" +:+ string_of_nat index);
       JStr ("sds_sym_" +:+ string_of_nat index); JStr (timeframe params);
       JNum (Legacy.batchSize params); JStr ""]
    ∈ connection (Concurrent.mgr st).
Proof.
  intros Hfree Hdiffer st index symbol Hindex session.
  assert (Hst : st = Concurrent.mk
            (Legacy.send_requests params (Legacy.batchSize params) random 0 (symbols params)
               (mkManagers
                  (foldl (fun states symbol =>
                            <[symbol := mkSymbolState [] false false]> states)
                         ∅ (symbols params)) ∅ sent))
            [] 0 pending true).
  { subst st. unfold Legacy.getCandlesConcurrent.
    destruct (length (symbols params) =? 0)%nat eqn:Hlen; [|reflexivity].
    apply Nat.eqb_eq, nil_length_inv in Hlen. rewrite Hlen in Hindex. discriminate Hindex. }
  rewrite Hst. cbn [Concurrent.mgr ChartSessionManager.getSymbolForSession]. split.
  - assert (Hgen : forall rest i mgr j,
              rest !! j = Some symbol ->
              sessionMap (Legacy.send_requests params (Legacy.batchSize params) random i
                            rest mgr)
                !! ("cs_" +:+ symbol +:+ "_" +:+ random (i + j)%nat) = Some symbol).
    { induction rest as [|x rest IH]; intros i mgr j Hj; [discriminate Hj|].
      cbn [Legacy.send_requests]. destruct j as [|j].
      - injection Hj as ->. rewrite legacy_send_requests_other.
        + cbn [sessionMap]. rewrite Nat.add_0_r. apply lookup_insert_eq.
        + intros j symbol' _ Heq.
          change ("_" +:+ random (S i + j)%nat) with (String "_" (random (S i + j)%nat)) in Heq.
          change ("_" +:+ random (i + 0)%nat) with (String "_" (random (i + 0)%nat)) in Heq.
          rewrite !append_cons, !append_empty in Heq. injection Heq as Heq.
          apply session_id_injective in Heq as [_ Heq]; auto.
          apply (Hdiffer (S i + j)%nat (i + 0)%nat); [lia|exact Heq].
      - replace (i + S j)%nat with (S i + j)%nat by lia. now apply IH. }
    exact (Hgen (symbols params) 0%nat _ index Hindex).
  - exact (legacy_send_requests_commands params (Legacy.batchSize params) random 0
             (symbols params) _ index symbol Hindex).
Qed.

Lemma string_of_nat_free_of_underscore (k : nat) : free_of "_" (string_of_nat k) = true.
Proof.
  destruct (string_of_nat_digits k) as (d & -> & _). induction d; cbn; auto.
Qed.

Lemma string_of_nat_injective (i j : nat) : string_of_nat i = string_of_nat j -> i = j.
Proof.
  unfold string_of_nat. intros Heq. apply string_of_Z_injective in Heq. lia.
Qed.

(** The draws are the numerals: the session of B is registered for B. *)
Lemma single_file_series_sessions_are_registered_witness :
  let params := mkParams ["A"; "B"] None "60" in
  let st := Legacy.getCandlesConcurrent params string_of_nat [] in
  ChartSessionManager.getSymbolForSession (p_string "cs_B_1")
    (sessionMap (Concurrent.mgr st)) = Some "B".
Proof.
  intros params st.
  refine (proj1 (single_file_series_sessions_are_registered params string_of_nat []
                   string_of_nat_free_of_underscore _ 1%nat "B" eq_refl)).
  intros i j Hne Heq. apply Hne. now apply string_of_nat_injective.
Defined.

(** ** What the error handler makes of the failures *)

Lemma validate_each_throws (index : nat) (symbols : list string) (e : JsError) :
  validate_each index symbols = Throw e -> cls e = Error_.
Proof.
  revert index. induction symbols as [|x symbols IH]; intros index; cbn [validate_each];
    [discriminate|].
  destruct (validateSymbol x); [apply IH|]. intros [= <-]. reflexivity.
Qed.

Lemma validateParams_throws (params : GetCandlesParams) (e : JsError) :
  validateParams params = Throw e -> cls e = Error_.
Proof.
  unfold validateParams, validateSymbols.
  destruct (_ =? _)%nat; [intros [= <-]; reflexivity|].
  destruct (_ <? _)%nat; [intros [= <-]; reflexivity|].
  destruct (validate_each 0 (symbols params)) as [[]|e'] eqn:Heach; cbn [bind].
  - unfold validateAmount, amount_arg. destruct (amount params) as [a|]; [|discriminate].
    repeat (match goal with |- context [if ?b then _ else _] => destruct b end);
      try discriminate; intros [= <-]; reflexivity.
  - intros [= <-]. now apply (validate_each_throws _ _ _ Heach).
Qed.

Lemma concurrent_run_rejected (params : GetCandlesParams) (events : list TradingviewEvent)
    (st : Concurrent.t) (e : JsError) :
  Concurrent.promise (Concurrent.run params events st) = rejected e ->
  Concurrent.promise st = rejected e \/ (cls e = DataError /\ code e = Some "DATA_ERROR").
Proof.
  induction events as [|event events IH] using rev_ind; [auto|].
  rewrite run_snoc. intros Hrej.
  assert (Hstep : Concurrent.promise (Concurrent.run params events st) = rejected e \/
                  (cls e = DataError /\ code e = Some "DATA_ERROR")).
  { revert Hrej. generalize (Concurrent.run params events st). intros st'.
    unfold Concurrent.dispatch. destruct (Concurrent.subscribed st'); [|auto].
    unfold Concurrent.subscriber.
    destruct (String.eqb (name event) "timescale_update").
    - destruct (CandleEventHandler.handleTimescaleUpdate _ _ _) as [mgr'|cause];
        cbn [Concurrent.promise]; [auto|].
      destruct (Concurrent.promise st'); cbn; [|discriminate|auto].
      intros [= <-]. auto.
    - destruct (is_series_event event); [|auto].
      destruct (no_symbol _); [auto|].
      destruct (CandleEventHandler.handleSeriesEvent _ _ _ _ _) as [[mgr' [res n]] done].
      destruct (done && (n =? length (symbols params))%nat); cbn [Concurrent.promise]; [|auto].
      intros Hres. left. now apply resolve_rejected in Hres. }
  destruct Hstep as [Hprev|Hdata]; [now apply IH|auto].
Qed.

Lemma sequential_run_rejected (params : GetCandlesParams) (randomId : string)
    (events : list TradingviewEvent) (st : Sequential.t) (e : JsError) :
  Sequential.promise (Sequential.run params randomId events st) = rejected e ->
  Sequential.promise st = rejected e \/ (cls e = DataError /\ code e = Some "DATA_ERROR").
Proof.
  unfold Sequential.run. revert st.
  induction events as [|event events IH]; intros st; [auto|]. cbn [foldl].
  intros Hrej. apply IH in Hrej as [Hprev|Hdata]; [|auto].
  revert Hprev. unfold Sequential.dispatch. destruct (Sequential.subscribed st); [|auto].
  unfold Sequential.subscriber.
  destruct (String.eqb (name event) "timescale_update").
  - destruct (Sequential.read_series event) as [newCandles|cause];
      cbn [Sequential.promise]; [auto|].
    destruct (Sequential.promise st); cbn; [|discriminate|auto].
    intros [= <-]. auto.
  - destruct (is_series_event event); [|auto].
    destruct (CandleDataProcessor.shouldRequestMoreData _ _); [auto|].
    destruct (_ <? _)%nat; cbn [Sequential.promise]; [auto|].
    intros Hres. left. now apply resolve_rejected in Hres.
Qed.

Lemma stream_drain_thrown (st : CandleStream.t) (e : JsError) :
  fst (CandleStream.drain st) <> CandleStream.thrown e.
Proof. unfold CandleStream.drain. now destruct (CandleStream.pendingYields st). Qed.

Lemma stream_loop_thrown (st : CandleStream.t) (e : JsError) :
  fst (CandleStream.loop st) = CandleStream.thrown e ->
  cls e = TradingViewError /\ code e = None.
Proof.
  unfold CandleStream.loop. destruct (_ && negb _).
  - now destruct (CandleStream.pendingYields st).
  - destruct (_ && _); cbn [fst].
    + intros [= <-]. split; reflexivity.
    + intros Hdrain. now apply stream_drain_thrown in Hdrain.
Qed.

Lemma stream_resume_thrown (params : GetCandlesParams) (random : nat -> string)
    (st : CandleStream.t) (e : JsError) :
  fst (CandleStream.resume params random st) = CandleStream.thrown e ->
  cls e = Error_ \/ (cls e = TradingViewError /\ code e = None).
Proof.
  unfold CandleStream.resume. destruct (CandleStream.position st).
  - destruct (validateParams params) as [[]|e'] eqn:Hvalid.
    + destruct (_ =? _)%nat; [discriminate|]. intros Hloop. right.
      now apply stream_loop_thrown in Hloop.
    + intros [= <-]. left. now apply (validateParams_throws params).
  - intros Hloop. right. now apply stream_loop_thrown in Hloop.
  - intros Hdrain. now apply stream_drain_thrown in Hdrain.
  - discriminate.
Qed.

Lemma stream_run_thrown (params : GetCandlesParams) (random : nat -> string)
    (schedule : list CandleStream.Action) (st : CandleStream.t) (e : JsError) :
  CandleStream.thrown e ∈ fst (CandleStream.run params random schedule st) ->
  cls e = Error_ \/ (cls e = TradingViewError /\ code e = None).
Proof.
  revert st. induction schedule as [|[event|] schedule IH]; intros st; cbn [CandleStream.run].
  - intros Hin. inversion Hin.
  - apply IH.
  - assert (Hstep : CandleStream.thrown e ∈
              fst (let '(step, st') := CandleStream.resume params random st in
                   let '(steps, st'') := CandleStream.run params random schedule st' in
                   (match step with
                    | CandleStream.awaiting => steps
                    | _ => step :: steps
                    end, st'')) ->
            cls e = Error_ \/ (cls e = TradingViewError /\ code e = None)).
    { pose proof (stream_resume_thrown params random st e) as Hresume.
      destruct (CandleStream.resume params random st) as [step st'].
      specialize (IH st').
      destruct (CandleStream.run params random schedule st') as [steps st''].
      cbn [fst] in *. intros Hin.
      destruct step; try (apply elem_of_cons in Hin as [Heq|Hin]); auto; try discriminate.
      all: apply Hresume; now rewrite Heq. }
    destruct (CandleStream.position st); [exact Hstep ..|apply IH].
Qed.

(** X30: no failure of a retrieval call is one the error handler
    would retry, and its message for the user is prefixed by [Data error: ]
    or [Error: ].  The concurrent and the sequential call reject with the
    plain [Error] of the validation or with the [DataError] of their
    subscriber, and the stream throws the plain [Error] of the validation or
    a [TradingViewError] without a code; the validation of the parameters
    as the caller gave them adds the plain [Error] of an invalid time frame
    and the codeless [TradingViewError] of a missing connection;
    [isRetryable] is false of each. *)
Theorem retrieval_failures_are_not_retryable
    (params : GetCandlesParams) (random : nat -> string) (randomId : string)
    (sent : list Command) (events : list TradingviewEvent)
    (schedule : list CandleStream.Action) (has_connection : bool)
    (given : option FlexibleTimeframe) (e : JsError) :
  Concurrent.promise
    (Concurrent.run params events (Concurrent.getCandlesConcurrent params random sent))
    = rejected e \/
  Sequential.promise
    (Sequential.run params randomId events (Sequential.getCandles params randomId sent))
    = rejected e \/
  CandleStream.thrown e ∈
    fst (CandleStream.run params random schedule (CandleStream.new sent)) \/
  validateParams_as_called has_connection given params = Throw e ->
  retrieval_failure e /\
  ErrorHandler.isRetryable e = false /\
  ErrorHandler.getUserMessage e =
    (if is_a e DataError then "Data error: " else "Error: ") +:+ message e.
Proof.
  intros Hfailure.
  assert (Hkind : retrieval_failure e).
  { unfold retrieval_failure. destruct Hfailure as [Hconc|[Hseq|[Hstream|Hcalled]]].
    4: { revert Hcalled. unfold validateParams_as_called.
         destruct has_connection; cbn [negb]; [|intros [= <-]; right; right; now split].
         destruct (validateParams params) as [[]|e'] eqn:Hvalid; cbn [bind].
         - destruct given as [given|]; [|discriminate].
           destruct (validateTimeframe given) as [value|e'] eqn:Htf; cbn [bind];
             [discriminate|].
           intros [= <-]. left. revert Htf. unfold validateTimeframe.
           destruct given;
             repeat (match goal with
                     | |- context [if ?b then _ else _] => destruct b
                     | |- context [match ?x with _ => _ end] => destruct x
                     end); try discriminate; intros [= <-]; reflexivity.
         - intros [= <-]. left. now apply (validateParams_throws params). }
    - apply concurrent_run_rejected in Hconc as [Hinit|Hdata]; [|auto].
      revert Hinit. unfold Concurrent.getCandlesConcurrent.
      destruct (validateParams params) as [[]|e'] eqn:Hvalid.
      + destruct (_ =? _)%nat; discriminate.
      + intros [= <-]. left. now apply (validateParams_throws params).
    - apply sequential_run_rejected in Hseq as [Hinit|Hdata]; [|auto].
      revert Hinit. unfold Sequential.getCandles.
      destruct (validateParams params) as [[]|e'] eqn:Hvalid.
      + destruct (_ =? _)%nat; discriminate.
      + intros [= <-]. left. now apply (validateParams_throws params).
    - apply stream_run_thrown in Hstream as [Hplain|Hgeneric]; auto. }
  split; [exact Hkind|].
  unfold ErrorHandler.isRetryable, ErrorHandler.getUserMessage, is_a.
  destruct Hkind as [Hcls|[[Hcls Hcode]|[Hcls Hcode]]]; rewrite Hcls, ?Hcode;
    split; reflexivity.
Qed.

(** A request for a symbol with a space in it. *)
Lemma retrieval_failures_are_not_retryable_witness :
  ErrorHandler.isRetryable
    (new_Error "Invalid symbol at index 0: Invalid symbol format: A B") = false.
Proof.
  refine (proj1 (proj2 (retrieval_failures_are_not_retryable (mkParams ["A B"] None "60")
                   string_of_nat "r" [] [] [] true None _ (or_introl _)))).
  vm_compute. reflexivity.
Defined.
